(** * Dead-code elimination over a dependency graph (gapid)

    A shallow embedding of
      - gapis/resolve/dependencygraph/dependency_graph.go
      - gapis/atom/transform/dead_code_elimination.go
    together with the properties of the state address map, the liveness
    tree, the backwards liveness sweep and the emitter.

    Conventions.
      - A Go panic is the result [Panic]; a walk along parent pointers that
        does not end within the number of nodes is [OutOfFuel] (the Go code
        would loop forever on a cyclic parent chain).
      - Go's [int] is taken to be 64 bits wide; [l.time++] wraps around.
      - A pointer [*livenessNode] always points into the slice [l.nodes]
        and is represented by its index, so that the aliasing between a
        node and the parent pointers of its children is kept.
      - A Go map is a [gmap]; where the code ranges over a map, the keys
        are taken in the order of [map_to_list].  The liveness computed
        does not depend on that order (see [viewMarkAll_Permutation]).
      - Two fields are renamed because record projections share one name
        space: [DependencyGraph.Roots] is [GraphRoots] and
        [addressMapping.parent] is [parentOf].
      - Logging, debug output and the benchmark counters are left out. *)

From Stdlib Require Import ZArith Lia.
From stdpp Require Import base option list gmap strings sorting.

Local Open Scope Z_scope.
Local Open Scope nat_scope.

(** ** Results of partial computations *)

Inductive result (A : Type) : Type :=
  | Ok (a : A)
  | Panic (msg : string)
  | OutOfFuel.
Arguments Ok {A} a.
Arguments Panic {A} msg.
Arguments OutOfFuel {A}.

Definition result_bind {A B} (f : A → result B) (m : result A) : result B :=
  match m with
  | Ok a => f a
  | Panic msg => Panic msg
  | OutOfFuel => OutOfFuel
  end.

#[global] Instance result_mbind : MBind result := @result_bind.
#[global] Instance result_mret : MRet result := @Ok.

(** [s[i]] on a slice. *)
Definition idx {A} (l : list A) (i : nat) : result A :=
  match l !! i with
  | Some x => Ok x
  | None => Panic "index out of range"
  end.

(** ** Machine integers *)

Definition intMax : Z := (2 ^ 63 - 1)%Z.

(** Two's complement wrap-around of a 64 bit [int]. *)
Definition wrapInt (z : Z) : Z := ((z + 2 ^ 63) mod 2 ^ 64 - 2 ^ 63)%Z.

(** [type StateAddress uint32]: the conversion from [int]. *)
Abbreviation StateAddress := nat (only parsing).
Definition NullStateAddress : StateAddress := 0.
Definition toStateAddress (n : nat) : StateAddress :=
  Z.to_nat (Z.of_nat n mod 2 ^ 32).

(** ** The liveness tree (dead_code_elimination.go) *)

Record livenessNode := mkNode {
  live : bool;
  anyLive : bool;
  timestamp : Z;
  parent : option nat
}.

Record livenessTree := mkTree {
  nodes : list livenessNode;
  time : Z
}.

Definition zeroNode : livenessNode := mkNode false false 0 None.

(** One iteration of the loop of [newLivenessTree]. *)
Definition linkParent (address par : StateAddress)
    (acc : result (list livenessNode)) : result (list livenessNode) :=
  ns ← acc;
  if decide (par = NullStateAddress) then Ok ns
  else
    n ← idx ns address;
    _ ← idx ns par;
    Ok (<[address := mkNode (live n) (anyLive n) (timestamp n) (Some par)]> ns).

Definition newLivenessTree (parents : gmap StateAddress StateAddress)
    : result livenessTree :=
  ns ← map_fold linkParent (Ok (replicate (size parents) zeroNode)) parents;
  Ok (mkTree ns 1%Z).

(** The loop of [IsLive]: [p] is the loop variable, [node] and [lv] are the
    locals [node] and [live]. *)
Fixpoint IsLive_loop (fuel : nat) (ns : list livenessNode)
    (p : option nat) (node : nat) (lv : bool) : result bool :=
  match p with
  | None => Ok lv
  | Some pi =>
    match fuel with
    | 0 => OutOfFuel
    | S fuel' =>
      pn ← idx ns pi;
      n ← idx ns node;
      if (timestamp n <? timestamp pn)%Z
      then IsLive_loop fuel' ns (parent pn) pi (live pn)
      else IsLive_loop fuel' ns (parent pn) node lv
    end
  end.

Definition IsLive (l : livenessTree) (address : StateAddress) : result bool :=
  node ← idx (nodes l) address;
  IsLive_loop (length (nodes l)) (nodes l) (parent node) address (anyLive node).

Definition MarkDead (l : livenessTree) (address : StateAddress)
    : result livenessTree :=
  node ← idx (nodes l) address;
  Ok (mkTree (<[address := mkNode false false (time l) (parent node)]> (nodes l))
             (wrapInt (time l + 1))).

(** [setAnyLive] on the node with index [i]. *)
Fixpoint setAnyLive (fuel : nat) (ns : list livenessNode) (i : nat)
    : result (list livenessNode) :=
  match fuel with
  | 0 => OutOfFuel
  | S fuel' =>
    node ← idx ns i;
    ns1 ← match parent node with
          | Some pi =>
            ns' ← setAnyLive fuel' ns pi;
            node' ← idx ns' i;
            p ← idx ns' pi;
            if (timestamp node' <? timestamp p)%Z
            then Ok (<[i := mkNode (live p) (anyLive node') (timestamp p)
                                   (parent node')]> ns')
            else Ok ns'
          | None => Ok ns
          end;
    node1 ← idx ns1 i;
    Ok (<[i := mkNode (live node1) true (timestamp node1) (parent node1)]> ns1)
  end.

Definition MarkLive (l : livenessTree) (address : StateAddress)
    : result livenessTree :=
  node ← idx (nodes l) address;
  let ns := <[address := mkNode true true (time l) (parent node)]> (nodes l) in
  ns' ← match parent node with
        | Some pi => setAnyLive (length ns) ns pi
        | None => Ok ns
        end;
  Ok (mkTree ns' (wrapInt (time l + 1))).

(** ** The dependency graph (dependency_graph.go) *)

Inductive error : Type :=
  | Canceled
  | OtherError (msg : string).

(** [err.Error()]. *)
Definition errorString (e : error) : string :=
  match e with
  | Canceled => "context canceled"
  | OtherError msg => msg
  end.

Record AtomBehaviour := mkBehaviour {
  Reads : list StateAddress;
  Modifies : list StateAddress;
  Writes : list StateAddress;
  Roots : list StateAddress;
  KeepAlive : bool;
  Aborted : bool
}.

Definition emptyBehaviour : AtomBehaviour := mkBehaviour [] [] [] [] false false.

Section DependencyGraph.
(** [Atom] stands for [atom.Atom] and [Key] for the non-nil values of the
    interface [StateKey]; the nil interface value is [None]. *)
Context {Atom : Type} {Key : Type} `{Countable Key}.

Record addressMapping := mkAddressMapping {
  address : gmap (option Key) StateAddress;
  key : gmap StateAddress (option Key);
  parentOf : gmap StateAddress StateAddress
}.

Record DependencyGraph := mkGraph {
  Atoms : list Atom;
  Behaviours : list AtomBehaviour;
  GraphRoots : gmap StateAddress bool;
  addressMap : addressMapping
}.

(** [StateKey.Parent]. *)
Variable Parent : Key → option Key.

Fixpoint addressOf (fuel : nat) (m : addressMapping) (state : option Key)
    : result (StateAddress * addressMapping) :=
  match address m !! state with
  | Some a => Ok (a, m)
  | None =>
    let a := toStateAddress (size (address m)) in
    let m1 := mkAddressMapping (<[state := a]> (address m))
                               (<[a := state]> (key m)) (parentOf m) in
    match state with
    | None => Panic "nil pointer dereference"
    | Some k =>
      match fuel with
      | 0 => OutOfFuel
      | S fuel' =>
        '(p, m2) ← addressOf fuel' m1 (Parent k);
        Ok (a, mkAddressMapping (address m2) (key m2) (<[a := p]> (parentOf m2)))
      end
    end
  end.

Definition withAddressMap (g : DependencyGraph) (m : addressMapping)
    : DependencyGraph :=
  mkGraph (Atoms g) (Behaviours g) (GraphRoots g) m.

Definition GetStateAddressOf (fuel : nat) (g : DependencyGraph)
    (k : option Key) : result (StateAddress * DependencyGraph) :=
  '(a, m) ← addressOf fuel (addressMap g) k;
  Ok (a, withAddressMap g m).

Definition GetHierarchyStateMap (g : DependencyGraph)
    : gmap StateAddress StateAddress :=
  parentOf (addressMap g).

Definition SetRoot (fuel : nat) (g : DependencyGraph) (k : option Key)
    : result DependencyGraph :=
  '(a, g') ← GetStateAddressOf fuel g k;
  Ok (mkGraph (Atoms g') (Behaviours g') (<[a := true]> (GraphRoots g'))
              (addressMap g')).

Definition Read (fuel : nat) (b : AtomBehaviour) (g : DependencyGraph)
    (state : option Key) : result (AtomBehaviour * DependencyGraph) :=
  match state with
  | Some _ =>
    '(a, m) ← addressOf fuel (addressMap g) state;
    Ok (mkBehaviour (Reads b ++ [a]) (Modifies b) (Writes b) (Roots b)
                    (KeepAlive b) (Aborted b),
        withAddressMap g m)
  | None => Ok (b, g)
  end.

Definition Modify (fuel : nat) (b : AtomBehaviour) (g : DependencyGraph)
    (state : option Key) : result (AtomBehaviour * DependencyGraph) :=
  match state with
  | Some _ =>
    '(a, m) ← addressOf fuel (addressMap g) state;
    Ok (mkBehaviour (Reads b) (Modifies b ++ [a]) (Writes b) (Roots b)
                    (KeepAlive b) (Aborted b),
        withAddressMap g m)
  | None => Ok (b, g)
  end.

Definition Write (fuel : nat) (b : AtomBehaviour) (g : DependencyGraph)
    (state : option Key) : result (AtomBehaviour * DependencyGraph) :=
  match state with
  | Some _ =>
    '(a, m) ← addressOf fuel (addressMap g) state;
    Ok (mkBehaviour (Reads b) (Modifies b) (Writes b ++ [a]) (Roots b)
                    (KeepAlive b) (Aborted b),
        withAddressMap g m)
  | None => Ok (b, g)
  end.

(** The address map with which [Resolve] starts: the nil key is interned
    at the null address and is its own parent. *)
Definition initAddressMap : addressMapping :=
  mkAddressMapping {[ None := NullStateAddress ]}
                   {[ NullStateAddress := None ]}
                   {[ NullStateAddress := NullStateAddress ]}.

(** *** Building the graph *)

(** The collaborators of [Resolve]: the simulated state, the API of an
    atom, its [Mutate], and the behaviour provider an API may offer. *)
Context {State Api : Type} `{EqDecision Api}.

Record BehaviourProvider := mkProvider {
  GetBehaviourForAtom :
    State → nat → DependencyGraph → Atom → AtomBehaviour * State * DependencyGraph
}.

Variable API : Atom → Api.
Variable Mutate : Atom → State → State * option error.
(** [api.(DependencyGraphBehaviourProvider)] followed by
    [GetDependencyGraphBehaviourProvider]. *)
Variable GetDependencyGraphBehaviourProvider : Api → option BehaviourProvider.

Record capture := mkCapture {
  captureAtoms : list Atom;
  NewState : State
}.

(** The dynamic value behind the [interface{}] that [Resolve] returns. *)
Inductive resolved : Type :=
  | IsGraph (g : DependencyGraph)
  | IsBehaviour (b : AtomBehaviour).

Fixpoint lookupProvider (ps : list (Api * BehaviourProvider)) (api : Api)
    : option BehaviourProvider :=
  match ps with
  | [] => None
  | (api', bp) :: ps' => if decide (api' = api) then Some bp else lookupProvider ps' api
  end.

Definition setKeepAlive (b : AtomBehaviour) : AtomBehaviour :=
  mkBehaviour (Reads b) (Modifies b) (Writes b) (Roots b) true (Aborted b).

Definition setBehaviour (g : DependencyGraph) (i : nat) (b : AtomBehaviour)
    : result DependencyGraph :=
  _ ← idx (Behaviours g) i;
  Ok (mkGraph (Atoms g) (<[i := b]> (Behaviours g)) (GraphRoots g) (addressMap g)).

(** The loop [for i, a := range g.Atoms] of [Resolve], from index [i] on. *)
Fixpoint resolveLoop (atoms : list Atom) (i : nat) (g : DependencyGraph)
    (s : State) (behaviourProviders : list (Api * BehaviourProvider))
    : result (option resolved * option error) :=
  match atoms with
  | [] => Ok (Some (IsGraph g), None)
  | a :: atoms' =>
    let api := API a in
    let viaProvider bp providers :=
      let '(b, s', g') := GetBehaviourForAtom bp s i g a in
      g'' ← setBehaviour g' i b;
      resolveLoop atoms' (S i) g'' s' providers in
    match lookupProvider behaviourProviders api with
    | Some bp => viaProvider bp behaviourProviders
    | None =>
      match GetDependencyGraphBehaviourProvider api with
      | Some bp => viaProvider bp ((api, bp) :: behaviourProviders)
      | None =>
        b ← idx (Behaviours g) i;
        g1 ← setBehaviour g i (setKeepAlive b);
        let '(s', err) := Mutate a s in
        match err with
        | Some _ =>
          Ok (Some (IsBehaviour (mkBehaviour [] [] [] [] false true)), None)
        | None => resolveLoop atoms' (S i) g1 s' behaviourProviders
        end
      end
    end
  end.

(** [Resolve], given what [capture.ResolveFromPath] returned. *)
Definition Resolve (c : capture + error)
    : result (option resolved * option error) :=
  match c with
  | inr err => Ok (None, Some err)
  | inl c =>
    let atoms := captureAtoms c in
    let g := mkGraph atoms (replicate (length atoms) emptyBehaviour) ∅
                     initAddressMap in
    resolveLoop atoms 0 g (NewState c) []
  end.

(** [GetDependencyGraph]: [database.Build] runs [Resolve]; the result is
    then asserted to be a [*DependencyGraph]. *)
Definition GetDependencyGraph (c : capture + error)
    : result (option DependencyGraph * option error) :=
  '(r, err) ← Resolve c;
  match err with
  | Some e =>
    Ok (None, Some (OtherError ("Could not calculate dependency graph: "
                                +:+ errorString e)))
  | None =>
    match r with
    | Some (IsGraph g) => Ok (Some g, None)
    | _ => Panic "interface conversion"
    end
  end.
End DependencyGraph.

(** ** The transform (dead_code_elimination.go) *)

Section DeadCodeElimination.
Context {Atom : Type} {Key : Type} `{Countable Key}.

Abbreviation Graph := (@DependencyGraph Atom Key _ _).

(** Modelled from the spec: [atom.ID] and [atom.IDSet] are declared
    outside the sources at hand.  A command id is the 0-based position of
    the command in the capture, and the requests are a set of ids. *)
Record DeadCodeElimination := mkDCE {
  dependencyGraph : Graph;
  requests : gset nat;
  lastRequest : nat
}.

Definition NewDeadCodeElimination (g : Graph) : DeadCodeElimination :=
  mkDCE g ∅ 0.

Definition Request (t : DeadCodeElimination) (id : nat) : DeadCodeElimination :=
  mkDCE (dependencyGraph t) ({[ id ]} ∪ requests t)
        (if decide (lastRequest t < id) then id else lastRequest t).

(** Modelled from the spec: the interface [Writer] is declared outside
    the sources at hand.  The downstream sink is represented by the
    sequence of (id, command) pairs it has received through
    [MutateAndWrite]. *)
Definition Writer : Type := list (nat * Atom).

Definition Transform (t : DeadCodeElimination) (id : nat) (a : Atom)
    (out : Writer) : result unit * Writer :=
  (Panic "This transform does not accept input atoms", out).

(** [for root := range roots { state.MarkLive(root) }] and the two loops
    that mark the inputs of a live command. *)
Fixpoint markAllLive (state : livenessTree) (xs : list StateAddress)
    : result livenessTree :=
  match xs with
  | [] => Ok state
  | x :: xs' => state' ← MarkLive state x; markAllLive state' xs'
  end.

(** [for _, write := range b.Writes]: the flag is [isLive[i]]. *)
Fixpoint killWrites (state : livenessTree) (lv : bool)
    (ws : list StateAddress) : result (livenessTree * bool) :=
  match ws with
  | [] => Ok (state, lv)
  | w :: ws' =>
    l ← IsLive state w;
    if l : bool then state' ← MarkDead state w; killWrites state' true ws'
    else killWrites state lv ws'
  end.

(** [for _, modify := range b.Modifies]. *)
Fixpoint checkModifies (state : livenessTree) (lv : bool)
    (ms : list StateAddress) : result bool :=
  match ms with
  | [] => Ok lv
  | m :: ms' =>
    l ← IsLive state m;
    checkModifies state (if l : bool then true else lv) ms'
  end.

(** The keys of [Roots] in the order in which [range] yields them. *)
Definition rootKeys (g : Graph) : list StateAddress :=
  (map_to_list (GraphRoots g)).*1.

(** The body of the loop of [propagateLiveness] for command [i]; the
    local [b] is a copy of [Behaviours[i]]. *)
Definition sweepCommand (t : DeadCodeElimination) (i : nat)
    (st : list bool * livenessTree) : result (list bool * livenessTree) :=
  let '(isLive, state) := st in
  b ← idx (Behaviours (dependencyGraph t)) i;
  let isLive := <[i := KeepAlive b]> isLive in
  if Aborted b : bool then Ok (isLive, state)
  else
    '(isLive, state) ←
      (if decide (i ∈ requests t)
       then state' ← markAllLive state (rootKeys (dependencyGraph t));
            Ok (<[i := true]> isLive, state')
       else Ok (isLive, state));
    lv ← idx isLive i;
    '(state, lv) ← killWrites state lv (Writes b);
    lv ← checkModifies state lv (Modifies b);
    let isLive := <[i := lv]> isLive in
    if lv : bool then
      state ← markAllLive state (Modifies b);
      state ← markAllLive state (Reads b);
      Ok (isLive, state)
    else Ok (isLive, state).

(** [for i := int(t.lastRequest); i >= 0; i--], with [n] commands left. *)
Fixpoint sweepLoop (t : DeadCodeElimination) (n : nat)
    (st : list bool * livenessTree) : result (list bool * livenessTree) :=
  match n with
  | 0 => Ok st
  | S i => st' ← sweepCommand t i st; sweepLoop t i st'
  end.

(** The statistics block reads [Atoms[i]] for every [i < len(isLive)];
    the counters it feeds are not modelled. *)
Fixpoint reportStatistics (g : Graph) (n : nat) : result unit :=
  match n with
  | 0 => Ok tt
  | S i => _ ← reportStatistics g i; _ ← idx (Atoms g) i; Ok tt
  end.

Definition propagateLiveness (t : DeadCodeElimination) : result (list bool) :=
  let isLive := replicate (lastRequest t + 1) false in
  state ← newLivenessTree (GetHierarchyStateMap (dependencyGraph t));
  '(isLive, _) ← sweepLoop t (lastRequest t + 1) (isLive, state);
  _ ← reportStatistics (dependencyGraph t) (length isLive);
  Ok isLive.

(** [for i, live := range isLive] of [Flush]. *)
Fixpoint emit (g : Graph) (i : nat) (isLive : list bool) (out : Writer)
    : result unit * Writer :=
  match isLive with
  | [] => (Ok tt, out)
  | lv :: rest =>
    if lv : bool then
      match idx (Atoms g) i with
      | Ok a => emit g (S i) rest (out ++ [(i, a)])
      | Panic msg => (Panic msg, out)
      | OutOfFuel => (OutOfFuel, out)
      end
    else emit g (S i) rest out
  end.

Definition Flush (t : DeadCodeElimination) (out : Writer)
    : result unit * Writer :=
  match propagateLiveness t with
  | Ok isLive => emit (dependencyGraph t) 0 isLive out
  | Panic msg => (Panic msg, out)
  | OutOfFuel => (OutOfFuel, out)
  end.
End DeadCodeElimination.

(** ** Specification-level definitions *)

(** *** The hierarchy of state addresses

    [newLivenessTree] links a node to its parent unless the parent is the
    null address, so the null address ends every parent chain and is not
    itself an ancestor of any node.  A hierarchy is the array of these
    parent links. *)

Definition hierarchy (parents : gmap StateAddress StateAddress)
    : list (option nat) :=
  (λ a, match parents !! a with
        | Some p => if decide (p = NullStateAddress) then None else Some p
        | None => None
        end) <$> seq 0 (size parents).

Definition parents_of (ns : list livenessNode) : list (option nat) :=
  parent <$> ns.

(** [path ps a l]: [l] lists the strict ancestors of [a], nearest first. *)
Inductive path (ps : list (option nat)) : nat → list nat → Prop :=
  | path_root a : ps !! a = Some None → path ps a []
  | path_step a p l :
      ps !! a = Some (Some p) → path ps p l → path ps a (p :: l).

Fixpoint chain (fuel : nat) (ps : list (option nat)) (a : nat)
    : option (list nat) :=
  match ps !! a with
  | None => None
  | Some None => Some []
  | Some (Some p) =>
    match fuel with
    | 0 => None
    | S fuel' => cons p <$> chain fuel' ps p
    end
  end.

Definition ancestors (ps : list (option nat)) (a : nat) : list nat :=
  default [] (chain (length ps) ps a).

(** Every parent chain ends after at most [length ps] links. *)
Definition forestb (ps : list (option nat)) : bool :=
  forallb (λ a, bool_decide (is_Some (chain (length ps) ps a)))
          (seq 0 (length ps)).

(** A parent map as [newLivenessTree] expects it: the addresses are
    [0 .. size-1] and the parent links form a forest. *)
Definition wfParents (parents : gmap StateAddress StateAddress) : bool :=
  forallb (λ ap, bool_decide (ap.1 < size parents ∧ ap.2 < size parents))
          (map_to_list parents)
  && forestb (hierarchy parents).

(** [inSubtree ps x a]: [a] lies in the subtree rooted at [x]. *)
Definition inSubtree (ps : list (option nat)) (x a : nat) : bool :=
  bool_decide (x ∈ a :: ancestors ps a).

(** *** Sequences of marks *)

Inductive mark : Type :=
  | markLive (a : StateAddress)
  | markDead (a : StateAddress).

Definition target (op : mark) : StateAddress :=
  match op with markLive a => a | markDead a => a end.

Definition applyMark (t : livenessTree) (op : mark) : result livenessTree :=
  match op with
  | markLive a => MarkLive t a
  | markDead a => MarkDead t a
  end.

Fixpoint applyMarks (t : livenessTree) (ops : list mark) : result livenessTree :=
  match ops with
  | [] => Ok t
  | op :: ops' => t' ← applyMark t op; applyMarks t' ops'
  end.

(** *** The naive O(N) oracle

    One boolean per address.  A mark at [x] overwrites the whole subtree
    of [x]; an address is live iff some address of its subtree is labelled
    live. *)

Definition naiveMark (ps : list (option nat)) (b : bool) (x : nat)
    (N : list bool) : list bool :=
  imap (λ a v, if inSubtree ps x a then b else v) N.

Definition naiveStep (ps : list (option nat)) (N : list bool) (op : mark)
    : list bool :=
  match op with
  | markLive x => naiveMark ps true x N
  | markDead x => naiveMark ps false x N
  end.

Definition naiveLabel (ps : list (option nat)) (ops : list mark) : list bool :=
  foldl (naiveStep ps) (replicate (length ps) false) ops.

Definition naiveIsLive (ps : list (option nat)) (N : list bool) (a : nat) : bool :=
  existsb (λ d, inSubtree ps a d && default false (N !! d)) (seq 0 (length N)).

(** *** What the tree computes

    [MarkLive x] makes [IsLive] true on the subtree of [x] and on every
    ancestor of [x]; [MarkDead x] makes it false on the subtree of [x] and
    leaves the ancestors as they are. *)

Definition viewMarkLive (ps : list (option nat)) (x : nat) (V : list bool)
    : list bool :=
  imap (λ a v, if inSubtree ps x a || inSubtree ps a x then true else v) V.

Definition viewMarkDead (ps : list (option nat)) (x : nat) (V : list bool)
    : list bool :=
  imap (λ a v, if inSubtree ps x a then false else v) V.

Definition viewStep (ps : list (option nat)) (V : list bool) (op : mark)
    : list bool :=
  match op with
  | markLive x => viewMarkLive ps x V
  | markDead x => viewMarkDead ps x V
  end.

Definition viewLabel (ps : list (option nat)) (ops : list mark) : list bool :=
  foldl (viewStep ps) (replicate (length ps) false) ops.

(** *** The representation invariant of the tree *)

Definition tsOf (ns : list livenessNode) (a : nat) : Z :=
  default 0%Z (timestamp <$> ns !! a).
Definition liveOf (ns : list livenessNode) (a : nat) : bool :=
  default false (live <$> ns !! a).
Definition anyOf (ns : list livenessNode) (a : nat) : bool :=
  default false (anyLive <$> ns !! a).

(** The newest write on the chain from [a] upwards (the lowest node wins
    a tie) as a pair of time stamp and [live] bit. *)
Fixpoint eff (ns : list livenessNode) (a : nat) (l : list nat) : Z * bool :=
  match l with
  | [] => (tsOf ns a, liveOf ns a)
  | p :: l' =>
    let e := eff ns p l' in
    if (tsOf ns a <? e.1)%Z then e else (tsOf ns a, liveOf ns a)
  end.

(** What the loop of [IsLive] returns at [a] when [l] are its ancestors. *)
Definition viewOf (ns : list livenessNode) (a : nat) (l : list nat) : bool :=
  match l with
  | [] => anyOf ns a
  | p :: l' =>
    let e := eff ns p l' in
    if (tsOf ns a <? e.1)%Z then e.2 else anyOf ns a
  end.

Record Inv (ps : list (option nat)) (t : livenessTree) (V : list bool) : Prop := {
  inv_parents : parents_of (nodes t) = ps;
  inv_forest : forestb ps = true;
  inv_length : length V = length ps;
  inv_time : (1 ≤ time t ≤ intMax)%Z;
  inv_stamp : ∀ a n, nodes t !! a = Some n → (0 ≤ timestamp n < time t)%Z;
  inv_view : ∀ a l, path ps a l → V !! a = Some (viewOf (nodes t) a l)
}.

(** [V] is closed under going to ancestors. *)
Definition upclosed (ps : list (option nat)) (V : list bool) : Prop :=
  ∀ a l x, path ps a l → x ∈ l → V !! a = Some true → V !! x = Some true.

Definition below (V1 V2 : list bool) : Prop :=
  ∀ a, V1 !! a = Some true → V2 !! a = Some true.

(** *** Auxiliary notions *)

(** The pointer [po] leads to the chain [l]. *)
Definition points_to (ps : list (option nat)) (po : option nat) (l : list nat)
    : Prop :=
  match po, l with
  | None, [] => True
  | Some p, p' :: l' => p = p' ∧ path ps p l'
  | _, _ => False
  end.

(** The nodes of a fresh tree over the hierarchy [ps]. *)
Definition freshNodes (ps : list (option nat)) : list livenessNode :=
  mkNode false false 0 <$> ps.

Definition linkOf (m : gmap nat nat) (a : nat) : option nat :=
  match m !! a with
  | Some p => if decide (p = NullStateAddress) then None else Some p
  | None => None
  end.

(** The chain 2 -> 1 next to the null address. *)
Definition tree3 : gmap nat nat := {[ 0 := 0; 1 := 0; 2 := 1 ]}.

(** *** Well-formed input of the sweep, and the sweep on view labellings *)

Definition inRange (n : nat) (b : AtomBehaviour) : bool :=
  forallb (λ x, bool_decide (x < n)) (Reads b ++ Modifies b ++ Writes b).

(** The number of marks that command [b] can cause. *)
Definition commandCost (nroots : nat) (b : AtomBehaviour) : nat :=
  nroots + length (Writes b) + length (Modifies b) + length (Reads b).

Definition viewMarkAll (ps : list (option nat)) (V : list bool)
    (xs : list nat) : list bool :=
  foldl (λ V x, viewMarkLive ps x V) V xs.

Fixpoint viewKillWrites (ps : list (option nat)) (V : list bool) (lv : bool)
    (ws : list nat) : list bool * bool :=
  match ws with
  | [] => (V, lv)
  | w :: ws' =>
    if default false (V !! w)
    then viewKillWrites ps (viewMarkDead ps w V) true ws'
    else viewKillWrites ps V lv ws'
  end.

Definition viewCheckModifies (V : list bool) (lv : bool) (ms : list nat) : bool :=
  lv || existsb (λ m, default false (V !! m)) ms.

(** The effect of one command on the view labelling, and its liveness. *)
Definition viewCommand (ps : list (option nat)) (roots : list nat)
    (b : AtomBehaviour) (requested : bool) (V : list bool) : bool * list bool :=
  if Aborted b then (KeepAlive b, V)
  else
    let V1 := if requested then viewMarkAll ps V roots else V in
    let '(V2, lv) := viewKillWrites ps V1 (KeepAlive b || requested) (Writes b) in
    if viewCheckModifies V2 lv (Modifies b)
    then (true, viewMarkAll ps (viewMarkAll ps V2 (Modifies b)) (Reads b))
    else (false, V2).

Section SweepSpec.
Context {Atom : Type} {Key : Type} `{Countable Key}.

Abbreviation Graph := (@DependencyGraph Atom Key _ _).

(** The transform after [Request] has been called for each of [ids]. *)
Definition requestAll (g : Graph) (ids : list nat) : @DeadCodeElimination Atom Key _ _ :=
  foldl Request (NewDeadCodeElimination g) ids.

(** What [propagateLiveness] needs in order not to panic when it sweeps
    the commands [0 .. last]: a well-formed parent map, a behaviour and
    an atom for each of these commands, and only addresses of the parent
    map in footprints and roots. *)
Definition wfSweep (g : Graph) (last : nat) : bool :=
  let n := size (GetHierarchyStateMap g) in
  wfParents (GetHierarchyStateMap g)
  && bool_decide (last < length (Behaviours g))
  && bool_decide (last < length (Atoms g))
  && forallb (inRange n) (take (S last) (Behaviours g))
  && forallb (λ r, bool_decide (r < n)) (rootKeys g).

(** An upper bound on the number of marks of a sweep over the commands
    [0 .. n-1]. *)
Definition sweepCost (g : Graph) (n : nat) : nat :=
  sum_list (commandCost (length (rootKeys g)) <$> take n (Behaviours g)).

(** The loop of the sweep on view labellings. *)
Fixpoint viewSweep (g : Graph) (rs : gset nat) (n : nat)
    (st : list bool * list bool) : list bool * list bool :=
  match n with
  | 0 => st
  | S i =>
    let '(isLive, V) := st in
    let ps := hierarchy (GetHierarchyStateMap g) in
    let b := default emptyBehaviour (Behaviours g !! i) in
    let '(lv, V') := viewCommand ps (rootKeys g) b (bool_decide (i ∈ rs)) V in
    viewSweep g rs i (<[i := lv]> isLive, V')
  end.
End SweepSpec.

(** *** Concrete graphs

    Atoms are numbered by their position, state keys are numbers, and the
    address map holds only the parent links. *)

Definition graphOf (parents : gmap nat nat) (bs : list AtomBehaviour)
    (roots : list nat) : @DependencyGraph nat nat _ _ :=
  mkGraph (seq 0 (length bs)) bs (list_to_map ((λ r, (r, true)) <$> roots))
          (mkAddressMapping ∅ ∅ parents).

(** [n] addresses without parents. *)
Definition flatParents (n : nat) : gmap nat nat :=
  list_to_map ((λ a, (a, NullStateAddress)) <$> seq 0 n).

Definition behaviour (reads modifies writes : list nat) (keepAlive aborted : bool)
    : AtomBehaviour :=
  mkBehaviour reads modifies writes [] keepAlive aborted.

(** The chain of scenario S2: command 0 writes 1, command 1 reads 1 and
    writes 2, command 2 reads 2 and writes the root 3. *)
Definition chainGraph : @DependencyGraph nat nat _ _ :=
  graphOf (flatParents 4)
    [behaviour [] [] [1] false false; behaviour [1] [] [2] false false;
     behaviour [2] [] [3] false false] [3].

(** A single command whose mutation aborted. *)
Definition abortedGraph : @DependencyGraph nat nat _ _ :=
  graphOf (flatParents 1) [behaviour [] [] [] false true] [].

(** A command that is both kept alive and aborted, followed by a plain one. *)
Definition keptAbortedGraph : @DependencyGraph nat nat _ _ :=
  graphOf (flatParents 1)
    [behaviour [] [] [] true true; behaviour [] [] [] false false] [].

(** Two commands that are kept alive. *)
Definition keptGraph : @DependencyGraph nat nat _ _ :=
  graphOf (flatParents 2)
    [behaviour [] [] [1] true false; behaviour [1] [] [] true false] [].

(** *** Interning a sequence of keys *)

Section Interning.
Context {Key : Type} `{Countable Key}.
Variable Parent : Key → option Key.

Abbreviation Mapping := (@addressMapping Key _ _).

Fixpoint internAll (fuel : nat) (m : Mapping) (ks : list (option Key))
    : result Mapping :=
  match ks with
  | [] => Ok m
  | k :: ks' => '(_, m') ← addressOf Parent fuel m k; internAll fuel m' ks'
  end.


(** The parent chain of [k] reaches the nil key within [fuel] steps. *)
Fixpoint reachesNil (fuel : nat) (k : option Key) : bool :=
  match k with
  | None => true
  | Some key =>
    match fuel with
    | 0 => false
    | S fuel' => reachesNil fuel' (Parent key)
    end
  end.

(** What the address map maintains while keys are interned. *)
Record AddrInv (m : Mapping) : Prop := {
  addr_dense : ∀ k a, address m !! k = Some a → a < size (address m);
  addr_inj : ∀ k1 k2 a, address m !! k1 = Some a → address m !! k2 = Some a → k1 = k2;
  addr_nil : address m !! None = Some NullStateAddress;
  addr_root : parentOf m !! NullStateAddress = Some NullStateAddress
}.
End Interning.

(** Keys are numbers; the parent of [n + 1] is [n] and key 0 has the nil
    parent. *)
Definition predKey (k : nat) : option nat :=
  match k with
  | 0 => None
  | S k' => Some k'
  end.

(** *** A capture whose second atom fails to mutate

    No API offers a behaviour provider; atom 1 returns an error from
    [Mutate]. *)
Definition noProvider (api : nat) : option (@BehaviourProvider nat nat _ _ nat) := None.

Definition failingMutate (a : nat) (s : nat) : nat * option error :=
  (s, if decide (a = 1) then Some (OtherError "mutate failed") else None).

Definition failingCapture : @capture nat nat + error :=
  inl (mkCapture [0; 1; 2] 0).

(** *** The address map as a whole *)

Section AddressMapInvariant.
Context {Key : Type} `{Countable Key}.
Variable Parent : Key → option Key.

(** The state of the three maps between two calls of [addressOf] when
    [pending] is empty; inside a call the keys in [pending] are those that
    have their address but not yet their parent entry. *)
Record AddrWf (pending : list Key) (m : @addressMapping Key _ _) : Prop := {
  wf_dense : ∀ k a, address m !! k = Some a → a < size (address m);
  wf_onto : ∀ a, a < size (address m) → is_Some (key m !! a);
  wf_key : ∀ k a, key m !! a = Some k ↔ address m !! k = Some a;
  wf_nil : address m !! None = Some NullStateAddress;
  wf_root : parentOf m !! NullStateAddress = Some NullStateAddress;
  wf_pending : ∀ sk, sk ∈ pending → is_Some (address m !! Some sk);
  wf_parent : ∀ sk a, address m !! Some sk = Some a → sk ∉ pending →
    ∃ p, address m !! Parent sk = Some p ∧ parentOf m !! a = Some p;
  wf_parent_dom : ∀ a, is_Some (parentOf m !! a) →
    ∃ k, key m !! a = Some k ∧ ∀ sk, k = Some sk → sk ∉ pending
}.

(** Every interned key has a parent chain that ends at the nil key. *)
Definition AllReach (m : @addressMapping Key _ _) : Prop :=
  ∀ k, is_Some (address m !! k) → ∃ d, reachesNil Parent d k = true.
End AddressMapInvariant.

(** The parent links of a node list stay inside it.  The code holds real
    pointers into the node array, which cannot dangle. *)
Definition validLinks (ps : list (option nat)) : Prop :=
  ∀ a p, ps !! a = Some (Some p) → p < length ps.

(** What [newLivenessTree] needs of a parent map of [n] entries: every
    entry with a parent other than the null address has its address and its
    parent below [n]. *)
Definition linkable (n : nat) (m : gmap nat nat) : Prop :=
  ∀ a p, m !! a = Some p → p ≠ NullStateAddress → a < n ∧ p < n.

(** A store that nothing observes: command 0 writes address 1, command 1
    writes the root 2. *)
Definition deadStoreGraph : @DependencyGraph nat nat _ _ :=
  graphOf (flatParents 3)
    [behaviour [] [] [1] false false; behaviour [] [] [2] false false] [2].

Section LaterCommands.
Context {Atom : Type} {Key : Type} `{Countable Key}.

(** The transform [t] over a capture that goes on after the commands of
    [t] with the atoms [atoms'] and the behaviours [bs']. *)
Definition withLaterCommands (t : @DeadCodeElimination Atom Key _ _)
    (atoms' : list Atom) (bs' : list AtomBehaviour)
    : @DeadCodeElimination Atom Key _ _ :=
  let g := dependencyGraph t in
  mkDCE (mkGraph (Atoms g ++ atoms') (Behaviours g ++ bs') (GraphRoots g)
                 (addressMap g))
        (requests t) (lastRequest t).
End LaterCommands.

Section Mutations.
Context {Atom State : Type}.
Variable Mutate : Atom → State → State * option error.

(** [Mutate] applied to the atoms in turn, each in the state the one
    before left: whether all of them return a nil error. *)
Fixpoint mutateAll (atoms : list Atom) (s : State) : bool :=
  match atoms with
  | [] => true
  | a :: atoms' =>
    match Mutate a s with
    | (s', None) => mutateAll atoms' s'
    | (_, Some _) => false
    end
  end.
End Mutations.

(** A graph without commands in which the key 0 has been interned. *)
Definition internedGraph : @DependencyGraph nat nat _ _ :=
  mkGraph [] [] ∅
    (mkAddressMapping {[None := 0; Some 0 := 1]} {[0 := None; 1 := Some 0]}
                      {[0 := 0; 1 := 0]}).

(** Command 0 writes the root 2; command 1 writes address 1 and is the one
    requested. *)
Definition rootGraph : @DependencyGraph nat nat _ _ :=
  graphOf (flatParents 3)
    [behaviour [] [] [2] false false; behaviour [] [] [1] false false] [2].

Section Providers.
Context {Atom : Type} {Key : Type} `{Countable Key} {State : Type}.

(** A behaviour provider that leaves the commands of the graph alone: it
    may intern keys and set roots, but the atoms and the number of
    behaviours are as before. *)
Definition keepsCommands (bp : @BehaviourProvider Atom Key _ _ State) : Prop :=
  ∀ s i g a,
    Atoms (GetBehaviourForAtom bp s i g a).2 = Atoms g
    ∧ length (Behaviours (GetBehaviourForAtom bp s i g a).2)
      = length (Behaviours g).
End Providers.

(** A provider over numbers: the atom [a] writes the state key [a], whose
    parent is [a - 1]. *)
Definition writeProvider : @BehaviourProvider nat nat _ _ nat :=
  mkProvider (λ s i g a,
    match Write predKey 8 emptyBehaviour g (Some a) with
    | Ok (b, g') => (b, S s, g')
    | _ => (emptyBehaviour, s, g)
    end).

Section RootOrder.
Context {Atom : Type} {Key : Type} `{Countable Key}.

(** [for root := range t.dependencyGraph.Roots] ranges over a Go map,
    which yields its keys in an order that the language leaves open and
    that may change from one loop to the next.  [sweepCommand] fixes one
    order, [rootKeys]; here the order is a parameter: the loop of command
    [i] yields the roots as [order i].  The rest is [sweepCommand],
    [sweepLoop] and [propagateLiveness] word for word. *)
Definition sweepCommandIn (order : nat → list StateAddress)
    (t : @DeadCodeElimination Atom Key _ _) (i : nat)
    (st : list bool * livenessTree) : result (list bool * livenessTree) :=
  let '(isLive, state) := st in
  b ← idx (Behaviours (dependencyGraph t)) i;
  let isLive := <[i := KeepAlive b]> isLive in
  if Aborted b : bool then Ok (isLive, state)
  else
    '(isLive, state) ←
      (if decide (i ∈ requests t)
       then state' ← markAllLive state (order i);
            Ok (<[i := true]> isLive, state')
       else Ok (isLive, state));
    lv ← idx isLive i;
    '(state, lv) ← killWrites state lv (Writes b);
    lv ← checkModifies state lv (Modifies b);
    let isLive := <[i := lv]> isLive in
    if lv : bool then
      state ← markAllLive state (Modifies b);
      state ← markAllLive state (Reads b);
      Ok (isLive, state)
    else Ok (isLive, state).

Fixpoint sweepLoopIn (order : nat → list StateAddress)
    (t : @DeadCodeElimination Atom Key _ _) (n : nat)
    (st : list bool * livenessTree) : result (list bool * livenessTree) :=
  match n with
  | 0 => Ok st
  | S i => st' ← sweepCommandIn order t i st; sweepLoopIn order t i st'
  end.

Definition propagateLivenessIn (order : nat → list StateAddress)
    (t : @DeadCodeElimination Atom Key _ _) : result (list bool) :=
  let isLive := replicate (lastRequest t + 1) false in
  state ← newLivenessTree (GetHierarchyStateMap (dependencyGraph t));
  '(isLive, _) ← sweepLoopIn order t (lastRequest t + 1) (isLive, state);
  _ ← reportStatistics (dependencyGraph t) (length isLive);
  Ok isLive.
End RootOrder.

(** Two roots: command 0 writes the root 1, command 1 the root 2, and
    command 2 is the one requested. *)
Definition twoRootGraph : @DependencyGraph nat nat _ _ :=
  graphOf (flatParents 3)
    [behaviour [] [] [1] false false; behaviour [] [] [2] false false;
     behaviour [] [] [] false false] [1; 2].

(** The roots of [twoRootGraph] in two orders, taken in turn. *)
Definition alternating (i : nat) : list StateAddress :=
  if Nat.even i then [2; 1] else [1; 2].

Section DropCommand.
Context {Atom : Type} {Key : Type} `{Countable Key}.

(** The graph [g] with the behaviour of command [j] replaced by that of a
    command that aborted, [AtomBehaviour{Aborted: true}]: the sweep
    ignores such a command. *)
Definition dropCommand (g : @DependencyGraph Atom Key _ _) (j : nat)
    : @DependencyGraph Atom Key _ _ :=
  mkGraph (Atoms g) (<[j := mkBehaviour [] [] [] [] false true]> (Behaviours g))
          (GraphRoots g) (addressMap g).
End DropCommand.

(** Only the API 2 offers a provider. *)
Definition mixedProvider (api : nat) : option (@BehaviourProvider nat nat _ _ nat) :=
  if decide (api = 2) then Some writeProvider else None.

(** * Proofs *)

(** ** Results and slices *)

Lemma bind_Ok {A B} (m : result A) (f : A → result B) (b : B) :
  m ≫= f = Ok b → ∃ a, m = Ok a ∧ f a = Ok b.
Proof. destruct m; simpl; intros; eauto; discriminate. Qed.

Lemma idx_Ok {A} (l : list A) (i : nat) (x : A) :
  l !! i = Some x → idx l i = Ok x.
Proof. unfold idx. by intros ->. Qed.

Lemma idx_Ok_inv {A} (l : list A) (i : nat) (x : A) :
  idx l i = Ok x → l !! i = Some x.
Proof. unfold idx. destruct (l !! i); congruence. Qed.

Lemma idx_ge {A} (l : list A) (i : nat) :
  length l ≤ i → idx l i = Panic "index out of range".
Proof. intros Hi. unfold idx. by rewrite (lookup_ge_None_2 l i Hi). Qed.

Lemma wrapInt_id (z : Z) : (- 2 ^ 63 ≤ z < 2 ^ 63)%Z → wrapInt z = z.
Proof.
  intros Hz. unfold wrapInt.
  rewrite Z.mod_small; lia.
Qed.

Lemma wrapInt_succ (z : Z) : (1 ≤ z < intMax)%Z → wrapInt (z + 1) = (z + 1)%Z.
Proof. unfold intMax. intros Hz. apply wrapInt_id. lia. Qed.

(** ** Paths in a hierarchy *)

Lemma path_lt ps a l : path ps a l → a < length ps.
Proof. destruct 1 as [a Ha | a p l Ha _]; by eapply lookup_lt_Some. Qed.

Lemma path_functional ps a l1 l2 : path ps a l1 → path ps a l2 → l1 = l2.
Proof.
  intros H1. revert l2.
  induction H1 as [a Ha | a p l Ha Hp IH]; intros l2 H2;
    inversion H2; subst; try congruence.
  assert (p0 = p) as -> by congruence.
  f_equal. by apply IH.
Qed.

Lemma path_suffix ps a l l1 x l2 :
  path ps a l → l = l1 ++ x :: l2 → path ps x l2.
Proof.
  intros Hp. revert l1.
  induction Hp as [a Ha | a p l Ha Hp IH]; intros l1 Heq.
  - by destruct l1.
  - destruct l1 as [|y l1]; simplify_eq/=; eauto.
Qed.

Lemma path_elem ps a l x :
  path ps a l → x ∈ l → ∃ l1 l2, l = l1 ++ x :: l2 ∧ path ps x l2.
Proof.
  intros Hp Hx. apply list_elem_of_split in Hx as (l1 & l2 & ->).
  exists l1, l2. split; [done|]. by eapply path_suffix.
Qed.

Lemma path_acyclic ps a l : path ps a l → a ∉ l.
Proof.
  intros Hp Ha. destruct (path_elem _ _ _ _ Hp Ha) as (l1 & l2 & -> & Hp2).
  pose proof (path_functional _ _ _ _ Hp Hp2) as Heq.
  apply (f_equal length) in Heq. rewrite length_app in Heq. simpl in Heq. lia.
Qed.

Lemma chain_path ps f a l : chain f ps a = Some l → path ps a l ∧ length l ≤ f.
Proof.
  revert a l. induction f as [|f IH]; intros a l; simpl.
  - destruct (ps !! a) as [[p|]|] eqn:Ha; try discriminate.
    intros [= <-]. split; [by constructor | simpl; lia].
  - destruct (ps !! a) as [[p|]|] eqn:Ha; try discriminate.
    + destruct (chain f ps p) as [l'|] eqn:Hc; simpl; try discriminate.
      intros [= <-]. destruct (IH _ _ Hc). split; [by econstructor | simpl; lia].
    + intros [= <-]. split; [by constructor | simpl; lia].
Qed.

Lemma path_chain ps a l f : path ps a l → length l ≤ f → chain f ps a = Some l.
Proof.
  intros Hp. revert f.
  induction Hp as [a Ha | a p l Ha Hp IH]; intros f Hf.
  - destruct f; simpl; by rewrite Ha.
  - destruct f; simpl in *; [lia|]. rewrite Ha, IH; [done | lia].
Qed.

Lemma forestb_path ps a :
  forestb ps = true → a < length ps →
  ∃ l, path ps a l ∧ length l ≤ length ps ∧ ancestors ps a = l.
Proof.
  unfold forestb. rewrite forallb_forall. intros Hall Ha.
  assert (In a (seq 0 (length ps))) as Hin by (apply in_seq; lia).
  apply Hall, bool_decide_eq_true_1 in Hin. destruct Hin as [l Hl].
  exists l. destruct (chain_path _ _ _ _ Hl). unfold ancestors. by rewrite Hl.
Qed.

Lemma ancestors_path ps a l :
  forestb ps = true → path ps a l → ancestors ps a = l.
Proof.
  intros Hf Hp. destruct (forestb_path ps a Hf (path_lt _ _ _ Hp)) as (l' & Hp' & _ & ->).
  by eapply path_functional.
Qed.

Lemma path_length ps a l : forestb ps = true → path ps a l → length l ≤ length ps.
Proof.
  intros Hf Hp. destruct (forestb_path ps a Hf (path_lt _ _ _ Hp)) as (l' & Hp' & Hl & _).
  by rewrite (path_functional _ _ _ _ Hp Hp').
Qed.

Lemma inSubtree_path ps x a l :
  forestb ps = true → path ps a l → inSubtree ps x a = bool_decide (x ∈ a :: l).
Proof. intros Hf Hp. unfold inSubtree. by rewrite (ancestors_path _ _ _ Hf Hp). Qed.

Lemma inSubtree_range ps x a :
  forestb ps = true → inSubtree ps x a = true → a < length ps → x < length ps.
Proof.
  intros Hf Hs Ha. destruct (forestb_path ps a Hf Ha) as (l & Hp & _ & _).
  rewrite (inSubtree_path _ _ _ _ Hf Hp) in Hs. apply bool_decide_eq_true_1 in Hs.
  apply elem_of_cons in Hs as [->|Hx]; [done|].
  destruct (path_elem _ _ _ _ Hp Hx) as (? & ? & _ & Hp'). by eapply path_lt.
Qed.

(** The ancestors of an ancestor are ancestors. *)
Lemma path_trans ps a l x lx y :
  path ps a l → x ∈ l → path ps x lx → y ∈ lx → y ∈ l.
Proof.
  intros Hp Hx Hpx Hy.
  destruct (path_elem _ _ _ _ Hp Hx) as (l1 & l2 & -> & Hp2).
  rewrite (path_functional _ _ _ _ Hpx Hp2) in Hy.
  rewrite elem_of_app, elem_of_cons. auto.
Qed.

Lemma path_suffix_self ps a l l1 x l2 :
  path ps a l → a :: l = l1 ++ x :: l2 → path ps x l2.
Proof.
  intros Hp Heq. destruct l1 as [|y l1]; simplify_eq/=; [done|].
  by eapply path_suffix.
Qed.

Lemma path_elem_self ps a l x :
  path ps a l → x ∈ a :: l → ∃ l1 l2, a :: l = l1 ++ x :: l2 ∧ path ps x l2.
Proof.
  intros Hp Hx. apply list_elem_of_split in Hx as (l1 & l2 & Heq).
  exists l1, l2. split; [done|]. by eapply path_suffix_self.
Qed.

(** Two nodes on one chain are comparable. *)
Lemma path_comparable ps a l x lx y ly :
  path ps a l → x ∈ a :: l → y ∈ a :: l → path ps x lx → path ps y ly →
  y ∈ x :: lx ∨ x ∈ ly.
Proof.
  intros Hp Hx Hy Hpx Hpy.
  destruct (path_elem_self _ _ _ _ Hp Hx) as (l1 & l2 & Heq & Hp2).
  rewrite (path_functional _ _ _ _ Hp2 Hpx) in Heq. clear Hp2 l2.
  rewrite Heq in Hy. apply elem_of_app in Hy as [Hy|Hy]; [|by left].
  right. apply list_elem_of_split in Hy as (m1 & m2 & ->).
  rewrite <-app_assoc in Heq. simpl in Heq.
  pose proof (path_suffix_self _ _ _ _ _ _ Hp Heq) as Hp3.
  rewrite (path_functional _ _ _ _ Hpy Hp3).
  rewrite elem_of_app, elem_of_cons. auto.
Qed.

(** ** The newest write on a chain *)

Lemma eff_ext ns ns' a l :
  (∀ x, x ∈ a :: l → tsOf ns' x = tsOf ns x ∧ liveOf ns' x = liveOf ns x) →
  eff ns' a l = eff ns a l.
Proof.
  revert a. induction l as [|p l IH]; intros a Hext; simpl.
  - destruct (Hext a) as [-> ->]; [by left | done].
  - rewrite IH by (intros x Hx; apply Hext; by right).
    destruct (Hext a) as [-> ->]; [by left | done].
Qed.

Lemma viewOf_ext ns ns' a l :
  (∀ x, x ∈ a :: l → tsOf ns' x = tsOf ns x ∧ liveOf ns' x = liveOf ns x) →
  anyOf ns' a = anyOf ns a →
  viewOf ns' a l = viewOf ns a l.
Proof.
  intros Hext Hany. destruct l as [|p l]; simpl; [done|].
  rewrite (eff_ext ns ns' p l) by (intros x Hx; apply Hext; by right).
  destruct (Hext a) as [-> _]; [by left|]. by rewrite Hany.
Qed.

Lemma eff_ge ns a l : (tsOf ns a ≤ (eff ns a l).1)%Z.
Proof.
  destruct l as [|p l]; simpl; [lia|].
  destruct (Z.ltb_spec (tsOf ns a) (eff ns p l).1); simpl; lia.
Qed.

Lemma eff_le ns a l (hi : Z) :
  (∀ x, x ∈ a :: l → (tsOf ns x ≤ hi)%Z) → ((eff ns a l).1 ≤ hi)%Z.
Proof.
  revert a. induction l as [|p l IH]; intros a Hb; simpl.
  - apply Hb. by left.
  - destruct (Z.ltb_spec (tsOf ns a) (eff ns p l).1); simpl.
    + apply IH. intros x Hx. apply Hb. by right.
    + apply Hb. by left.
Qed.

Lemma eff_lo ns a l (lo : Z) :
  (∀ x, x ∈ a :: l → (lo ≤ tsOf ns x)%Z) → (lo ≤ (eff ns a l).1)%Z.
Proof.
  intros Hb. etransitivity; [|apply eff_ge]. apply Hb. by left.
Qed.

(** A node that is strictly newer than all the others on its chain is the
    newest write. *)
Lemma eff_top ns a l x :
  x ∈ a :: l →
  (∀ y, y ∈ a :: l → y ≠ x → (tsOf ns y < tsOf ns x)%Z) →
  eff ns a l = (tsOf ns x, liveOf ns x).
Proof.
  revert a. induction l as [|p l IH]; intros a Hx Hnew; simpl.
  - apply list_elem_of_singleton in Hx as ->. done.
  - destruct (decide (x = a)) as [->|Hne].
    + assert ((eff ns p l).1 ≤ tsOf ns a)%Z as Hle.
      { apply eff_le. intros y Hy.
        destruct (decide (y = a)) as [->|Hya]; [lia|].
        assert (y ∈ a :: p :: l) as Hy' by (by right).
        specialize (Hnew y Hy' Hya). lia. }
      destruct (Z.ltb_spec (tsOf ns a) (eff ns p l).1); [lia | done].
    + apply elem_of_cons in Hx as [->|Hx]; [done|].
      rewrite IH; [| done | intros y Hy; apply Hnew; by right].
      simpl. assert (tsOf ns a < tsOf ns x)%Z as Hlt by (apply Hnew; [by left | done]).
      destruct (Z.ltb_spec (tsOf ns a) (tsOf ns x)); [done | lia].
Qed.

(** Writing the newest write of its chain into a node changes no newest
    write. *)
Lemma eff_materialize ps ns ns' :
  (∀ x lx, path ps x lx →
     (tsOf ns' x = tsOf ns x ∧ liveOf ns' x = liveOf ns x)
     ∨ (tsOf ns' x, liveOf ns' x) = eff ns x lx) →
  ∀ a l, path ps a l → eff ns' a l = eff ns a l.
Proof.
  intros Hm a l Hp.
  induction Hp as [a Ha | a p l Ha Hp IH]; simpl.
  - destruct (Hm a [] (path_root _ _ Ha)) as [[-> ->]|Heq]; [done|]. by rewrite Heq.
  - rewrite IH.
    destruct (Hm a (p :: l) (path_step _ _ _ _ Ha Hp)) as [[-> ->]|Heq]; [done|].
    simpl in Heq.
    destruct (tsOf ns a <? (eff ns p l).1)%Z eqn:E.
    + rewrite Heq. destruct (eff ns p l) as [m b]. simpl.
      by destruct (tsOf ns' a <? m)%Z.
    + injection Heq as -> ->. by rewrite E.
Qed.

(** ** The loop of [IsLive] *)

Lemma path_points_to ps a l n ns :
  parents_of ns = ps → path ps a l → ns !! a = Some n → points_to ps (parent n) l.
Proof.
  intros <- Hp Hn. unfold parents_of in Hp.
  inversion Hp as [a' Ha | a' p l' Ha Hp']; subst;
    rewrite list_lookup_fmap, Hn in Ha; simpl in Ha; injection Ha as ->; done.
Qed.

Lemma lookup_parents ns a :
  a < length (parents_of ns) → ∃ n, ns !! a = Some n ∧ idx ns a = Ok n.
Proof.
  unfold parents_of. rewrite length_fmap. intros Ha.
  destruct (lookup_lt_is_Some_2 ns a Ha) as [n Hn]. eauto using idx_Ok.
Qed.

Lemma IsLive_loop_spec ns ps l :
  parents_of ns = ps →
  ∀ po node lv fuel,
    points_to ps po l → length l ≤ fuel → node < length ns →
    IsLive_loop fuel ns po node lv =
      Ok (match l with
          | [] => lv
          | p :: l' =>
            let e := eff ns p l' in if (tsOf ns node <? e.1)%Z then e.2 else lv
          end).
Proof.
  intros Hps. induction l as [|p l IH]; intros po node lv fuel Hpt Hfuel Hnode.
  - destruct po; [done|]. by destruct fuel.
  - destruct po as [p'|]; [|done]. destruct Hpt as [-> Hp].
    destruct fuel as [|fuel]; simpl in Hfuel; [lia|]. simpl IsLive_loop.
    destruct (lookup_parents ns p) as (pn & Hpn & ->); [rewrite Hps; by eapply path_lt|].
    destruct (lookup_lt_is_Some_2 ns node Hnode) as [n Hn].
    rewrite (idx_Ok _ _ _ Hn). simpl.
    pose proof (path_points_to _ _ _ _ _ Hps Hp Hpn) as Hnext.
    assert (tsOf ns node = timestamp n) as Hts by (unfold tsOf; by rewrite Hn).
    assert (tsOf ns p = timestamp pn) as Htp by (unfold tsOf; by rewrite Hpn).
    assert (liveOf ns p = live pn) as Hlp by (unfold liveOf; by rewrite Hpn).
    rewrite Hts.
    destruct (Z.ltb_spec (timestamp n) (timestamp pn)) as [Hlt|Hge].
    + rewrite (IH _ p (live pn) fuel Hnext); [|lia| by eapply lookup_lt_Some].
      f_equal. destruct l as [|p2 l2]; simpl.
      * rewrite Htp, Hlp. simpl. by destruct (Z.ltb_spec (timestamp n) (timestamp pn)); [|lia].
      * rewrite Htp, Hlp.
        destruct (Z.ltb_spec (timestamp pn) (eff ns p2 l2).1); simpl.
        -- by destruct (Z.ltb_spec (timestamp n) (eff ns p2 l2).1); [|lia].
        -- by destruct (Z.ltb_spec (timestamp n) (timestamp pn)); [|lia].
    + rewrite (IH _ node lv fuel Hnext); [|lia|done].
      f_equal. destruct l as [|p2 l2]; simpl.
      * rewrite Htp. simpl. by destruct (Z.ltb_spec (timestamp n) (timestamp pn)); [lia|].
      * rewrite Htp, Hts.
        destruct (Z.ltb_spec (timestamp pn) (eff ns p2 l2).1); simpl; [done|].
        destruct (Z.ltb_spec (timestamp n) (timestamp pn)); [lia|].
        by destruct (Z.ltb_spec (timestamp n) (eff ns p2 l2).1); [lia|].
Qed.

Lemma IsLive_spec ps t a l :
  parents_of (nodes t) = ps → forestb ps = true → path ps a l →
  IsLive t a = Ok (viewOf (nodes t) a l).
Proof.
  intros Hps Hf Hp. unfold IsLive.
  destruct (lookup_parents (nodes t) a) as (n & Hn & ->); [rewrite Hps; by eapply path_lt|].
  simpl.
  rewrite (IsLive_loop_spec (nodes t) ps l Hps).
  - f_equal. unfold viewOf. destruct l; unfold anyOf; by rewrite Hn.
  - by eapply path_points_to.
  - rewrite <-(length_fmap parent). fold (parents_of (nodes t)). rewrite Hps.
    by eapply path_length.
  - by eapply lookup_lt_Some.
Qed.

(** ** Updating one node *)

Lemma parents_of_insert ns a n n0 :
  ns !! a = Some n0 → parent n = parent n0 →
  parents_of (<[a := n]> ns) = parents_of ns.
Proof.
  intros Hn Hpar. unfold parents_of. rewrite list_fmap_insert, Hpar.
  apply list_insert_id. by rewrite list_lookup_fmap, Hn.
Qed.

Lemma length_parents_of ns : length (parents_of ns) = length ns.
Proof. apply length_fmap. Qed.

Lemma parents_of_lookup ns a n : ns !! a = Some n → parents_of ns !! a = Some (parent n).
Proof. intros Hn. unfold parents_of. by rewrite list_lookup_fmap, Hn. Qed.

Lemma tsOf_lookup ns a n : ns !! a = Some n → tsOf ns a = timestamp n.
Proof. intros Hn. unfold tsOf. by rewrite Hn. Qed.
Lemma liveOf_lookup ns a n : ns !! a = Some n → liveOf ns a = live n.
Proof. intros Hn. unfold liveOf. by rewrite Hn. Qed.
Lemma anyOf_lookup ns a n : ns !! a = Some n → anyOf ns a = anyLive n.
Proof. intros Hn. unfold anyOf. by rewrite Hn. Qed.

Lemma fields_same ns ns' a :
  ns' !! a = ns !! a →
  tsOf ns' a = tsOf ns a ∧ liveOf ns' a = liveOf ns a ∧ anyOf ns' a = anyOf ns a.
Proof. intros Heq. unfold tsOf, liveOf, anyOf. by rewrite Heq. Qed.

Lemma fields_insert ns a n :
  a < length ns →
  tsOf (<[a := n]> ns) a = timestamp n ∧ liveOf (<[a := n]> ns) a = live n
  ∧ anyOf (<[a := n]> ns) a = anyLive n.
Proof.
  intros Ha. unfold tsOf, liveOf, anyOf. by rewrite list_lookup_insert_eq.
Qed.

(** ** [setAnyLive] *)

Lemma setAnyLive_spec ps c l :
  path ps c l →
  ∀ ns fuel, parents_of ns = ps → length l < fuel →
  ∃ ns', setAnyLive fuel ns c = Ok ns' ∧
    parents_of ns' = ps ∧
    (∀ a, a ∉ c :: l → ns' !! a = ns !! a) ∧
    (∀ a la, a ∈ c :: l → path ps a la →
       tsOf ns' a = (eff ns a la).1 ∧ liveOf ns' a = (eff ns a la).2
       ∧ anyOf ns' a = true).
Proof.
  induction 1 as [c Hc | c p l Hc Hp IH]; intros ns fuel Hps Hfuel.
  - destruct fuel as [|fuel]; [lia|]. simpl.
    destruct (lookup_parents ns c) as (n & Hn & ->);
      [rewrite Hps; by eapply lookup_lt_Some|].
    simpl. rewrite <-Hps, (parents_of_lookup _ _ _ Hn) in Hc.
    injection Hc as Hpar. rewrite Hpar. simpl.
    rewrite (idx_Ok _ _ _ Hn). simpl. eexists. split; [done|].
    pose proof (lookup_lt_Some _ _ _ Hn) as Hlt.
    split; [|split].
    + rewrite <-Hps. by eapply parents_of_insert.
    + intros a Ha. apply list_lookup_insert_ne. set_solver.
    + intros a la Ha Hpa. apply list_elem_of_singleton in Ha as ->.
      assert (la = []) as ->.
      { eapply path_functional; [done|]. constructor.
        rewrite <-Hps, (parents_of_lookup _ _ _ Hn). by rewrite Hpar. }
      simpl.
      edestruct (fields_insert ns c) as (-> & -> & ->); [done|].
      by rewrite (tsOf_lookup _ _ _ Hn), (liveOf_lookup _ _ _ Hn).
  - destruct fuel as [|fuel]; [lia|]. simpl in Hfuel. simpl.
    destruct (lookup_parents ns c) as (n & Hn & ->);
      [rewrite Hps; by eapply lookup_lt_Some|].
    simpl. pose proof Hc as Hc0.
    rewrite <-Hps, (parents_of_lookup _ _ _ Hn) in Hc.
    injection Hc as Hpar. rewrite Hpar.
    destruct (IH ns fuel Hps) as (ns1 & -> & Hps1 & Hout & Hin); [lia|]. simpl.
    assert (c ∉ p :: l) as Hcl by (eapply path_acyclic; by econstructor).
    assert (ns1 !! c = Some n) as Hn1 by (by rewrite Hout).
    rewrite (idx_Ok _ _ _ Hn1). simpl.
    destruct (lookup_parents ns1 p) as (pn & Hpn & ->);
      [rewrite Hps1; by eapply path_lt|].
    simpl.
    destruct (Hin p l) as (Htp & Hlp & _); [by left | done |].
    rewrite (tsOf_lookup _ _ _ Hpn) in Htp. rewrite (liveOf_lookup _ _ _ Hpn) in Hlp.
    pose proof (lookup_lt_Some _ _ _ Hn1) as Hlt.
    assert (∃ nc, (if (timestamp n <? timestamp pn)%Z
                   then Ok (<[c:=mkNode (live pn) (anyLive n) (timestamp pn) (parent n)]> ns1)
                   else Ok ns1)
                  ≫= (λ ns2, idx ns2 c ≫= λ node1,
                        Ok (<[c:=mkNode (live node1) true (timestamp node1) (parent node1)]> ns2))
                  = Ok (<[c:=nc]> ns1)
               ∧ parent nc = parent n ∧ anyLive nc = true
               ∧ (timestamp nc, live nc) = eff ns c (p :: l)) as (nc & -> & Hpc & Hac & Heff).
    { simpl eff. rewrite (tsOf_lookup _ _ _ Hn), (liveOf_lookup _ _ _ Hn), <-Htp.
      destruct (timestamp n <? timestamp pn)%Z; simpl.
      - rewrite (idx_Ok _ _ (mkNode (live pn) (anyLive n) (timestamp pn) (parent n)))
          by (by apply list_lookup_insert_eq).
        simpl. rewrite list_insert_insert_eq. eexists. split; [done|]. simpl.
        rewrite Htp, Hlp. by destruct (eff ns p l).
      - rewrite (idx_Ok _ _ _ Hn1). simpl. eexists. split; [done|]. done. }
    eexists. split; [done|]. split; [|split].
    + rewrite <-Hps1. by eapply parents_of_insert.
    + intros a Ha. apply not_elem_of_cons in Ha as [Hac' Ha].
      rewrite list_lookup_insert_ne by done. by apply Hout.
    + intros a la Ha Hpa. destruct (decide (a = c)) as [->|Hne].
      * assert (la = p :: l) as -> by (eapply path_functional; [done | by econstructor]).
        edestruct (fields_insert ns1 c) as (-> & -> & ->); [done|].
        rewrite <-Heff. done.
      * apply elem_of_cons in Ha as [?|Ha]; [done|].
        destruct (fields_same ns1 (<[c:=nc]> ns1) a) as (-> & -> & ->);
          [by apply list_lookup_insert_ne|].
        by apply Hin.
Qed.

(** ** The three operations preserve the hierarchy *)

Lemma MarkDead_spec ps t x :
  parents_of (nodes t) = ps → x < length ps →
  ∃ n, nodes t !! x = Some n ∧
    MarkDead t x = Ok (mkTree (<[x := mkNode false false (time t) (parent n)]> (nodes t))
                              (wrapInt (time t + 1))) ∧
    parents_of (<[x := mkNode false false (time t) (parent n)]> (nodes t)) = ps.
Proof.
  intros Hps Hx. unfold MarkDead.
  destruct (lookup_parents (nodes t) x) as (n & Hn & ->); [by rewrite Hps|].
  exists n. split; [done|]. split; [done|].
  rewrite <-Hps. by eapply parents_of_insert.
Qed.

Lemma MarkLive_unfold t x n :
  nodes t !! x = Some n →
  MarkLive t x =
    (match parent n with
     | Some pi =>
       setAnyLive (length (<[x := mkNode true true (time t) (parent n)]> (nodes t)))
                  (<[x := mkNode true true (time t) (parent n)]> (nodes t)) pi
     | None => Ok (<[x := mkNode true true (time t) (parent n)]> (nodes t))
     end) ≫= λ ns', Ok (mkTree ns' (wrapInt (time t + 1))).
Proof. intros Hn. unfold MarkLive. by rewrite (idx_Ok _ _ _ Hn). Qed.

Lemma MarkLive_spec ps t x lx :
  parents_of (nodes t) = ps → forestb ps = true → path ps x lx →
  ∃ n ns', nodes t !! x = Some n ∧
    MarkLive t x = Ok (mkTree ns' (wrapInt (time t + 1))) ∧
    parents_of ns' = ps ∧
    let ns1 := <[x := mkNode true true (time t) (parent n)]> (nodes t) in
    parents_of ns1 = ps ∧
    (∀ a, a ∉ lx → ns' !! a = ns1 !! a) ∧
    (∀ a la, a ∈ lx → path ps a la →
       tsOf ns' a = (eff ns1 a la).1 ∧ liveOf ns' a = (eff ns1 a la).2
       ∧ anyOf ns' a = true).
Proof.
  intros Hps Hf Hp.
  destruct (lookup_parents (nodes t) x) as (n & Hn & _);
    [rewrite Hps; by eapply path_lt|].
  exists n. rewrite (MarkLive_unfold _ _ _ Hn).
  set (ns1 := <[x := mkNode true true (time t) (parent n)]> (nodes t)).
  assert (parents_of ns1 = ps) as Hps1.
  { rewrite <-Hps. by eapply parents_of_insert. }
  pose proof (path_points_to _ _ _ _ _ Hps Hp Hn) as Hpt.
  destruct (parent n) as [p|] eqn:Hpar; destruct lx as [|p' l']; try done.
  - destruct Hpt as [<- Hpp].
    destruct (setAnyLive_spec ps p l' Hpp ns1 (length ns1) Hps1)
      as (ns' & Hset & Hps' & Hout & Hin).
    { rewrite <-(length_parents_of ns1), Hps1.
      pose proof (path_length _ _ _ Hf Hp). simpl in *. lia. }
    exists ns'. rewrite Hset. done.
  - exists ns1. do 5 (split; [done|]).
    intros a la Ha. by apply elem_of_nil in Ha.
Qed.

Lemma MarkLive_total ps t x :
  parents_of (nodes t) = ps → forestb ps = true → x < length ps →
  ∃ t', MarkLive t x = Ok t' ∧ parents_of (nodes t') = ps.
Proof.
  intros Hps Hf Hx. destruct (forestb_path ps x Hf Hx) as (lx & Hp & _).
  destruct (MarkLive_spec ps t x lx Hps Hf Hp) as (n & ns' & _ & -> & Hps' & _).
  eauto.
Qed.

Lemma MarkDead_total ps t x :
  parents_of (nodes t) = ps → x < length ps →
  ∃ t', MarkDead t x = Ok t' ∧ parents_of (nodes t') = ps.
Proof.
  intros Hps Hx. destruct (MarkDead_spec ps t x Hps Hx) as (n & _ & -> & Hps').
  eauto.
Qed.

Lemma IsLive_total ps t x :
  parents_of (nodes t) = ps → forestb ps = true → x < length ps →
  ∃ b, IsLive t x = Ok b.
Proof.
  intros Hps Hf Hx. destruct (forestb_path ps x Hf Hx) as (lx & Hp & _).
  rewrite (IsLive_spec ps t x lx Hps Hf Hp). eauto.
Qed.

(** ** The tree refines the view labelling *)

Lemma eff_step_ge ns a p l : ((eff ns p l).1 ≤ (eff ns a (p :: l)).1)%Z.
Proof.
  simpl. destruct (Z.ltb_spec (tsOf ns a) (eff ns p l).1); simpl; lia.
Qed.

Section fresh_write.
(** The node [x] is overwritten with the fresh time stamp [T]. *)
Context (ps : list (option nat)) (ns : list livenessNode) (x : nat)
        (n' : livenessNode) (T : Z) (b : bool).
Hypothesis Hfresh : ∀ y, (tsOf ns y < T)%Z.
Hypothesis Hx : x < length ns.
Hypothesis Hts : timestamp n' = T.
Hypothesis Hlive : live n' = b.
Hypothesis Hany : anyLive n' = b.

Local Lemma write_other y :
  y ≠ x →
  tsOf (<[x := n']> ns) y = tsOf ns y ∧ liveOf (<[x := n']> ns) y = liveOf ns y
  ∧ anyOf (<[x := n']> ns) y = anyOf ns y.
Proof. intros Hy. apply fields_same. by apply list_lookup_insert_ne. Qed.

Local Lemma write_self :
  tsOf (<[x := n']> ns) x = T ∧ liveOf (<[x := n']> ns) x = b
  ∧ anyOf (<[x := n']> ns) x = b.
Proof. rewrite <-Hts, <-Hlive at 1. rewrite <-Hany. by apply fields_insert. Qed.

Lemma eff_after_write a l :
  eff (<[x := n']> ns) a l =
    if bool_decide (x ∈ a :: l) then (T, b) else eff ns a l.
Proof.
  destruct write_self as (HT & HL & _).
  case_bool_decide as Hin.
  - rewrite (eff_top _ a l x Hin); [by rewrite HT, HL|].
    intros y _ Hy. destruct (write_other y Hy) as (-> & _). rewrite HT. apply Hfresh.
  - apply eff_ext. intros y Hy. destruct (write_other y) as (-> & -> & _); [|done].
    intros ->. done.
Qed.

Lemma view_after_write a l :
  path ps a l →
  viewOf (<[x := n']> ns) a l =
    if bool_decide (x ∈ a :: l) then b else viewOf ns a l.
Proof.
  intros Hp. destruct write_self as (HT & HL & HA).
  destruct l as [|p l]; simpl.
  - case_bool_decide as Hin.
    + apply list_elem_of_singleton in Hin as ->. done.
    + destruct (write_other a) as (_ & _ & ->); [|done]. intros ->. apply Hin. by left.
  - rewrite eff_after_write.
    destruct (decide (a = x)) as [->|Hne].
    + rewrite (bool_decide_eq_true_2 (x ∈ x :: p :: l)) by (by left).
      rewrite (bool_decide_eq_false_2 (x ∈ p :: l)) by (by eapply path_acyclic).
      rewrite HT, HA.
      assert ((eff ns p l).1 ≤ T)%Z as Hle.
      { apply eff_le. intros y _. specialize (Hfresh y). lia. }
      by destruct (Z.ltb_spec T (eff ns p l).1); [lia|].
    + destruct (write_other a Hne) as (-> & _ & ->).
      case_bool_decide as Hin.
      * rewrite (bool_decide_eq_true_2 (x ∈ a :: p :: l)) by (by right). simpl.
        specialize (Hfresh a). by destruct (Z.ltb_spec (tsOf ns a) T); [|lia].
      * rewrite (bool_decide_eq_false_2 (x ∈ a :: p :: l)); [done|].
        intros [?|?]%elem_of_cons; congruence.
Qed.
End fresh_write.

Lemma Inv_fresh ps t V y : Inv ps t V → (tsOf (nodes t) y < time t)%Z.
Proof.
  intros [_ _ _ Htime Hstamp _]. unfold tsOf.
  destruct (nodes t !! y) as [n|] eqn:Hn; simpl; [|lia].
  by apply (Hstamp y n).
Qed.

Lemma Inv_lookup ps t V a :
  Inv ps t V → a < length ps → ∃ l, path ps a l ∧ V !! a = Some (viewOf (nodes t) a l).
Proof.
  intros HI Ha. destruct (forestb_path ps a (inv_forest _ _ _ HI) Ha) as (l & Hp & _).
  exists l. split; [done|]. by apply (inv_view _ _ _ HI).
Qed.

Lemma IsLive_Inv ps t V a :
  Inv ps t V → a < length ps →
  ∃ b, V !! a = Some b ∧ IsLive t a = Ok b.
Proof.
  intros HI Ha. destruct (Inv_lookup _ _ _ _ HI Ha) as (l & Hp & HV).
  eexists. split; [done|].
  by apply (IsLive_spec ps); [apply HI | apply HI |].
Qed.

Lemma MarkDead_Inv ps t V x :
  Inv ps t V → x < length ps → (time t < intMax)%Z →
  ∃ t', MarkDead t x = Ok t' ∧ Inv ps t' (viewMarkDead ps x V)
        ∧ time t' = (time t + 1)%Z.
Proof.
  intros HI Hx Hclock. pose proof HI as [Hps Hf Hlen Htime Hstamp Hview].
  destruct (MarkDead_spec ps t x Hps Hx) as (n & Hn & -> & Hps').
  pose proof (lookup_lt_Some _ _ _ Hn) as Hxl.
  eexists. split; [done|]. simpl.
  rewrite wrapInt_succ by lia. split; [|done].
  constructor; simpl; try done.
  - unfold viewMarkDead. by rewrite length_imap.
  - lia.
  - intros a m Ha. destruct (decide (a = x)) as [->|Hne].
    + rewrite list_lookup_insert_eq in Ha by done. injection Ha as <-. simpl. lia.
    + rewrite list_lookup_insert_ne in Ha by done. specialize (Hstamp a m Ha). lia.
  - intros a l Hp. unfold viewMarkDead. rewrite list_lookup_imap, (Hview a l Hp). simpl.
    rewrite (inSubtree_path _ _ _ _ Hf Hp).
    rewrite (view_after_write ps (nodes t) x _ (time t) false); try done.
    intros y. by eapply Inv_fresh.
Qed.

Lemma MarkLive_Inv ps t V x :
  Inv ps t V → x < length ps → (time t < intMax)%Z →
  ∃ t', MarkLive t x = Ok t' ∧ Inv ps t' (viewMarkLive ps x V)
        ∧ time t' = (time t + 1)%Z.
Proof.
  intros HI Hx Hclock. pose proof HI as [Hps Hf Hlen Htime Hstamp Hview].
  destruct (forestb_path ps x Hf Hx) as (lx & Hpx & _).
  destruct (MarkLive_spec ps t x lx Hps Hf Hpx)
    as (n & ns' & Hn & -> & Hps' & Hps1 & Hout & Hin).
  pose proof (lookup_lt_Some _ _ _ Hn) as Hxl.
  set (ns1 := <[x := mkNode true true (time t) (parent n)]> (nodes t)) in *.
  assert (∀ y, (tsOf (nodes t) y < time t)%Z) as Hfresh
    by (intros y; by eapply Inv_fresh).
  assert (∀ y, (0 ≤ tsOf ns1 y ≤ time t)%Z) as Hb1.
  { intros y. destruct (decide (y = x)) as [->|Hne].
    - edestruct (fields_insert (nodes t) x) as (Hts & _); [done|].
      unfold ns1. rewrite Hts. simpl. lia.
    - destruct (fields_same (nodes t) ns1 y) as (-> & _);
        [by apply list_lookup_insert_ne|].
      specialize (Hfresh y). split; [|lia]. unfold tsOf.
      destruct (nodes t !! y) as [m|] eqn:Hm; simpl; [|lia]. by apply (Hstamp y m). }
  assert (∀ a la, path ps a la → eff ns' a la = eff ns1 a la) as Heff.
  { apply eff_materialize. intros y ly Hpy.
    destruct (decide (y ∈ lx)) as [Hy|Hy].
    - right. destruct (Hin y ly Hy Hpy) as (-> & -> & _). by destruct (eff ns1 y ly).
    - left. destruct (fields_same ns1 ns' y) as (-> & -> & _); [by apply Hout | done]. }
  eexists. split; [done|]. simpl.
  rewrite wrapInt_succ by lia. split; [|done].
  constructor; simpl; try done.
  - unfold viewMarkLive. by rewrite length_imap.
  - lia.
  - intros a m Ha.
    assert (0 ≤ tsOf ns' a ≤ time t)%Z as Hb; [|rewrite (tsOf_lookup _ _ _ Ha) in Hb; lia].
    destruct (decide (a ∈ lx)) as [Hy|Hy].
    + destruct (path_elem _ _ _ _ Hpx Hy) as (l1 & la & _ & Hpa).
      destruct (Hin a la Hy Hpa) as (-> & _).
      split; [apply eff_lo | apply eff_le]; intros y _; apply Hb1.
    + destruct (fields_same ns1 ns' a) as (-> & _); [by apply Hout | apply Hb1].
  - intros a l Hp. unfold viewMarkLive. rewrite list_lookup_imap, (Hview a l Hp). simpl.
    rewrite (inSubtree_path _ _ _ _ Hf Hp), (inSubtree_path _ _ _ _ Hf Hpx).
    f_equal. destruct (decide (a ∈ lx)) as [Hy|Hy].
    + (* an ancestor of [x]: materialized, [anyLive] set *)
      rewrite (bool_decide_eq_true_2 (a ∈ x :: lx)) by (by right).
      rewrite orb_true_r.
      destruct (Hin a l Hy Hp) as (Hts & _ & Hany).
      destruct l as [|p l']; simpl; [done|].
      inversion Hp as [|? ? ? ? Hpp]; subst.
      rewrite (Heff p l' Hpp), Hts.
      pose proof (eff_step_ge ns1 a p l').
      by destruct (Z.ltb_spec (eff ns1 a (p :: l')).1 (eff ns1 p l').1); [lia|].
    + (* not an ancestor: the node is as after the first write *)
      assert (viewOf ns' a l = viewOf ns1 a l) as ->.
      { destruct (fields_same ns1 ns' a) as (Hts & _ & Hany); [by apply Hout|].
        destruct l as [|p l']; simpl; [done|].
        inversion Hp as [|? ? ? ? Hpp]; subst.
        by rewrite (Heff p l' Hpp), Hts, Hany. }
      unfold ns1.
      rewrite (view_after_write ps (nodes t) x _ (time t) true); try done.
      destruct (decide (a = x)) as [->|Hne].
      * rewrite !bool_decide_eq_true_2 by (by left). done.
      * rewrite (bool_decide_eq_false_2 (a ∈ x :: lx))
          by (intros [?|?]%elem_of_cons; congruence).
        by rewrite orb_false_r.
Qed.

(** The view labelling is closed under going to ancestors, and a mark
    keeps it so. *)

Lemma upclosed_replicate ps n : upclosed ps (replicate n false).
Proof.
  intros a l x _ _ Ha. apply lookup_replicate in Ha as [? _]. done.
Qed.

Lemma view_lookup_live ps x V a :
  viewMarkLive ps x V !! a =
    (λ v, if inSubtree ps x a || inSubtree ps a x then true else v) <$> V !! a.
Proof. unfold viewMarkLive. by rewrite list_lookup_imap. Qed.

Lemma view_lookup_dead ps x V a :
  viewMarkDead ps x V !! a =
    (λ v, if inSubtree ps x a then false else v) <$> V !! a.
Proof. unfold viewMarkDead. by rewrite list_lookup_imap. Qed.

(** ** A fresh tree *)

Lemma parents_of_freshNodes ps : parents_of (freshNodes ps) = ps.
Proof.
  unfold parents_of, freshNodes. rewrite <-list_fmap_compose.
  rewrite <-(list_fmap_id ps) at 2. by apply list_fmap_ext.
Qed.

Lemma freshNodes_lookup ps a n :
  freshNodes ps !! a = Some n → live n = false ∧ anyLive n = false ∧ timestamp n = 0%Z.
Proof.
  unfold freshNodes. rewrite list_lookup_fmap.
  destruct (ps !! a); simpl; [|done]. by intros [= <-].
Qed.

Lemma linkParent_fold (parents : gmap nat nat) (n : nat) :
  (∀ a p, parents !! a = Some p → a < n ∧ p < n) →
  map_fold linkParent (Ok (replicate n zeroNode)) parents
  = Ok (freshNodes (linkOf parents <$> seq 0 n)).
Proof.
  apply (map_fold_weak_ind
    (λ r m, (∀ a p, m !! a = Some p → a < n ∧ p < n) →
            r = Ok (freshNodes (linkOf m <$> seq 0 n)))).
  - intros _. f_equal. apply list_eq. intros a.
    unfold freshNodes. rewrite !list_lookup_fmap.
    destruct (decide (a < n)) as [Ha|Ha].
    + rewrite lookup_replicate_2, lookup_seq_lt by done. simpl.
      unfold linkOf. by rewrite lookup_empty.
    + rewrite lookup_seq_ge by lia. simpl. apply lookup_replicate_None. lia.
  - intros i x m r Hi IH Hb.
    rewrite IH; [|intros a p Hap; apply Hb; rewrite lookup_insert_ne; [done|congruence]].
    destruct (Hb i x) as [Hin Hxn]; [by rewrite lookup_insert_eq|].
    unfold linkParent. simpl.
    assert (∀ a, a ≠ i → linkOf (<[i:=x]> m) a = linkOf m a) as Hother.
    { intros a Ha. unfold linkOf. by rewrite lookup_insert_ne. }
    assert (linkOf (<[i:=x]> m) i = if decide (x = NullStateAddress) then None else Some x)
      as Hself.
    { unfold linkOf. by rewrite lookup_insert_eq. }
    assert (linkOf m i = None) as Hold by (unfold linkOf; by rewrite Hi).
    assert (∀ j, j < n →
      freshNodes (linkOf m <$> seq 0 n) !! j = Some (mkNode false false 0 (linkOf m j)))
      as Hlook.
    { intros j Hj. unfold freshNodes. rewrite !list_lookup_fmap, lookup_seq_lt by done. done. }
    case_decide as Hx.
    + f_equal. f_equal. apply list_fmap_ext. intros k a Hka.
      destruct (decide (a = i)) as [->|Hne]; [|by rewrite Hother].
      rewrite Hself, Hold. by rewrite ?decide_True.
    + rewrite (idx_Ok _ _ _ (Hlook i Hin)). simpl.
      rewrite (idx_Ok _ _ _ (Hlook x Hxn)). simpl.
      f_equal. apply list_eq. intros a.
      destruct (decide (a = i)) as [->|Hne].
      * rewrite list_lookup_insert_eq
          by (unfold freshNodes; by rewrite !length_fmap, length_seq).
        unfold freshNodes. rewrite !list_lookup_fmap, lookup_seq_lt by done. simpl.
        rewrite Hself. by rewrite ?decide_False.
      * rewrite list_lookup_insert_ne by done.
        unfold freshNodes. rewrite !list_lookup_fmap.
        destruct (seq 0 n !! a) as [k|] eqn:Hk; simpl; [|done].
        apply lookup_seq in Hk as [-> _]. simpl. by rewrite Hother.
Qed.

Lemma wfParents_bounds parents :
  wfParents parents = true →
  (∀ a p, parents !! a = Some p → a < size parents ∧ p < size parents)
  ∧ forestb (hierarchy parents) = true.
Proof.
  unfold wfParents. intros [Hb Hf]%andb_true_iff. split; [|done].
  intros a p Hap. rewrite forallb_forall in Hb.
  specialize (Hb (a, p)). apply bool_decide_eq_true_1 in Hb; [done|].
  apply list_elem_of_In. by apply elem_of_map_to_list.
Qed.

Lemma hierarchy_length parents : length (hierarchy parents) = size parents.
Proof. unfold hierarchy. by rewrite length_fmap, length_seq. Qed.

Lemma newLivenessTree_spec parents :
  wfParents parents = true →
  newLivenessTree parents = Ok (mkTree (freshNodes (hierarchy parents)) 1%Z).
Proof.
  intros [Hb _]%wfParents_bounds. unfold newLivenessTree.
  by rewrite (linkParent_fold parents (size parents) Hb).
Qed.

Lemma eff_fresh ps a l : eff (freshNodes ps) a l = (0%Z, false).
Proof.
  assert (∀ x, tsOf (freshNodes ps) x = 0%Z ∧ liveOf (freshNodes ps) x = false) as Hz.
  { intros x. unfold tsOf, liveOf.
    destruct (freshNodes ps !! x) as [n|] eqn:Hn; simpl; [|done].
    by destruct (freshNodes_lookup _ _ _ Hn) as (-> & _ & ->). }
  revert a. induction l as [|p l IH]; intros a; simpl.
  - by destruct (Hz a) as [-> ->].
  - rewrite IH. by destruct (Hz a) as [-> ->].
Qed.

Lemma Inv_new ps :
  forestb ps = true →
  Inv ps (mkTree (freshNodes ps) 1%Z) (replicate (length ps) false).
Proof.
  intros Hf. constructor; simpl.
  - apply parents_of_freshNodes.
  - done.
  - by rewrite length_replicate.
  - unfold intMax. lia.
  - intros a n Hn. destruct (freshNodes_lookup _ _ _ Hn) as (_ & _ & ->). lia.
  - intros a l Hp. rewrite lookup_replicate_2 by (eapply path_lt; eassumption). f_equal.
    assert (anyOf (freshNodes ps) a = false) as Hany.
    { unfold anyOf. destruct (freshNodes ps !! a) as [n|] eqn:Hn; simpl; [|done].
      by destruct (freshNodes_lookup _ _ _ Hn) as (_ & -> & _). }
    destruct l as [|p l]; simpl; [done|]. rewrite eff_fresh, Hany. simpl.
    by destruct (_ <? _)%Z.
Qed.

(** ** Sequences of marks *)

Lemma applyMark_Inv ps t V op :
  Inv ps t V → target op < length ps → (time t < intMax)%Z →
  ∃ t', applyMark t op = Ok t' ∧ Inv ps t' (viewStep ps V op)
        ∧ time t' = (time t + 1)%Z.
Proof.
  intros HI Hop Hclock. destruct op as [x|x]; simpl in *.
  - by apply MarkLive_Inv.
  - by apply MarkDead_Inv.
Qed.

Lemma applyMarks_Inv ps ops :
  ∀ t V, Inv ps t V → Forall (λ op, target op < length ps) ops →
  (time t + Z.of_nat (length ops) ≤ intMax)%Z →
  ∃ t', applyMarks t ops = Ok t' ∧ Inv ps t' (foldl (viewStep ps) V ops)
        ∧ time t' = (time t + Z.of_nat (length ops))%Z.
Proof.
  induction ops as [|op ops IH]; intros t V HI Hops Hclock; simpl in *.
  - exists t. split; [done|]. split; [done|]. lia.
  - apply Forall_cons in Hops as [Hop Hops].
    destruct (applyMark_Inv ps t V op HI Hop) as (t1 & -> & HI1 & Ht1); [lia|].
    simpl. destruct (IH t1 _ HI1 Hops) as (t2 & -> & HI2 & Ht2); [lia|].
    exists t2. split; [done|]. split; [done|]. lia.
Qed.

(** ** The view labelling and the naive oracle *)

Lemma naiveStep_length ps N op : length (naiveStep ps N op) = length N.
Proof. destruct op; simpl; unfold naiveMark; by rewrite length_imap. Qed.

Lemma viewStep_length ps V op : length (viewStep ps V op) = length V.
Proof.
  destruct op; simpl; unfold viewMarkLive, viewMarkDead; by rewrite length_imap.
Qed.

Lemma below_step ps N V op :
  length N = length V → below N V → below (naiveStep ps N op) (viewStep ps V op).
Proof.
  intros Hlen Hb a. destruct op as [x|x]; simpl; unfold naiveMark.
  - rewrite list_lookup_imap, view_lookup_live.
    destruct (N !! a) as [v|] eqn:Hv; simpl; [|done].
    destruct (lookup_lt_is_Some_2 V a) as [w Hw];
      [rewrite <-Hlen; by eapply lookup_lt_Some|].
    destruct (inSubtree ps x a) eqn:Hs; simpl.
    + intros _. by rewrite Hw.
    + intros [= ->]. rewrite (Hb a Hv). simpl. by destruct (inSubtree ps a x).
  - rewrite list_lookup_imap, view_lookup_dead.
    destruct (N !! a) as [v|] eqn:Hv; simpl; [|done].
    destruct (inSubtree ps x a) eqn:Hs; simpl; [done|].
    intros [= ->]. by rewrite (Hb a Hv).
Qed.

Lemma upclosed_live ps V x :
  forestb ps = true → length V = length ps → x < length ps →
  upclosed ps V → upclosed ps (viewMarkLive ps x V).
Proof.
  intros Hf Hlen Hx Hup a l y Hp Hy Ha.
  destruct (forestb_path ps x Hf Hx) as (lx & Hpx & _).
  destruct (path_elem _ _ _ _ Hp Hy) as (l1 & ly & _ & Hpy).
  destruct (lookup_lt_is_Some_2 V y) as [w Hw];
    [rewrite Hlen; by eapply path_lt|].
  rewrite view_lookup_live in Ha |- *. rewrite Hw. simpl. f_equal.
  rewrite (inSubtree_path _ _ _ _ Hf Hpy), (inSubtree_path _ _ _ _ Hf Hpx).
  rewrite (inSubtree_path _ _ _ _ Hf Hp), (inSubtree_path _ _ _ _ Hf Hpx) in Ha.
  destruct (decide (x ∈ a :: l)) as [Hxa|Hxa].
  - assert (y ∈ a :: l) as Hya by (by right).
    destruct (path_comparable _ _ _ _ _ _ _ Hp Hxa Hya Hpx Hpy) as [Hc|Hc].
    + rewrite (bool_decide_eq_true_2 (y ∈ x :: lx)) by done. by rewrite orb_true_r.
    + by rewrite (bool_decide_eq_true_2 (x ∈ y :: ly)) by (by right).
  - rewrite (bool_decide_eq_false_2 (x ∈ a :: l)) in Ha by done. simpl in Ha.
    destruct (decide (a ∈ x :: lx)) as [Hax|Hax].
    + assert (y ∈ lx) as Hylx.
      { apply elem_of_cons in Hax as [->|Hax].
        - by rewrite (path_functional _ _ _ _ Hpx Hp).
        - by eapply path_trans. }
      rewrite (bool_decide_eq_true_2 (y ∈ x :: lx)) by (by right).
      by rewrite orb_true_r.
    + rewrite (bool_decide_eq_false_2 (a ∈ x :: lx)) in Ha by done.
      destruct (V !! a) as [v|] eqn:Hv; simpl in Ha; [|done].
      injection Ha as ->.
      rewrite (Hup a l y Hp Hy Hv) in Hw. injection Hw as <-.
      by destruct (_ || _).
Qed.

Lemma upclosed_dead ps V x :
  forestb ps = true → upclosed ps V → upclosed ps (viewMarkDead ps x V).
Proof.
  intros Hf Hup a l y Hp Hy Ha.
  destruct (path_elem _ _ _ _ Hp Hy) as (l1 & ly & _ & Hpy).
  rewrite view_lookup_dead in Ha |- *.
  rewrite (inSubtree_path _ _ _ _ Hf Hpy).
  rewrite (inSubtree_path _ _ _ _ Hf Hp) in Ha.
  destruct (V !! a) as [v|] eqn:Hv; simpl in Ha; [|done].
  case_bool_decide as Hxa; [done|]. injection Ha as ->.
  rewrite (Hup a l y Hp Hy Hv). simpl. f_equal.
  rewrite bool_decide_eq_false_2; [done|].
  intros Hxy. apply Hxa. right. apply elem_of_cons in Hxy as [->|Hxy]; [done|].
  by eapply path_trans.
Qed.

Lemma upclosed_step ps V op :
  forestb ps = true → length V = length ps → target op < length ps →
  upclosed ps V → upclosed ps (viewStep ps V op).
Proof.
  intros Hf Hlen Hx Hup. destruct op; simpl in *.
  - by apply upclosed_live.
  - by apply upclosed_dead.
Qed.

Lemma labels_related ps ops :
  forestb ps = true → Forall (λ op, target op < length ps) ops →
  ∀ N V, length N = length ps → length V = length ps → below N V → upclosed ps V →
  below (foldl (naiveStep ps) N ops) (foldl (viewStep ps) V ops)
  ∧ upclosed ps (foldl (viewStep ps) V ops)
  ∧ length (foldl (naiveStep ps) N ops) = length ps
  ∧ length (foldl (viewStep ps) V ops) = length ps.
Proof.
  intros Hf. induction 1 as [|op ops Hop Hops IH]; intros N V HN HV Hb Hup; simpl.
  - done.
  - apply IH.
    + by rewrite naiveStep_length.
    + by rewrite viewStep_length.
    + apply below_step; [congruence | done].
    + by apply upclosed_step.
Qed.

Lemma naive_sound ps N V a :
  forestb ps = true → length N = length ps →
  below N V → upclosed ps V →
  naiveIsLive ps N a = true → V !! a = Some true.
Proof.
  intros Hf HN Hb Hup Hex. unfold naiveIsLive in Hex.
  apply existsb_exists in Hex as (d & Hd & Hand).
  apply in_seq in Hd. apply andb_true_iff in Hand as [Hs Hlive].
  destruct (N !! d) as [v|] eqn:Hv; simpl in Hlive; [subst v|done].
  destruct (forestb_path ps d Hf) as (ld & Hpd & _); [lia|].
  rewrite (inSubtree_path _ _ _ _ Hf Hpd) in Hs. apply bool_decide_eq_true_1 in Hs.
  apply elem_of_cons in Hs as [->|Hs]; [by apply Hb|].
  eapply Hup; [done | done | by apply Hb].
Qed.

Lemma below_replicate n V : below (replicate n false) V.
Proof. intros a Ha. apply lookup_replicate in Ha as [? _]. done. Qed.

(** C2 (amended). For every parent forest and every sequence of marks on a
    fresh liveness tree (fewer than 2^63-1 of them, so that the clock does
    not wrap), [IsLive a] returns the view labelling at [a]: true iff the
    last mark that reached [a] was a [MarkLive] at [a], at an ancestor or at
    a descendant of [a], where a [MarkDead] reaches only the subtree of its
    address.  In particular [IsLive a] is true whenever the naive oracle
    says that [a] is live; the converse does not hold. *)
Theorem liveness_tree_oracle parents ops a :
  wfParents parents = true →
  forallb (λ op, bool_decide (target op < size parents)) ops = true →
  (Z.of_nat (length ops) < intMax)%Z →
  a < size parents →
  ∃ t, newLivenessTree parents ≫= (λ t0, applyMarks t0 ops) = Ok t
    ∧ IsLive t a = Ok (default false (viewLabel (hierarchy parents) ops !! a))
    ∧ (naiveIsLive (hierarchy parents) (naiveLabel (hierarchy parents) ops) a = true →
       IsLive t a = Ok true).
Proof.
  intros Hwf Hops Hlen Ha.
  pose proof (wfParents_bounds _ Hwf) as [_ Hf].
  set (ps := hierarchy parents) in *.
  assert (length ps = size parents) as Hps by apply hierarchy_length.
  assert (Forall (λ op, target op < length ps) ops) as Hops'.
  { apply Forall_forall. intros op Hop. rewrite forallb_forall in Hops.
    rewrite Hps. apply list_elem_of_In in Hop. by apply Hops, bool_decide_eq_true_1 in Hop. }
  rewrite (newLivenessTree_spec _ Hwf). fold ps. simpl.
  destruct (applyMarks_Inv ps ops _ _ (Inv_new ps Hf) Hops') as (t & Ht & HI & _);
    [simpl; lia|].
  exists t. split; [done|].
  destruct (IsLive_Inv ps t _ a HI) as (b & Hb & HL); [lia|].
  unfold viewLabel. rewrite Hb. simpl. split; [done|].
  intros Hn. rewrite HL. f_equal.
  destruct (labels_related ps ops Hf Hops' (replicate (length ps) false)
              (replicate (length ps) false)) as (Hbel & Hup & HlN & HlV);
    [by rewrite length_replicate | by rewrite length_replicate
    | apply below_replicate | apply upclosed_replicate |].
  pose proof (naive_sound ps _ _ a Hf HlN Hbel Hup Hn) as Hv.
  rewrite Hb in Hv. by injection Hv.
Qed.

Lemma liveness_tree_oracle_witness :
  ∃ t, newLivenessTree tree3 ≫= (λ t0, applyMarks t0 [markLive 2; markDead 1]) = Ok t
    ∧ IsLive t 1 = Ok (default false (viewLabel (hierarchy tree3) [markLive 2; markDead 1] !! 1))
    ∧ (naiveIsLive (hierarchy tree3) (naiveLabel (hierarchy tree3) [markLive 2; markDead 1]) 1 = true →
       IsLive t 1 = Ok true).
Proof.
  apply (liveness_tree_oracle tree3 [markLive 2; markDead 1] 1);
    [vm_compute; reflexivity | vm_compute; reflexivity | vm_compute; reflexivity
    | vm_compute; lia].
Defined.

(** C2 (as stated) fails: after [MarkLive 2; MarkDead 2] on the chain
    2 -> 1 the tree still reports 1 as live, the oracle does not. *)
Lemma liveness_tree_oracle_counterexample :
  ∃ t, newLivenessTree tree3 ≫= (λ t0, applyMarks t0 [markLive 2; markDead 2]) = Ok t
    ∧ IsLive t 1 = Ok true
    ∧ naiveIsLive (hierarchy tree3)
        (naiveLabel (hierarchy tree3) [markLive 2; markDead 2]) 1 = false.
Proof. eexists. split; [vm_compute; reflexivity|]. split; vm_compute; reflexivity. Qed.

(** ** The loops over a footprint *)

Lemma markAllLive_marks state xs :
  markAllLive state xs = applyMarks state (markLive <$> xs).
Proof.
  revert state. induction xs as [|x xs IH]; intros state; simpl; [done|].
  destruct (MarkLive state x); simpl; auto.
Qed.

Lemma markAllLive_total ps xs :
  forestb ps = true → Forall (λ x, x < length ps) xs →
  ∀ state, parents_of (nodes state) = ps →
  ∃ state', markAllLive state xs = Ok state' ∧ parents_of (nodes state') = ps.
Proof.
  intros Hf. induction 1 as [|x xs Hx Hxs IH]; intros state Hps; simpl.
  - eauto.
  - destruct (MarkLive_total ps state x Hps Hf Hx) as (state1 & -> & Hps1). simpl.
    by apply IH.
Qed.

Lemma killWrites_total ps ws :
  forestb ps = true → Forall (λ x, x < length ps) ws →
  ∀ state lv, parents_of (nodes state) = ps →
  ∃ state' lv', killWrites state lv ws = Ok (state', lv')
    ∧ parents_of (nodes state') = ps ∧ (lv = true → lv' = true).
Proof.
  intros Hf. induction 1 as [|w ws Hw Hws IH]; intros state lv Hps; simpl.
  - eauto.
  - destruct (IsLive_total ps state w Hps Hf Hw) as (l & ->). simpl.
    destruct l.
    + destruct (MarkDead_total ps state w Hps Hw) as (state1 & -> & Hps1). simpl.
      destruct (IH state1 true Hps1) as (state' & lv' & -> & Hps' & Hlv).
      exists state', lv'. split; [done|]. split; [done|]. intros _. by apply Hlv.
    + by apply IH.
Qed.

Lemma checkModifies_total ps ms :
  forestb ps = true → Forall (λ x, x < length ps) ms →
  ∀ state lv, parents_of (nodes state) = ps →
  ∃ lv', checkModifies state lv ms = Ok lv' ∧ (lv = true → lv' = true).
Proof.
  intros Hf. induction 1 as [|m ms Hm Hms IH]; intros state lv Hps; simpl.
  - eauto.
  - destruct (IsLive_total ps state m Hps Hf Hm) as (l & ->). simpl.
    destruct (IH state (if l then true else lv) Hps) as (lv' & -> & Hlv).
    exists lv'. split; [done|]. intros ->. apply Hlv. by destruct l.
Qed.

Lemma inRange_spec n b :
  inRange n b = true →
  Forall (λ x, x < n) (Reads b) ∧ Forall (λ x, x < n) (Modifies b)
  ∧ Forall (λ x, x < n) (Writes b).
Proof.
  unfold inRange. rewrite forallb_forall. intros Hall.
  assert (∀ x, x ∈ Reads b ++ Modifies b ++ Writes b → x < n) as Hin.
  { intros x Hx. apply list_elem_of_In, Hall in Hx. by apply bool_decide_eq_true_1 in Hx. }
  repeat split; apply Forall_forall; intros x Hx; apply Hin;
    rewrite !elem_of_app; auto.
Qed.

Section Sweep.
Context {Atom : Type} {Key : Type} `{Countable Key}.
Implicit Types (g : @DependencyGraph Atom Key _ _).
Implicit Types (t : @DeadCodeElimination Atom Key _ _).

(** *** One command *)

Lemma sweepCommand_total ps t i b isLive state :
  forestb ps = true → parents_of (nodes state) = ps →
  Behaviours (dependencyGraph t) !! i = Some b →
  inRange (length ps) b = true →
  Forall (λ r, r < length ps) (rootKeys (dependencyGraph t)) →
  i < length isLive →
  ∃ lv state',
    sweepCommand t i (isLive, state) = Ok (<[i := lv]> isLive, state')
    ∧ parents_of (nodes state') = ps
    ∧ (Aborted b = true → lv = KeepAlive b)
    ∧ (Aborted b = false → KeepAlive b = true ∨ i ∈ requests t → lv = true).
Proof.
  intros Hf Hps Hb Hrange Hroots Hi.
  destruct (inRange_spec _ _ Hrange) as (HR & HM & HW).
  unfold sweepCommand. rewrite (idx_Ok _ _ _ Hb). simpl.
  destruct (Aborted b) eqn:Hab.
  { exists (KeepAlive b), state. repeat split; done. }
  assert (∃ lv0 state0,
    (if decide (i ∈ requests t)
     then markAllLive state (rootKeys (dependencyGraph t)) ≫=
            (λ state', Ok (<[i:=true]> (<[i:=KeepAlive b]> isLive), state'))
     else Ok (<[i:=KeepAlive b]> isLive, state))
    = Ok (<[i:=lv0]> isLive, state0)
    ∧ parents_of (nodes state0) = ps
    ∧ (KeepAlive b = true ∨ i ∈ requests t → lv0 = true))
    as (lv0 & state0 & -> & Hps0 & Hlv0).
  { case_decide as Hreq.
    - destruct (markAllLive_total ps _ Hf Hroots state Hps) as (state0 & -> & Hps0).
      simpl. rewrite list_insert_insert_eq. exists true, state0. done.
    - exists (KeepAlive b), state. repeat split; [done|]. by intros [?|?]. }
  simpl. rewrite (idx_Ok _ _ lv0) by (by apply list_lookup_insert_eq). simpl.
  destruct (killWrites_total ps _ Hf HW state0 lv0 Hps0)
    as (state1 & lv1 & -> & Hps1 & Hlv1).
  simpl.
  destruct (checkModifies_total ps _ Hf HM state1 lv1 Hps1) as (lv2 & -> & Hlv2).
  simpl. rewrite list_insert_insert_eq.
  destruct lv2.
  - destruct (markAllLive_total ps _ Hf HM state1 Hps1) as (state2 & -> & Hps2).
    simpl.
    destruct (markAllLive_total ps _ Hf HR state2 Hps2) as (state3 & -> & Hps3).
    simpl. exists true, state3. repeat split; done.
  - exists false, state1. repeat split; [done..|].
    intros _ Hor. apply Hlv2, Hlv1, Hlv0, Hor.
Qed.

(** *** The loop *)

Lemma sweepLoop_S t n st :
  sweepLoop t (S n) st = sweepCommand t n st ≫= sweepLoop t n.
Proof. done. Qed.

Lemma sweepLoop_total ps t n :
  forestb ps = true →
  Forall (λ r, r < length ps) (rootKeys (dependencyGraph t)) →
  (∀ i, i < n → ∃ b, Behaviours (dependencyGraph t) !! i = Some b
                     ∧ inRange (length ps) b = true) →
  ∀ isLive state, n ≤ length isLive → parents_of (nodes state) = ps →
  ∃ isLive' state',
    sweepLoop t n (isLive, state) = Ok (isLive', state')
    ∧ length isLive' = length isLive
    ∧ (∀ j, n ≤ j → isLive' !! j = isLive !! j)
    ∧ (∀ j b, j < n → Behaviours (dependencyGraph t) !! j = Some b →
         (Aborted b = true → isLive' !! j = Some (KeepAlive b))
         ∧ (Aborted b = false → KeepAlive b = true ∨ j ∈ requests t →
            isLive' !! j = Some true)).
Proof.
  intros Hf Hroots. induction n as [|n IH]; intros Hbs isLive state Hn Hps.
  - exists isLive, state. repeat split; try done; lia.
  - destruct (Hbs n) as (b & Hb & Hrange); [lia|].
    rewrite sweepLoop_S.
    destruct (sweepCommand_total ps t n b isLive state Hf Hps Hb Hrange Hroots)
      as (lv & state1 & -> & Hps1 & Hab & Hlive); [lia|].
    change (Ok (<[n:=lv]> isLive, state1) ≫= sweepLoop t n)
      with (sweepLoop t n (<[n:=lv]> isLive, state1)).
    destruct (IH (λ i Hi, Hbs i (Nat.lt_lt_succ_r _ _ Hi)) (<[n:=lv]> isLive) state1)
      as (isLive' & state' & -> & Hlen & Hhigh & Hlow);
      [by rewrite length_insert; lia | done |].
    exists isLive', state'. rewrite length_insert in Hlen.
    split; [done|]. split; [done|]. split.
    + intros j Hj. rewrite Hhigh by lia. apply list_lookup_insert_ne. lia.
    + intros j b' Hj Hb'. destruct (decide (j = n)) as [->|Hne].
      * assert (b' = b) as -> by congruence.
        rewrite Hhigh by lia. rewrite list_lookup_insert_eq by lia.
        split; [intros Ha; by rewrite Hab | intros Ha Hor; by rewrite Hlive].
      * apply Hlow; [lia | done].
Qed.

Lemma reportStatistics_total g n :
  n ≤ length (Atoms g) → reportStatistics g n = Ok tt.
Proof.
  induction n as [|n IH]; intros Hn; simpl; [done|].
  rewrite IH by lia. simpl.
  destruct (lookup_lt_is_Some_2 (Atoms g) n) as [a Ha]; [lia|].
  by rewrite (idx_Ok _ _ _ Ha).
Qed.

Lemma wfSweep_spec g last :
  wfSweep g last = true →
  let ps := hierarchy (GetHierarchyStateMap g) in
  wfParents (GetHierarchyStateMap g) = true
  ∧ forestb ps = true
  ∧ last < length (Behaviours g)
  ∧ last < length (Atoms g)
  ∧ (∀ i, i < S last → ∃ b, Behaviours g !! i = Some b ∧ inRange (length ps) b = true)
  ∧ Forall (λ r, r < length ps) (rootKeys g).
Proof.
  unfold wfSweep. rewrite !andb_true_iff.
  intros ((((Hwf & Hb) & Ha) & Hr) & Hroots). simpl.
  apply bool_decide_eq_true_1 in Hb, Ha.
  rewrite hierarchy_length.
  split; [done|]. split; [by apply wfParents_bounds|]. split; [done|]. split; [done|].
  split.
  - intros i Hi. destruct (lookup_lt_is_Some_2 (Behaviours g) i) as [b Hbi]; [lia|].
    exists b. split; [done|]. rewrite forallb_forall in Hr. apply Hr.
    apply list_elem_of_In. apply list_elem_of_lookup. exists i.
    by rewrite lookup_take_lt.
  - apply Forall_forall. intros r Hin. rewrite forallb_forall in Hroots.
    apply list_elem_of_In, Hroots in Hin. by apply bool_decide_eq_true_1 in Hin.
Qed.

Lemma propagateLiveness_total t :
  wfSweep (dependencyGraph t) (lastRequest t) = true →
  ∃ isLive, propagateLiveness t = Ok isLive
    ∧ length isLive = lastRequest t + 1
    ∧ (∀ j b, j ≤ lastRequest t → Behaviours (dependencyGraph t) !! j = Some b →
         (Aborted b = true → isLive !! j = Some (KeepAlive b))
         ∧ (Aborted b = false → KeepAlive b = true ∨ j ∈ requests t →
            isLive !! j = Some true)).
Proof.
  intros Hwf. destruct (wfSweep_spec _ _ Hwf) as (Hpar & Hf & Hb & Ha & Hbs & Hroots).
  unfold propagateLiveness. rewrite (newLivenessTree_spec _ Hpar). simpl.
  set (ps := hierarchy (GetHierarchyStateMap (dependencyGraph t))) in *.
  destruct (sweepLoop_total ps t (lastRequest t + 1) Hf Hroots) with
    (isLive := replicate (lastRequest t + 1) false)
    (state := mkTree (freshNodes ps) 1%Z)
    as (isLive & state' & -> & Hlen & _ & Hprop).
  - intros i Hi. apply Hbs. lia.
  - by rewrite length_replicate.
  - apply parents_of_freshNodes.
  - simpl. rewrite length_replicate in Hlen.
    rewrite reportStatistics_total by lia. simpl.
    exists isLive. split; [done|]. split; [done|].
    intros j b Hj. apply Hprop. lia.
Qed.
End Sweep.

(** ** Requests *)

Section Requests.
Context {Atom : Type} {Key : Type} `{Countable Key}.
Implicit Types (g : @DependencyGraph Atom Key _ _).
Implicit Types (t : @DeadCodeElimination Atom Key _ _).

Lemma foldl_Request t ids :
  dependencyGraph (foldl Request t ids) = dependencyGraph t
  ∧ lastRequest (foldl Request t ids) = lastRequest t `max` max_list ids
  ∧ (∀ q, q ∈ requests (foldl Request t ids) ↔ q ∈ requests t ∨ q ∈ ids).
Proof.
  revert t. induction ids as [|id ids IH]; intros t; simpl.
  - split; [done|]. split; [lia|]. intros q. rewrite elem_of_nil. tauto.
  - destruct (IH (Request t id)) as (-> & -> & Hreq). simpl.
    split; [done|]. split; [case_decide; lia|].
    intros q. rewrite Hreq. simpl.
    rewrite elem_of_cons, elem_of_union, elem_of_singleton. tauto.
Qed.

Lemma requestAll_graph g ids : dependencyGraph (requestAll g ids) = g.
Proof. unfold requestAll. by destruct (foldl_Request (NewDeadCodeElimination g) ids) as (-> & _). Qed.

Lemma requestAll_last g ids : lastRequest (requestAll g ids) = max_list ids.
Proof. unfold requestAll. by destruct (foldl_Request (NewDeadCodeElimination g) ids) as (_ & -> & _). Qed.

Lemma requestAll_requests g ids q : q ∈ requests (requestAll g ids) ↔ q ∈ ids.
Proof.
  unfold requestAll.
  destruct (foldl_Request (NewDeadCodeElimination g) ids) as (_ & _ & ->).
  simpl. rewrite elem_of_empty. tauto.
Qed.

Lemma max_list_ge (ids : list nat) q : q ∈ ids → q ≤ max_list ids.
Proof.
  induction ids as [|id ids IH]; simpl; [by intros ?%elem_of_nil|].
  intros [->|Hq]%elem_of_cons; [lia|]. specialize (IH Hq). lia.
Qed.

(** C1 (amended). For every well-formed capture and every request list
    whose largest id is below the number of commands, the sweep returns an
    array of [lastRequest + 1] entries in which every requested command
    that did not abort is live. *)
Theorem requested_commands_live g ids q b :
  wfSweep g (max_list ids) = true →
  q ∈ ids →
  Behaviours g !! q = Some b →
  Aborted b = false →
  ∃ isLive, propagateLiveness (requestAll g ids) = Ok isLive
    ∧ length isLive = max_list ids + 1
    ∧ isLive !! q = Some true.
Proof.
  intros Hwf Hq Hb Hab.
  destruct (propagateLiveness_total (requestAll g ids)) as (isLive & -> & Hlen & Hprop).
  { by rewrite requestAll_graph, requestAll_last. }
  rewrite requestAll_last in Hlen. exists isLive. split; [done|]. split; [done|].
  destruct (Hprop q b) as [_ Hlive].
  - rewrite requestAll_last. by apply max_list_ge.
  - by rewrite requestAll_graph.
  - apply Hlive; [done|]. right. by apply requestAll_requests.
Qed.

(** C3 (amended). For every well-formed capture and every request list,
    a command [i <= lastRequest] that aborted gets [isLive[i] = keepAlive],
    whether or not it was requested; so it is dead exactly when its
    [keepAlive] flag is not set. *)
Theorem aborted_commands_keepAlive g ids i b :
  wfSweep g (max_list ids) = true →
  i ≤ max_list ids →
  Behaviours g !! i = Some b →
  Aborted b = true →
  ∃ isLive, propagateLiveness (requestAll g ids) = Ok isLive
    ∧ isLive !! i = Some (KeepAlive b).
Proof.
  intros Hwf Hi Hb Hab.
  destruct (propagateLiveness_total (requestAll g ids)) as (isLive & -> & Hlen & Hprop).
  { by rewrite requestAll_graph, requestAll_last. }
  exists isLive. split; [done|].
  destruct (Hprop i b) as [Hdead _].
  - by rewrite requestAll_last.
  - by rewrite requestAll_graph.
  - by apply Hdead.
Qed.
End Requests.

Lemma requested_commands_live_witness :
  ∃ isLive, propagateLiveness (requestAll chainGraph [2]) = Ok isLive
    ∧ length isLive = max_list [2] + 1
    ∧ isLive !! 2 = Some true.
Proof.
  apply (requested_commands_live chainGraph [2] 2 (behaviour [2] [] [3] false false));
    [vm_compute; reflexivity | by left | reflexivity | reflexivity].
Defined.

(** C1 (as stated) fails: a requested command that aborted is not live. *)
Lemma requested_commands_live_counterexample :
  0 ∈ requests (requestAll abortedGraph [0])
  ∧ lastRequest (requestAll abortedGraph [0]) < length (Atoms abortedGraph)
  ∧ propagateLiveness (requestAll abortedGraph [0]) = Ok [false].
Proof.
  split; [apply requestAll_requests; by left|].
  split; [vm_compute; lia | vm_compute; reflexivity].
Qed.

Lemma aborted_commands_keepAlive_witness :
  ∃ isLive, propagateLiveness (requestAll abortedGraph [0]) = Ok isLive
    ∧ isLive !! 0 = Some (KeepAlive (behaviour [] [] [] false true)).
Proof.
  apply (aborted_commands_keepAlive abortedGraph [0] 0);
    [vm_compute; reflexivity | simpl; lia | reflexivity | reflexivity].
Defined.

(** C3 (as stated) fails: command 0 aborted and was not requested, yet it
    is live because it is kept alive. *)
Lemma aborted_commands_counterexample :
  (0 ∉ requests (requestAll keptAbortedGraph [1]))
  ∧ (Aborted <$> (Behaviours keptAbortedGraph !! 0) = Some true)
  ∧ propagateLiveness (requestAll keptAbortedGraph [1]) = Ok [true; true].
Proof.
  split.
  - rewrite requestAll_requests. by intros [=]%list_elem_of_singleton.
  - split; [reflexivity | vm_compute; reflexivity].
Qed.

(** ** Requests are not validated *)

Lemma linkParent_fold_result (parents : gmap nat nat) (ns0 : list livenessNode) :
  map_fold linkParent (Ok ns0) parents ≠ OutOfFuel.
Proof.
  apply (map_fold_weak_ind (λ r _, r ≠ OutOfFuel)); [done|].
  intros i x m r _ Hr. unfold linkParent.
  destruct r as [ns| |]; simpl; [|done..].
  case_decide; [done|].
  unfold idx. destruct (ns !! i); simpl; [|done]. by destruct (ns !! x).
Qed.

Lemma newLivenessTree_result parents : newLivenessTree parents ≠ OutOfFuel.
Proof.
  unfold newLivenessTree.
  pose proof (linkParent_fold_result parents (replicate (size parents) zeroNode)).
  by destruct (map_fold _ _ _).
Qed.

Section Emitter.
Context {Atom : Type} {Key : Type} `{Countable Key}.
Implicit Types (g : @DependencyGraph Atom Key _ _).
Implicit Types (t : @DeadCodeElimination Atom Key _ _).

Lemma propagateLiveness_stale t :
  length (Behaviours (dependencyGraph t)) ≤ lastRequest t →
  ∃ msg, propagateLiveness t = Panic msg.
Proof.
  intros Hlen. unfold propagateLiveness.
  pose proof (newLivenessTree_result (GetHierarchyStateMap (dependencyGraph t))) as Hnew.
  destruct (newLivenessTree _) as [state|msg|]; simpl; [|by eauto|done].
  replace (lastRequest t + 1) with (S (lastRequest t)) by lia.
  rewrite sweepLoop_S. unfold sweepCommand.
  rewrite idx_ge by done. simpl. eauto.
Qed.

(** C6 (amended). [Request] rejects nothing: for every id it records the
    id, keeps the graph and raises [lastRequest] to the largest id seen;
    when [lastRequest] is not below the number of behaviours the sweep
    panics. *)
Theorem Request_unchecked t id :
  id ∈ requests (Request t id)
  ∧ (∀ q, q ∈ requests t → q ∈ requests (Request t id))
  ∧ lastRequest (Request t id) = lastRequest t `max` id
  ∧ dependencyGraph (Request t id) = dependencyGraph t
  ∧ (length (Behaviours (dependencyGraph t)) ≤ id →
     ∃ msg, propagateLiveness (Request t id) = Panic msg).
Proof.
  unfold Request. simpl. split; [|split; [|split; [|split]]].
  - apply elem_of_union. left. by apply elem_of_singleton.
  - intros q Hq. apply elem_of_union. by right.
  - case_decide; lia.
  - done.
  - intros Hid. apply propagateLiveness_stale. simpl. case_decide; lia.
Qed.

(** C9. [Transform] panics for every input and hands nothing to the
    writer. *)
Theorem Transform_panics t id (a : Atom) (out : Writer) :
  Transform t id a out
  = (Panic "This transform does not accept input atoms", out).
Proof. reflexivity. Qed.

(** *** Flushing without a request *)

Lemma killWrites_dead ws :
  ∀ state lv, (∀ w, w ∈ ws → IsLive state w = Ok false) →
  killWrites state lv ws = Ok (state, lv).
Proof.
  induction ws as [|w ws IH]; intros state lv Hdead; simpl; [done|].
  rewrite (Hdead w) by (by left). simpl. apply IH.
  intros w' Hw'. apply Hdead. by right.
Qed.

Lemma checkModifies_dead ms :
  ∀ state lv, (∀ m, m ∈ ms → IsLive state m = Ok false) →
  checkModifies state lv ms = Ok lv.
Proof.
  induction ms as [|m ms IH]; intros state lv Hdead; simpl; [done|].
  rewrite (Hdead m) by (by left). simpl. apply IH.
  intros m' Hm'. apply Hdead. by right.
Qed.

Lemma IsLive_fresh ps a :
  forestb ps = true → a < length ps →
  IsLive (mkTree (freshNodes ps) 1%Z) a = Ok false.
Proof.
  intros Hf Ha.
  destruct (IsLive_Inv ps _ _ a (Inv_new ps Hf) Ha) as (b & Hb & ->).
  rewrite lookup_replicate_2 in Hb by done. by injection Hb as <-.
Qed.

Lemma propagateLiveness_no_request g b0 :
  wfSweep g 0 = true → Behaviours g !! 0 = Some b0 →
  propagateLiveness (NewDeadCodeElimination g) = Ok [KeepAlive b0].
Proof.
  intros Hwf Hb0.
  destruct (wfSweep_spec _ _ Hwf) as (Hpar & Hf & Hb & Ha & Hbs & Hroots).
  set (ps := hierarchy (GetHierarchyStateMap g)) in *.
  destruct (Hbs 0) as (b & Hb' & Hrange); [lia|].
  assert (b = b0) as -> by congruence.
  destruct (inRange_spec _ _ Hrange) as (HR & HM & HW).
  unfold propagateLiveness. simpl.
  rewrite (newLivenessTree_spec _ Hpar). fold ps. simpl.
  rewrite (idx_Ok _ _ _ Hb0). simpl.
  destruct (Aborted b0).
  { simpl. destruct (lookup_lt_is_Some_2 (Atoms g) 0 Ha) as [a Hat].
    by rewrite (idx_Ok _ _ _ Hat). }
  rewrite decide_False by apply not_elem_of_empty. simpl.
  rewrite killWrites_dead.
  2:{ intros w Hw. apply IsLive_fresh; [done|].
      by apply (proj1 (Forall_forall _ _) HW). }
  simpl. rewrite checkModifies_dead.
  2:{ intros m Hm. apply IsLive_fresh; [done|].
      by apply (proj1 (Forall_forall _ _) HM). }
  simpl.
  assert (reportStatistics g 1 = Ok tt) as Hstat by (apply reportStatistics_total; lia).
  simpl in Hstat.
  destruct (KeepAlive b0).
  - destruct (markAllLive_total ps _ Hf HM (mkTree (freshNodes ps) 1%Z))
      as (state1 & -> & Hps1); [apply parents_of_freshNodes|].
    simpl. destruct (markAllLive_total ps _ Hf HR state1 Hps1) as (state2 & -> & _).
    simpl. by rewrite Hstat.
  - simpl. by rewrite Hstat.
Qed.

(** C7 (amended). When [Flush] is invoked on a well-formed capture before
    any [Request], the sweep covers command 0 only and marks no root: the
    writer receives command 0 if its [keepAlive] flag is set (aborted or
    not) and nothing otherwise; no command with a larger id is emitted. *)
Theorem Flush_without_request g b0 a0 (out : Writer) :
  wfSweep g 0 = true →
  Behaviours g !! 0 = Some b0 →
  Atoms g !! 0 = Some a0 →
  requests (NewDeadCodeElimination g) = ∅
  ∧ Flush (NewDeadCodeElimination g) out
    = (Ok tt, out ++ if KeepAlive b0 then [(0, a0)] else []).
Proof.
  intros Hwf Hb0 Ha0. split; [done|]. unfold Flush.
  rewrite (propagateLiveness_no_request g b0 Hwf Hb0). simpl.
  destruct (KeepAlive b0); simpl.
  - by rewrite (idx_Ok _ _ _ Ha0).
  - by rewrite app_nil_r.
Qed.
End Emitter.

(** C6 (as stated) fails: the stale id 5 is accepted for a capture of one
    command, and the sweep then runs with [lastRequest = 5] and panics. *)
Lemma Request_unchecked_counterexample :
  5 ∈ requests (Request (NewDeadCodeElimination abortedGraph) 5)
  ∧ lastRequest (Request (NewDeadCodeElimination abortedGraph) 5) = 5
  ∧ length (Atoms abortedGraph) = 1
  ∧ propagateLiveness (Request (NewDeadCodeElimination abortedGraph) 5)
    = Panic "index out of range".
Proof.
  split; [apply elem_of_union; left; by apply elem_of_singleton|].
  split; [reflexivity|]. split; [reflexivity|]. vm_compute. reflexivity.
Qed.

Lemma Flush_without_request_witness :
  requests (NewDeadCodeElimination keptGraph) = ∅
  ∧ Flush (NewDeadCodeElimination keptGraph) []
    = (Ok tt, [] ++ if KeepAlive (behaviour [] [] [1] true false) then [(0, 0)] else []).
Proof.
  apply (Flush_without_request keptGraph (behaviour [] [] [1] true false) 0 []);
    [vm_compute; reflexivity | reflexivity | reflexivity].
Defined.

(** C7 (as stated) fails: command 1 is kept alive and did not abort, but
    without a request only command 0 reaches the writer. *)
Lemma Flush_without_request_counterexample :
  (KeepAlive <$> (Behaviours keptGraph !! 1) = Some true)
  ∧ (Aborted <$> (Behaviours keptGraph !! 1) = Some false)
  ∧ Flush (NewDeadCodeElimination keptGraph) [] = (Ok tt, [(0, 0)]).
Proof. split; [reflexivity|]. split; [reflexivity|]. vm_compute. reflexivity. Qed.

(** ** Monotonicity of the sweep on view labellings *)

Lemma viewMarkLive_length ps x V : length (viewMarkLive ps x V) = length V.
Proof. unfold viewMarkLive. by rewrite length_imap. Qed.

Lemma viewMarkDead_length ps x V : length (viewMarkDead ps x V) = length V.
Proof. unfold viewMarkDead. by rewrite length_imap. Qed.

Lemma viewMarkAll_length ps xs : ∀ V, length (viewMarkAll ps V xs) = length V.
Proof.
  induction xs as [|x xs IH]; intros V; simpl; [done|].
  unfold viewMarkAll in *. simpl. by rewrite IH, viewMarkLive_length.
Qed.

Lemma viewKillWrites_length ps ws :
  ∀ V lv, length (viewKillWrites ps V lv ws).1 = length V.
Proof.
  induction ws as [|w ws IH]; intros V lv; simpl; [done|].
  destruct (default false (V !! w)); rewrite IH; [apply viewMarkDead_length | done].
Qed.

Lemma below_live ps x V V' :
  length V = length V' → below V V' →
  below (viewMarkLive ps x V) (viewMarkLive ps x V').
Proof.
  intros Hlen Hb a. rewrite !view_lookup_live.
  destruct (V !! a) as [v|] eqn:Hv; simpl; [|done].
  destruct (lookup_lt_is_Some_2 V' a) as [w Hw];
    [rewrite <-Hlen; by eapply lookup_lt_Some|].
  rewrite Hw. simpl. destruct (_ || _); [done|].
  intros [= ->]. rewrite (Hb a Hv) in Hw. by injection Hw as <-.
Qed.

Lemma below_live_incr ps x V V' : below V V' → below V (viewMarkLive ps x V').
Proof.
  intros Hb a Ha. rewrite view_lookup_live, (Hb a Ha). simpl. by destruct (_ || _).
Qed.

Lemma below_dead ps x V V' :
  below V V' → below (viewMarkDead ps x V) (viewMarkDead ps x V').
Proof.
  intros Hb a. rewrite !view_lookup_dead.
  destruct (V !! a) as [v|] eqn:Hv; simpl; [|done].
  destruct (inSubtree ps x a); [done|]. intros [= ->]. by rewrite (Hb a Hv).
Qed.

Lemma below_markAll ps xs :
  ∀ V V', length V = length V' → below V V' →
  below (viewMarkAll ps V xs) (viewMarkAll ps V' xs).
Proof.
  induction xs as [|x xs IH]; intros V V' Hlen Hb; [done|].
  unfold viewMarkAll in *. simpl. apply IH.
  - by rewrite !viewMarkLive_length.
  - by apply below_live.
Qed.

Lemma below_markAll_incr ps xs :
  ∀ V V', below V V' → below V (viewMarkAll ps V' xs).
Proof.
  induction xs as [|x xs IH]; intros V V' Hb; [done|].
  unfold viewMarkAll in *. simpl. apply IH. by apply below_live_incr.
Qed.

Lemma upclosed_markAll ps xs :
  forestb ps = true → Forall (λ x, x < length ps) xs →
  ∀ V, length V = length ps → upclosed ps V → upclosed ps (viewMarkAll ps V xs).
Proof.
  intros Hf. induction 1 as [|x xs Hx Hxs IH]; intros V Hlen Hup; [done|].
  unfold viewMarkAll in *. simpl. apply IH.
  - by rewrite viewMarkLive_length.
  - by apply upclosed_live.
Qed.

(** Marks of roots commute, so the order in which [range] yields the keys
    of [Roots] does not matter for the labelling. *)
Lemma viewMarkLive_comm ps x y V :
  viewMarkLive ps x (viewMarkLive ps y V) = viewMarkLive ps y (viewMarkLive ps x V).
Proof.
  apply list_eq. intros a. rewrite !view_lookup_live.
  destruct (V !! a) as [v|]; simpl; [|done]. f_equal.
  by destruct (inSubtree ps x a), (inSubtree ps a x), (inSubtree ps y a),
    (inSubtree ps a y).
Qed.

Lemma viewMarkAll_Permutation ps xs ys :
  xs ≡ₚ ys → ∀ V, viewMarkAll ps V xs = viewMarkAll ps V ys.
Proof.
  unfold viewMarkAll.
  induction 1 as [|x xs ys _ IH|x y xs|xs ys zs _ IH1 _ IH2]; intros V; simpl.
  - done.
  - apply IH.
  - by rewrite viewMarkLive_comm.
  - by rewrite IH1, IH2.
Qed.

Lemma viewCommand_Permutation ps roots roots' b req V :
  roots ≡ₚ roots' → viewCommand ps roots b req V = viewCommand ps roots' b req V.
Proof.
  intros Hperm. unfold viewCommand.
  by rewrite (viewMarkAll_Permutation ps roots roots' Hperm V).
Qed.

(** A dead address of an upwards closed labelling has a dead subtree. *)
Lemma upclosed_dead_subtree ps V w a :
  forestb ps = true → length V = length ps → upclosed ps V →
  default false (V !! w) = false → V !! a = Some true → inSubtree ps w a = false.
Proof.
  intros Hf Hlen Hup Hw Ha.
  destruct (forestb_path ps a Hf) as (l & Hp & _);
    [rewrite <-Hlen; by eapply lookup_lt_Some|].
  rewrite (inSubtree_path _ _ _ _ Hf Hp). apply bool_decide_eq_false_2.
  intros [->|Hin]%elem_of_cons.
  - by rewrite Ha in Hw.
  - by rewrite (Hup a l w Hp Hin Ha) in Hw.
Qed.

Lemma viewKillWrites_mono ps ws :
  forestb ps = true →
  ∀ V V' (lv lv' : bool),
    length V = length ps → length V' = length ps →
    below V V' → upclosed ps V → (lv = true → lv' = true) →
    below (viewKillWrites ps V lv ws).1 (viewKillWrites ps V' lv' ws).1
    ∧ upclosed ps (viewKillWrites ps V lv ws).1
    ∧ ((viewKillWrites ps V lv ws).2 = true → (viewKillWrites ps V' lv' ws).2 = true).
Proof.
  intros Hf. induction ws as [|w ws IH]; intros V V' lv lv' Hlen Hlen' Hb Hup Hlv; simpl.
  - done.
  - destruct (default false (V !! w)) eqn:Hw; destruct (default false (V' !! w)) eqn:Hw'.
    + apply IH; try done.
      * by rewrite viewMarkDead_length.
      * by rewrite viewMarkDead_length.
      * by apply below_dead.
      * by apply upclosed_dead.
    + destruct (V !! w) as [[]|] eqn:Hvw; try done.
      by rewrite (Hb w Hvw) in Hw'.
    + apply IH; try done.
      * by rewrite viewMarkDead_length.
      * intros a Ha. rewrite view_lookup_dead, (Hb a Ha). simpl.
        by rewrite (upclosed_dead_subtree ps V w a).
    + by apply IH.
Qed.

Lemma viewCheckModifies_mono V V' (lv lv' : bool) ms :
  below V V' → (lv = true → lv' = true) →
  viewCheckModifies V lv ms = true → viewCheckModifies V' lv' ms = true.
Proof.
  unfold viewCheckModifies. intros Hb Hlv [Hl|Hex]%orb_true_iff.
  - by rewrite Hlv.
  - apply orb_true_iff. right. apply existsb_exists in Hex as (m & Hm & Hv).
    apply existsb_exists. exists m. split; [done|].
    destruct (V !! m) as [[]|] eqn:Hvm; try done. by rewrite (Hb m Hvm).
Qed.

Lemma viewCommand_length ps roots b req V :
  length (viewCommand ps roots b req V).2 = length V.
Proof.
  unfold viewCommand. destruct (Aborted b); [done|].
  destruct (viewKillWrites ps _ _ (Writes b)) as [V2 lv] eqn:Hk.
  assert (length V2 = length V) as HV2.
  { change V2 with (V2, lv).1. rewrite <-Hk, viewKillWrites_length.
    destruct req; [apply viewMarkAll_length | done]. }
  destruct (viewCheckModifies V2 lv (Modifies b)); simpl; [|done].
  by rewrite !viewMarkAll_length.
Qed.

Lemma viewCommand_mono ps roots b (req req' : bool) V V' :
  forestb ps = true →
  Forall (λ r, r < length ps) roots → inRange (length ps) b = true →
  length V = length ps → length V' = length ps →
  below V V' → upclosed ps V → (req = true → req' = true) →
  ((viewCommand ps roots b req V).1 = true → (viewCommand ps roots b req' V').1 = true)
  ∧ below (viewCommand ps roots b req V).2 (viewCommand ps roots b req' V').2
  ∧ upclosed ps (viewCommand ps roots b req V).2.
Proof.
  intros Hf Hroots Hrange Hlen Hlen' Hb Hup Hreq.
  destruct (inRange_spec _ _ Hrange) as (HR & HM & HW).
  unfold viewCommand. destruct (Aborted b); [done|].
  set (V1 := if req then viewMarkAll ps V roots else V).
  set (V1' := if req' then viewMarkAll ps V' roots else V').
  assert (length V1 = length ps) as Hl1
    by (unfold V1; destruct req; by rewrite ?viewMarkAll_length).
  assert (length V1' = length ps) as Hl1'
    by (unfold V1'; destruct req'; by rewrite ?viewMarkAll_length).
  assert (below V1 V1') as Hb1.
  { unfold V1, V1'. destruct req.
    - rewrite Hreq by done. apply below_markAll; [congruence | done].
    - destruct req'; [by apply below_markAll_incr | done]. }
  assert (upclosed ps V1) as Hup1.
  { unfold V1. destruct req; [by apply upclosed_markAll | done]. }
  destruct (viewKillWrites_mono ps (Writes b) Hf V1 V1'
              (KeepAlive b || req) (KeepAlive b || req') Hl1 Hl1' Hb1 Hup1)
    as (Hb2 & Hup2 & Hlv).
  { intros [Hk|Hr]%orb_true_iff; [by rewrite Hk|]. rewrite Hreq by done. apply orb_true_r. }
  pose proof (viewKillWrites_length ps (Writes b) V1 (KeepAlive b || req)) as Hl2.
  pose proof (viewKillWrites_length ps (Writes b) V1' (KeepAlive b || req')) as Hl2'.
  destruct (viewKillWrites ps V1 _ (Writes b)) as [V2 lv].
  destruct (viewKillWrites ps V1' _ (Writes b)) as [V2' lv'].
  simpl in *.
  pose proof (viewCheckModifies_mono V2 V2' lv lv' (Modifies b) Hb2 Hlv) as Hc.
  destruct (viewCheckModifies V2 lv (Modifies b)).
  - rewrite Hc by done. simpl. split; [done|]. split.
    + apply below_markAll; [by rewrite !viewMarkAll_length; congruence|].
      apply below_markAll; [congruence | done].
    + apply upclosed_markAll; [done | done | by rewrite viewMarkAll_length; congruence |].
      apply upclosed_markAll; [done | done | congruence | done].
  - simpl. split; [done|]. split; [|done].
    destruct (viewCheckModifies V2' lv' (Modifies b)); simpl; [|done].
    by apply below_markAll_incr, below_markAll_incr.
Qed.

Section ViewSweep.
Context {Atom : Type} {Key : Type} `{Countable Key}.
Implicit Types (g : @DependencyGraph Atom Key _ _).
Implicit Types (t : @DeadCodeElimination Atom Key _ _).

Lemma viewSweep_S g rs n isLive V :
  viewSweep g rs (S n) (isLive, V) =
    let c := viewCommand (hierarchy (GetHierarchyStateMap g)) (rootKeys g)
               (default emptyBehaviour (Behaviours g !! n)) (bool_decide (n ∈ rs)) V in
    viewSweep g rs n (<[n := c.1]> isLive, c.2).
Proof. simpl. by destruct (viewCommand _ _ _ _ _). Qed.

Lemma viewSweep_shape g rs n :
  ∀ isLive V,
    length (viewSweep g rs n (isLive, V)).1 = length isLive
    ∧ length (viewSweep g rs n (isLive, V)).2 = length V
    ∧ ∀ j, n ≤ j → (viewSweep g rs n (isLive, V)).1 !! j = isLive !! j.
Proof.
  induction n as [|n IH]; intros isLive V.
  - done.
  - rewrite viewSweep_S. cbv zeta.
    destruct (IH (<[n := (viewCommand (hierarchy (GetHierarchyStateMap g)) (rootKeys g)
               (default emptyBehaviour (Behaviours g !! n)) (bool_decide (n ∈ rs)) V).1]> isLive)
              (viewCommand (hierarchy (GetHierarchyStateMap g)) (rootKeys g)
               (default emptyBehaviour (Behaviours g !! n)) (bool_decide (n ∈ rs)) V).2)
      as (-> & -> & Hhigh).
    rewrite length_insert, viewCommand_length. split; [done|]. split; [done|].
    intros j Hj. rewrite Hhigh by lia. apply list_lookup_insert_ne. lia.
Qed.

Lemma viewSweep_prefix g rs n d :
  ∀ isLive V, ∃ isLive' V',
    viewSweep g rs (n + d) (isLive, V) = viewSweep g rs n (isLive', V')
    ∧ length isLive' = length isLive ∧ length V' = length V.
Proof.
  induction d as [|d IH]; intros isLive V.
  - rewrite Nat.add_0_r. eauto.
  - replace (n + S d) with (S (n + d)) by lia. rewrite viewSweep_S. cbv zeta.
    edestruct IH as (isLive' & V' & -> & Hl & HV).
    exists isLive', V'. split; [done|].
    by rewrite Hl, HV, length_insert, viewCommand_length.
Qed.

Lemma viewSweep_mono g (rs rs' : gset nat) n :
  let ps := hierarchy (GetHierarchyStateMap g) in
  forestb ps = true →
  Forall (λ r, r < length ps) (rootKeys g) →
  (∀ i, i < n → ∃ b, Behaviours g !! i = Some b ∧ inRange (length ps) b = true) →
  (∀ q, q ∈ rs → q ∈ rs') →
  ∀ isLive isLive' V V',
    n ≤ length isLive → n ≤ length isLive' →
    length V = length ps → length V' = length ps →
    below V V' → upclosed ps V →
    ∀ j, j < n →
      (viewSweep g rs n (isLive, V)).1 !! j = Some true →
      (viewSweep g rs' n (isLive', V')).1 !! j = Some true.
Proof.
  intros ps Hf Hroots Hbs Hsub.
  induction n as [|n IH]; intros isLive isLive' V V' Hn Hn' Hlen Hlen' Hb Hup j Hj;
    [lia|].
  rewrite !viewSweep_S. cbv zeta. fold ps.
  destruct (Hbs n) as (b & -> & Hrange); [lia|]. simpl.
  destruct (viewCommand_mono ps (rootKeys g) b (bool_decide (n ∈ rs))
              (bool_decide (n ∈ rs')) V V' Hf Hroots Hrange Hlen Hlen' Hb Hup)
    as (Hlv & Hb1 & Hup1).
  { intros Hin%bool_decide_eq_true_1. by apply bool_decide_eq_true_2, Hsub. }
  destruct (decide (j = n)) as [->|Hne].
  - destruct (viewSweep_shape g rs n
      (<[n := (viewCommand ps (rootKeys g) b (bool_decide (n ∈ rs)) V).1]> isLive)
      (viewCommand ps (rootKeys g) b (bool_decide (n ∈ rs)) V).2) as (_ & _ & ->); [|lia].
    destruct (viewSweep_shape g rs' n
      (<[n := (viewCommand ps (rootKeys g) b (bool_decide (n ∈ rs')) V').1]> isLive')
      (viewCommand ps (rootKeys g) b (bool_decide (n ∈ rs')) V').2) as (_ & _ & ->); [|lia].
    rewrite !list_lookup_insert_eq by lia. intros [= Hv]. by rewrite Hlv.
  - apply IH; try done.
    + intros i Hi. apply Hbs. lia.
    + rewrite length_insert. lia.
    + rewrite length_insert. lia.
    + by rewrite viewCommand_length.
    + by rewrite viewCommand_length.
    + lia.
Qed.
End ViewSweep.

(** ** The sweep refines the sweep on view labellings *)

Lemma markAllLive_Inv ps xs :
  Forall (λ x, x < length ps) xs →
  ∀ state V, Inv ps state V →
  (time state + Z.of_nat (length xs) ≤ intMax)%Z →
  ∃ state', markAllLive state xs = Ok state'
    ∧ Inv ps state' (viewMarkAll ps V xs)
    ∧ time state' = (time state + Z.of_nat (length xs))%Z.
Proof.
  induction 1 as [|x xs Hx Hxs IH]; intros state V HI Hclock; simpl in *.
  - exists state. split; [done|]. split; [done|]. lia.
  - destruct (MarkLive_Inv ps state V x HI Hx) as (state1 & -> & HI1 & Ht1); [lia|].
    simpl. destruct (IH state1 _ HI1) as (state' & -> & HI' & Ht'); [lia|].
    exists state'. split; [done|]. split; [done|]. lia.
Qed.

Lemma killWrites_Inv ps ws :
  Forall (λ x, x < length ps) ws →
  ∀ state V lv, Inv ps state V →
  (time state + Z.of_nat (length ws) ≤ intMax)%Z →
  ∃ state', killWrites state lv ws = Ok (state', (viewKillWrites ps V lv ws).2)
    ∧ Inv ps state' (viewKillWrites ps V lv ws).1
    ∧ (time state' ≤ time state + Z.of_nat (length ws))%Z.
Proof.
  induction 1 as [|w ws Hw Hws IH]; intros state V lv HI Hclock; simpl in *.
  - exists state. split; [done|]. split; [done|]. lia.
  - destruct (IsLive_Inv ps state V w HI Hw) as (l & Hl & ->). rewrite Hl. simpl.
    destruct l.
    + destruct (MarkDead_Inv ps state V w HI Hw) as (state1 & -> & HI1 & Ht1); [lia|].
      simpl. destruct (IH state1 _ true HI1) as (state' & -> & HI' & Ht'); [lia|].
      exists state'. split; [done|]. split; [done|]. lia.
    + destruct (IH state V lv HI) as (state' & -> & HI' & Ht'); [lia|].
      exists state'. split; [done|]. split; [done|]. lia.
Qed.

Lemma checkModifies_Inv ps ms :
  Forall (λ x, x < length ps) ms →
  ∀ state V lv, Inv ps state V →
  checkModifies state lv ms = Ok (viewCheckModifies V lv ms).
Proof.
  unfold viewCheckModifies.
  induction 1 as [|m ms Hm Hms IH]; intros state V lv HI; simpl.
  - by rewrite orb_false_r.
  - destruct (IsLive_Inv ps state V m HI Hm) as (l & Hl & ->). rewrite Hl. simpl.
    rewrite (IH state V _ HI). f_equal. by destruct l, lv.
Qed.

Section Refinement.
Context {Atom : Type} {Key : Type} `{Countable Key}.
Implicit Types (g : @DependencyGraph Atom Key _ _).
Implicit Types (t : @DeadCodeElimination Atom Key _ _).

Lemma sweepCommand_Inv ps t i b isLive state V :
  Inv ps state V →
  Behaviours (dependencyGraph t) !! i = Some b →
  inRange (length ps) b = true →
  Forall (λ r, r < length ps) (rootKeys (dependencyGraph t)) →
  i < length isLive →
  (time state
   + Z.of_nat (commandCost (length (rootKeys (dependencyGraph t))) b) ≤ intMax)%Z →
  let c := viewCommand ps (rootKeys (dependencyGraph t)) b
             (bool_decide (i ∈ requests t)) V in
  ∃ state',
    sweepCommand t i (isLive, state) = Ok (<[i := c.1]> isLive, state')
    ∧ Inv ps state' c.2
    ∧ (time state'
       ≤ time state
         + Z.of_nat (commandCost (length (rootKeys (dependencyGraph t))) b))%Z.
Proof.
  intros HI Hb Hrange Hroots Hi Hclock.
  destruct (inRange_spec _ _ Hrange) as (HR & HM & HW).
  unfold commandCost in *. cbv zeta.
  unfold sweepCommand, viewCommand. rewrite (idx_Ok _ _ _ Hb). simpl.
  destruct (Aborted b) eqn:Hab.
  { exists state. split; [done|]. split; [done|]. lia. }
  set (roots := rootKeys (dependencyGraph t)) in *.
  set (req := bool_decide (i ∈ requests t)).
  set (V1 := if req then viewMarkAll ps V roots else V).
  assert (∃ state1,
    (if decide (i ∈ requests t)
     then markAllLive state roots ≫=
            (λ state', Ok (<[i:=true]> (<[i:=KeepAlive b]> isLive), state'))
     else Ok (<[i:=KeepAlive b]> isLive, state))
    = Ok (<[i:=KeepAlive b || req]> isLive, state1)
    ∧ Inv ps state1 V1
    ∧ (time state1 ≤ time state + Z.of_nat (length roots))%Z)
    as (state1 & -> & HI1 & Ht1).
  { unfold V1, req. case_decide as Hreq.
    - rewrite bool_decide_eq_true_2 by done.
      destruct (markAllLive_Inv ps roots Hroots state V HI) as (state1 & -> & HI1 & Ht1);
        [lia|].
      simpl. rewrite list_insert_insert_eq, orb_true_r. exists state1.
      split; [done|]. split; [done|]. lia.
    - rewrite bool_decide_eq_false_2 by done. rewrite orb_false_r.
      exists state. split; [done|]. split; [done|]. lia. }
  simpl. rewrite (idx_Ok _ _ (KeepAlive b || req)) by (by apply list_lookup_insert_eq).
  simpl.
  destruct (killWrites_Inv ps _ HW state1 V1 (KeepAlive b || req) HI1)
    as (state2 & -> & HI2 & Ht2); [lia|].
  destruct (viewKillWrites ps V1 (KeepAlive b || req) (Writes b)) as [V2 lv].
  simpl in *.
  rewrite (checkModifies_Inv ps _ HM state2 V2 lv HI2). simpl.
  rewrite list_insert_insert_eq.
  destruct (viewCheckModifies V2 lv (Modifies b)).
  - destruct (markAllLive_Inv ps _ HM state2 V2 HI2) as (state3 & -> & HI3 & Ht3); [lia|].
    simpl.
    destruct (markAllLive_Inv ps _ HR state3 _ HI3) as (state4 & -> & HI4 & Ht4); [lia|].
    simpl. exists state4. split; [done|]. split; [done|]. lia.
  - exists state2. split; [done|]. split; [done|]. lia.
Qed.

Lemma sweepCost_S g n b :
  Behaviours g !! n = Some b →
  sweepCost g (S n) = sweepCost g n + commandCost (length (rootKeys g)) b.
Proof.
  intros Hb. unfold sweepCost. rewrite (take_S_r _ _ _ Hb), fmap_app, sum_list_with_app.
  simpl. lia.
Qed.

Lemma sum_take_le (f : AtomBehaviour → nat) (l : list AtomBehaviour) n :
  sum_list (f <$> take n l) ≤ sum_list (f <$> l).
Proof.
  revert n. induction l as [|x l IH]; intros [|n]; simpl; unfold id; try lia.
  apply Nat.add_le_mono_l, IH.
Qed.

Lemma sweepCost_mono g n m : n ≤ m → sweepCost g n ≤ sweepCost g m.
Proof.
  intros Hnm. unfold sweepCost.
  replace (take n (Behaviours g)) with (take n (take m (Behaviours g))).
  - apply sum_take_le.
  - rewrite take_take. f_equal. lia.
Qed.

Lemma sweepLoop_Inv t n :
  let g := dependencyGraph t in
  let ps := hierarchy (GetHierarchyStateMap g) in
  Forall (λ r, r < length ps) (rootKeys g) →
  (∀ i, i < n → ∃ b, Behaviours g !! i = Some b ∧ inRange (length ps) b = true) →
  ∀ isLive state V,
    Inv ps state V → n ≤ length isLive →
    (time state + Z.of_nat (sweepCost g n) ≤ intMax)%Z →
    ∃ state',
      sweepLoop t n (isLive, state)
      = Ok ((viewSweep g (requests t) n (isLive, V)).1, state')
      ∧ Inv ps state' (viewSweep g (requests t) n (isLive, V)).2.
Proof.
  intros g ps Hroots. induction n as [|n IH]; intros Hbs isLive state V HI Hn Hclock.
  - exists state. done.
  - destruct (Hbs n) as (b & Hb & Hrange); [lia|].
    rewrite (sweepCost_S g n b Hb) in Hclock.
    rewrite sweepLoop_S, viewSweep_S. cbv zeta. fold g ps. rewrite Hb.
    change (default emptyBehaviour (Some b)) with b.
    destruct (sweepCommand_Inv ps t n b isLive state V HI Hb Hrange Hroots)
      as (state1 & -> & HI1 & Ht1); [lia | fold g; lia |].
    change (Ok ?st ≫= sweepLoop t n) with (sweepLoop t n st).
    apply IH; [intros i Hi; apply Hbs; lia | done | rewrite length_insert; lia |].
    fold g in Ht1. lia.
Qed.

Lemma propagateLiveness_view t :
  let g := dependencyGraph t in
  let ps := hierarchy (GetHierarchyStateMap g) in
  wfSweep g (lastRequest t) = true →
  (1 + Z.of_nat (sweepCost g (lastRequest t + 1)) ≤ intMax)%Z →
  propagateLiveness t
  = Ok (viewSweep g (requests t) (lastRequest t + 1)
          (replicate (lastRequest t + 1) false, replicate (length ps) false)).1.
Proof.
  intros g ps Hwf Hclock.
  destruct (wfSweep_spec _ _ Hwf) as (Hpar & Hf & Hb & Ha & Hbs & Hroots).
  fold g ps in Hpar, Hf, Hb, Ha, Hbs, Hroots.
  unfold propagateLiveness. fold g. rewrite (newLivenessTree_spec _ Hpar). fold ps.
  simpl.
  destruct (sweepLoop_Inv t (lastRequest t + 1) Hroots) with
    (isLive := replicate (lastRequest t + 1) false)
    (state := mkTree (freshNodes ps) 1%Z)
    (V := replicate (length ps) false) as (state' & Hloop & _).
  - intros i Hi. apply Hbs. lia.
  - by apply Inv_new.
  - by rewrite length_replicate.
  - simpl. fold g. lia.
  - fold g ps in Hloop. rewrite Hloop. simpl.
    destruct (viewSweep_shape g (requests t) (lastRequest t + 1)
                (replicate (lastRequest t + 1) false) (replicate (length ps) false))
      as (Hlen & _).
    rewrite length_replicate in Hlen. rewrite Hlen.
    rewrite reportStatistics_total by (fold g; lia). done.
Qed.

(** C5. For every well-formed capture and request lists [ids] and [ids']
    with every id of [ids] in [ids'] (the marks of a sweep staying below
    2^63-1, so that the clock does not wrap), both sweeps return, and a
    command that is live for [ids] is live for [ids']. *)
Theorem sweep_monotone g ids ids' i :
  wfSweep g (max_list ids') = true →
  (1 + Z.of_nat (sweepCost g (max_list ids' + 1)) ≤ intMax)%Z →
  (∀ q, q ∈ ids → q ∈ ids') →
  ids ≠ [] →
  i ≤ max_list ids →
  ∃ isLive isLive',
    propagateLiveness (requestAll g ids) = Ok isLive
    ∧ propagateLiveness (requestAll g ids') = Ok isLive'
    ∧ (isLive !! i = Some true → isLive' !! i = Some true).
Proof.
  intros Hwf' Hclock' Hsub _ Hi.
  assert (max_list ids ≤ max_list ids') as Hlast.
  { clear -Hsub. induction ids as [|q ids IH]; simpl; [lia|].
    assert (q ≤ max_list ids') by (apply max_list_ge, Hsub; by left).
    assert (max_list ids ≤ max_list ids') by (apply IH; intros; apply Hsub; by right).
    lia. }
  destruct (wfSweep_spec _ _ Hwf') as (Hpar & Hf & Hb & Ha & Hbs & Hroots).
  set (ps := hierarchy (GetHierarchyStateMap g)) in *.
  assert (wfSweep g (max_list ids) = true) as Hwf.
  { revert Hwf'. unfold wfSweep. rewrite !andb_true_iff.
    intros ((((? & ?%bool_decide_eq_true_1) & ?%bool_decide_eq_true_1) & Hr) & ?).
    repeat split; try done; try (apply bool_decide_eq_true_2; lia).
    rewrite forallb_forall in Hr |- *. intros b Hin. apply Hr.
    apply list_elem_of_In in Hin. apply list_elem_of_In.
    apply list_elem_of_lookup in Hin as [k Hk].
    apply list_elem_of_lookup. exists k.
    pose proof (lookup_lt_Some _ _ _ Hk) as Hlt. rewrite length_take in Hlt.
    rewrite lookup_take_lt in Hk by lia. rewrite lookup_take_lt by lia. done. }
  pose proof (sweepCost_mono g (max_list ids + 1) (max_list ids' + 1)) as Hcost.
  rewrite (propagateLiveness_view (requestAll g ids));
    rewrite ?requestAll_graph, ?requestAll_last; [|done|lia].
  rewrite (propagateLiveness_view (requestAll g ids'));
    rewrite ?requestAll_graph, ?requestAll_last; [|done|lia].
  fold ps. eexists _, _. split; [done|]. split; [done|].
  replace (max_list ids' + 1) with (max_list ids + 1 + (max_list ids' - max_list ids))
    by lia.
  edestruct (viewSweep_prefix g (requests (requestAll g ids')) (max_list ids + 1))
    as (isLive0 & V0 & -> & Hl0 & HV0).
  rewrite !length_replicate in Hl0, HV0.
  apply (viewSweep_mono g); try done.
  - intros k Hk. apply Hbs. lia.
  - intros q Hq. apply requestAll_requests, Hsub. by apply requestAll_requests in Hq.
  - rewrite length_replicate. lia.
  - lia.
  - by rewrite length_replicate.
  - apply below_replicate.
  - apply upclosed_replicate.
  - lia.
Qed.
End Refinement.

Lemma sweep_monotone_witness :
  ∃ isLive isLive',
    propagateLiveness (requestAll chainGraph [1]) = Ok isLive
    ∧ propagateLiveness (requestAll chainGraph [1; 2]) = Ok isLive'
    ∧ (isLive !! 0 = Some true → isLive' !! 0 = Some true).
Proof.
  apply (sweep_monotone chainGraph [1] [1; 2] 0);
    [vm_compute; reflexivity | vm_compute; discriminate | | discriminate | simpl; lia].
  intros q Hq. apply list_elem_of_singleton in Hq as ->. by left.
Defined.

(** ** The state address map *)

Section AddressMap.
Context {Key : Type} `{Countable Key}.
Variable Parent : Key → option Key.
Implicit Types (m : @addressMapping Key _ _) (k : option Key).

Lemma addressOf_found fuel m k a :
  address m !! k = Some a → addressOf Parent fuel m k = Ok (a, m).
Proof. intros Hk. destruct fuel; simpl; by rewrite Hk. Qed.

Lemma toStateAddress_small n : (Z.of_nat n < 2 ^ 32)%Z → toStateAddress n = n.
Proof. intros Hn. unfold toStateAddress. rewrite Z.mod_small by lia. lia. Qed.

Lemma initAddressMap_inv : AddrInv (@initAddressMap Key _ _).
Proof.
  constructor; simpl.
  - intros k a [<- <-]%lookup_singleton_Some. rewrite map_size_singleton.
    unfold NullStateAddress. lia.
  - intros k1 k2 a [<- _]%lookup_singleton_Some [<- _]%lookup_singleton_Some. done.
  - apply lookup_singleton_eq.
  - apply lookup_singleton_eq.
Qed.

(** Interning keeps the invariant as long as the addresses fit 32 bits. *)
Lemma addressOf_inv fuel :
  ∀ m k a m',
    addressOf Parent fuel m k = Ok (a, m') →
    AddrInv m → (Z.of_nat (size (address m')) ≤ 2 ^ 32)%Z →
    AddrInv m'
    ∧ address m' !! k = Some a
    ∧ (∀ k' a', address m !! k' = Some a' → address m' !! k' = Some a')
    ∧ size (address m) ≤ size (address m').
Proof.
  induction fuel as [|fuel IH]; intros m k a m' Hres HI Hsize; simpl in Hres.
  - destruct (address m !! k) as [a0|] eqn:Hk; [by simplify_eq|].
    by destruct k.
  - destruct (address m !! k) as [a0|] eqn:Hk; [by simplify_eq|].
    destruct k as [sk|]; [|done].
    apply bind_Ok in Hres as ([p m2] & Hrec & Hres). simpl in Hres. simplify_eq.
    simpl in *.
    set (n := size (address m)) in *.
    set (m1 := mkAddressMapping (<[Some sk:=toStateAddress n]> (address m))
                                (<[toStateAddress n:=Some sk]> (key m)) (parentOf m)) in *.
    assert (size (address m1) = S n) as Hn1 by (by apply map_size_insert_None).
    (* the recursive call only grows the map *)
          assert (AddrInv m1 ∨ (2 ^ 32 ≤ Z.of_nat n)%Z) as [HI1|Hbig].
    { destruct (decide (Z.of_nat n < 2 ^ 32)%Z) as [Hlt|]; [left|right; lia].
      destruct HI as [Hdense Hinj Hnil Hroot].
      constructor; simpl; rewrite ?toStateAddress_small by done.
      - intros k a. rewrite map_size_insert_None by done. fold n.
        destruct (decide (k = Some sk)) as [->|Hne].
        + rewrite lookup_insert_eq. intros [= <-]. lia.
        + rewrite lookup_insert_ne by done. intros Hka%Hdense. lia.
      - intros k1 k2 a.
        destruct (decide (k1 = Some sk)) as [->|Hne1];
          destruct (decide (k2 = Some sk)) as [->|Hne2];
          rewrite ?lookup_insert_eq, ?lookup_insert_ne by done; try done.
        + intros [= <-] Hk2%Hdense. lia.
        + intros Hk1%Hdense [= <-]. lia.
        + apply Hinj.
      - by rewrite lookup_insert_ne.
      - done. }
    + destruct (IH m1 (Parent sk) p m2 Hrec HI1 Hsize) as (HI2 & Hp & Hmono & Hle).
      assert (Z.of_nat n < 2 ^ 32)%Z as Hlt by lia.
      rewrite toStateAddress_small by done.
      assert (0 < n) as Hpos.
      { destruct HI as [Hdense _ Hnil _]. by apply (Hdense None). }
      split; [|split; [|split]].
      * destruct HI2 as [Hdense Hinj Hnil Hroot]. constructor; simpl; try done.
        rewrite lookup_insert_ne by (unfold NullStateAddress; lia). done.
      * apply Hmono. simpl. by rewrite lookup_insert_eq, toStateAddress_small.
      * intros k' a' Hk'. apply Hmono. simpl.
        rewrite lookup_insert_ne by congruence. done.
      * lia.
    + (* the map is already full: excluded by the bound on the result *)
      exfalso.
      assert (∀ f m0 k0 a0 m0', addressOf Parent f m0 k0 = Ok (a0, m0') →
                size (address m0) ≤ size (address m0')) as Hgrow.
      { clear. induction f as [|f IHf]; intros m0 k0 a0 m0' Hr; simpl in Hr.
        - destruct (address m0 !! k0); [by simplify_eq|]. by destruct k0.
        - destruct (address m0 !! k0) eqn:Hk0; [by simplify_eq|].
          destruct k0 as [key0|]; [|done].
          apply bind_Ok in Hr as ([p0 m3] & Hrec0 & Hr). simpl in Hr. simplify_eq.
          apply IHf in Hrec0. simpl in *.
          rewrite map_size_insert_None in Hrec0 by done. lia. }
      apply Hgrow in Hrec. lia.
Qed.

Lemma addressOf_size fuel :
  ∀ m k a m', addressOf Parent fuel m k = Ok (a, m') →
  size (address m') ≤ size (address m) + fuel.
Proof.
  induction fuel as [|fuel IH]; intros m k a m' Hres; simpl in Hres.
  - destruct (address m !! k); [simplify_eq; lia|]. by destruct k.
  - destruct (address m !! k) eqn:Hk; [simplify_eq; lia|].
    destruct k as [sk|]; [|done].
    apply bind_Ok in Hres as ([p m2] & Hrec & Hres). simpl in Hres. simplify_eq.
    apply IH in Hrec. simpl in *.
    rewrite map_size_insert_None in Hrec by done. lia.
Qed.

(** Interning returns as soon as the parent chain reaches the nil key,
    which stays interned. *)
Lemma addressOf_total fuel :
  ∀ m k, reachesNil Parent fuel k = true → is_Some (address m !! None) →
  ∃ a m', addressOf Parent fuel m k = Ok (a, m')
    ∧ is_Some (address m' !! None).
Proof.
  induction fuel as [|fuel IH]; intros m k Hreach Hnil; simpl in *.
  - destruct k; [done|]. destruct Hnil as [a Ha]. rewrite Ha. eauto.
  - destruct (address m !! k) as [a0|] eqn:Hk; [eauto|].
    destruct k as [sk|]; [|by destruct Hnil; congruence].
    edestruct (IH (mkAddressMapping (<[Some sk:=toStateAddress (size (address m))]> (address m))
                     (<[toStateAddress (size (address m)):=Some sk]> (key m)) (parentOf m))
                  (Parent sk) Hreach) as (p & m2 & -> & Hnil2).
    { simpl. by rewrite lookup_insert_ne. }
    simpl. eauto.
Qed.

Lemma internAll_spec fuel ks :
  ∀ m, forallb (reachesNil Parent fuel) ks = true →
  AddrInv m → (Z.of_nat (size (address m) + fuel * length ks) ≤ 2 ^ 32)%Z →
  ∃ m', internAll Parent fuel m ks = Ok m' ∧ AddrInv m'
    ∧ (∀ k', is_Some (address m !! k') → is_Some (address m' !! k'))
    ∧ (∀ k', k' ∈ ks → is_Some (address m' !! k')).
Proof.
  induction ks as [|k ks IH]; intros m Hreach HI Hsize; simpl in *.
  - exists m. split; [done|]. split; [done|]. split; [done|].
    by intros k' ?%elem_of_nil.
  - apply andb_true_iff in Hreach as [Hk Hks].
    destruct (addressOf_total fuel m k Hk) as (a & m1 & Hres & _);
      [rewrite (addr_nil _ HI); eauto|].
    rewrite Hres. simpl.
    pose proof (addressOf_size _ _ _ _ _ Hres) as Hs1.
    destruct (addressOf_inv _ _ _ _ _ Hres HI) as (HI1 & Hk1 & Hmono & _); [lia|].
    destruct (IH m1 Hks HI1) as (m' & -> & HI' & Hkeep & Hin); [lia|].
    exists m'. split; [done|]. split; [done|]. split.
    + intros k' [a' Hk']. apply Hkeep. eauto.
    + intros k' [->|Hk']%elem_of_cons; [apply Hkeep; eauto | by apply Hin].
Qed.
End AddressMap.

(** ** Footprints of the nil key *)

Section Footprint.
Context {Atom : Type} {Key : Type} `{Countable Key}.
Variable Parent : Key → option Key.

(** C10. [Read], [Modify] and [Write] with the nil state key return the
    behaviour and the graph (hence its address map) as they were. *)
Theorem nil_key_is_no_op fuel (b : AtomBehaviour) (g : @DependencyGraph Atom Key _ _) :
  Read Parent fuel b g None = Ok (b, g)
  ∧ Modify Parent fuel b g None = Ok (b, g)
  ∧ Write Parent fuel b g None = Ok (b, g).
Proof. done. Qed.
End Footprint.

(** ** Building the graph *)

Section Resolve.
Context {Atom : Type} {Key : Type} `{Countable Key}.
Context {State Api : Type} `{EqDecision Api}.
Variable API : Atom → Api.
Variable Mutate : Atom → State → State * option error.
Variable GetProvider : Api → option (@BehaviourProvider Atom Key _ _ State).

(** When an atom of an API without provider fails to mutate, the loop
    of [Resolve] returns at once, and what it returns is a behaviour. *)
Lemma resolveLoop_abort a atoms i g s s' err b :
  GetProvider (API a) = None →
  Behaviours g !! i = Some b →
  Mutate a s = (s', Some err) →
  resolveLoop API Mutate GetProvider (a :: atoms) i g s []
  = Ok (Some (IsBehaviour (mkBehaviour [] [] [] [] false true)), None).
Proof.
  intros Hprov Hb Hmut. simpl. rewrite Hprov.
  rewrite (idx_Ok _ _ _ Hb). simpl. unfold setBehaviour.
  rewrite (idx_Ok _ _ _ Hb). simpl. by rewrite Hmut.
Qed.
End Resolve.

(** C4 (code defect). Atom 1 of the capture [0; 1; 2] fails to mutate with
    an error that is not a cancellation.  [Resolve] returns the value
    [AtomBehaviour{Aborted: true}] with a nil error instead of recording it
    in [Behaviours[1]] and going on to atom 2; the type assertion of
    [GetDependencyGraph] then panics. *)
Theorem Resolve_abort_ends_build :
  Resolve (λ _, 0) failingMutate noProvider failingCapture
  = Ok (Some (IsBehaviour (mkBehaviour [] [] [] [] false true)), None)
  ∧ GetDependencyGraph (λ _, 0) failingMutate noProvider failingCapture
    = Panic "interface conversion".
Proof. split; vm_compute; reflexivity. Qed.

(** ** The scenarios of the specification *)

(** S1: three independent writes, the last one requested. *)
Example scenario_pass_through :
  propagateLiveness (requestAll
    (graphOf (flatParents 4)
       [behaviour [] [] [1] false false; behaviour [] [] [2] false false;
        behaviour [] [] [3] false false] []) [2])
  = Ok [false; false; true].
Proof. vm_compute. reflexivity. Qed.

(** S2: a chain of reads and writes up to the root. *)
Example scenario_chain :
  propagateLiveness (requestAll chainGraph [2]) = Ok [true; true; true].
Proof. vm_compute. reflexivity. Qed.

(** S3: a complete overwrite kills the earlier write. *)
Example scenario_kill :
  propagateLiveness (requestAll
    (graphOf (flatParents 2)
       [behaviour [] [] [1] false false; behaviour [] [] [1] false false;
        behaviour [1] [] [] false false] []) [2])
  = Ok [false; true; true].
Proof. vm_compute. reflexivity. Qed.

(** S4: a modification keeps the earlier write. *)
Example scenario_modify :
  propagateLiveness (requestAll
    (graphOf (flatParents 2)
       [behaviour [] [] [1] false false; behaviour [] [1] [] false false;
        behaviour [1] [] [] false false] []) [2])
  = Ok [true; true; true].
Proof. vm_compute. reflexivity. Qed.

(** S5: a write to the parent 1 is kept alive by a read of its child 2. *)
Example scenario_hierarchy :
  propagateLiveness (requestAll
    (graphOf {[ 0 := 0; 1 := 0; 2 := 1; 3 := 1 ]}
       [behaviour [] [] [1] false false; behaviour [2] [] [] false false] []) [1])
  = Ok [true; true].
Proof. vm_compute. reflexivity. Qed.

(** S6: an aborted command stays dead. *)
Example scenario_aborted :
  propagateLiveness (requestAll
    (graphOf (flatParents 2)
       [behaviour [] [] [] false true; behaviour [1] [] [] false false] [1]) [1])
  = Ok [false; true].
Proof. vm_compute. reflexivity. Qed.

(** A capture of two atoms without provider that mutate without error:
    the graph keeps both alive. *)
Example Resolve_keeps_alive :
  Resolve (Key := nat) (λ _ : nat, 0) (λ (_ : nat) (s : nat), (s, None)) noProvider
          (inl (mkCapture [7; 8] 0))
  = Ok (Some (IsGraph (mkGraph [7; 8]
                         [mkBehaviour [] [] [] [] true false;
                          mkBehaviour [] [] [] [] true false]
                         ∅ initAddressMap)), None).
Proof. reflexivity. Qed.

(** * Further properties *)

(** ** The three maps of the address map *)

Section AddressMapFacts.
Context {Key : Type} `{Countable Key}.
Variable Parent : Key → option Key.
Implicit Types (m : @addressMapping Key _ _) (k : option Key).

(** Interning only adds: the key asked for has the address returned, and
    no key loses or changes its address.  This needs no bound. *)
Lemma addressOf_keeps fuel :
  ∀ m k a m', addressOf Parent fuel m k = Ok (a, m') →
  address m' !! k = Some a
  ∧ (∀ k' a', address m !! k' = Some a' → address m' !! k' = Some a')
  ∧ size (address m) ≤ size (address m').
Proof.
  induction fuel as [|fuel IH]; intros m k a m' Hres; simpl in Hres.
  - destruct (address m !! k) as [a0|] eqn:Hk; [by simplify_eq|]. by destruct k.
  - destruct (address m !! k) as [a0|] eqn:Hk; [by simplify_eq|].
    destruct k as [sk|]; [|done].
    apply bind_Ok in Hres as ([p m2] & Hrec & Hres). simpl in Hres. simplify_eq.
    apply IH in Hrec as (_ & Hmono & Hsize). simpl in *.
    rewrite map_size_insert_None in Hsize by done.
    split; [|split].
    + apply Hmono. by rewrite lookup_insert_eq.
    + intros k' a' Hk'. apply Hmono. rewrite lookup_insert_ne; [done|congruence].
    + lia.
Qed.

Lemma initAddressMap_wf : AddrWf Parent [] (@initAddressMap Key _ _).
Proof.
  constructor; simpl.
  - intros k a [<- <-]%lookup_singleton_Some. rewrite map_size_singleton.
    unfold NullStateAddress. lia.
  - intros a. rewrite map_size_singleton. intros Ha.
    assert (a = NullStateAddress) as -> by (unfold NullStateAddress; lia).
    rewrite lookup_singleton_eq. eauto.
  - intros k a. rewrite !lookup_singleton_Some. split; intros [-> ->]; done.
  - apply lookup_singleton_eq.
  - apply lookup_singleton_eq.
  - by intros sk ?%elem_of_nil.
  - intros sk a [[=] _]%lookup_singleton_Some.
  - intros a [p [<- _]%lookup_singleton_Some]. exists None.
    rewrite lookup_singleton_eq. split; [done|]. by intros sk [=].
Qed.


Lemma addressOf_wf fuel :
  ∀ pending m k a m',
    addressOf Parent fuel m k = Ok (a, m') →
    AddrWf Parent pending m → (Z.of_nat (size (address m')) ≤ 2 ^ 32)%Z →
    AddrWf Parent pending m'.
Proof.
  induction fuel as [|fuel IH]; intros pending m k a m' Hres Hwf Hsize;
    simpl in Hres.
  - destruct (address m !! k) as [a0|] eqn:Hk; [by simplify_eq|]. by destruct k.
  - destruct (address m !! k) as [a0|] eqn:Hk; [by simplify_eq|].
    destruct k as [sk|]; [|done].
    apply bind_Ok in Hres as ([p m2] & Hrec & Hres). simpl in Hres. simplify_eq.
    set (n := size (address m)) in *.
    set (m1 := mkAddressMapping (<[Some sk:=toStateAddress n]> (address m))
                  (<[toStateAddress n:=Some sk]> (key m)) (parentOf m)) in *.
    destruct (addressOf_keeps _ _ _ _ _ Hrec) as (Hp & Hmono & Hgrow).
    simpl in Hsize, Hgrow, Hmono.
    rewrite map_size_insert_None in Hgrow by done. fold n in Hgrow.
    assert (toStateAddress n = n) as Hn by (apply toStateAddress_small; lia).
    rewrite Hn in *.
    assert (sk ∉ pending) as Hfresh.
    { intros Hin. destruct (wf_pending _ _ _ Hwf sk Hin) as [? ?]. congruence. }
    assert (key m !! n = None) as Hkn.
    { destruct (key m !! n) as [k0|] eqn:Hk0; [|done].
      apply (wf_key _ _ _ Hwf) in Hk0. apply (wf_dense _ _ _ Hwf) in Hk0. lia. }
    assert (0 < n) as Hpos by (apply (wf_dense _ _ _ Hwf None), (wf_nil _ _ _ Hwf)).
    assert (AddrWf Parent (sk :: pending) m1) as Hwf1.
    { destruct Hwf as [Hdense Honto Hkey Hnil Hroot Hpend Hpar Hdom].
      constructor; simpl; rewrite ?Hn, ?map_size_insert_None by done; fold n.
      - intros k a. destruct (decide (k = Some sk)) as [->|Hne].
        + rewrite lookup_insert_eq. intros [= <-]. lia.
        + rewrite lookup_insert_ne by done. intros Hka%Hdense. lia.
      - intros a Ha. destruct (decide (a = n)) as [->|Hne].
        + rewrite lookup_insert_eq. eauto.
        + rewrite lookup_insert_ne by done. apply Honto. lia.
      - intros k a. destruct (decide (a = n)) as [->|Hne].
        + rewrite lookup_insert_eq.
          destruct (decide (k = Some sk)) as [->|Hnk].
          * by rewrite lookup_insert_eq.
          * rewrite lookup_insert_ne by done. split; [congruence|].
            intros Hka%Hdense. lia.
        + rewrite lookup_insert_ne by done.
          destruct (decide (k = Some sk)) as [->|Hnk].
          * rewrite lookup_insert_eq. rewrite Hkey. split; [congruence|]. intros [=]. lia.
          * rewrite lookup_insert_ne by done. apply Hkey.
      - by rewrite lookup_insert_ne.
      - done.
      - intros sk' [->|Hin]%elem_of_cons.
        + rewrite lookup_insert_eq. eauto.
        + rewrite lookup_insert_ne; [by apply Hpend|]. intros [= ->]. done.
      - intros sk' a Ha [Hne Hnp]%not_elem_of_cons.
        rewrite lookup_insert_ne in Ha by congruence.
        destruct (Hpar sk' a Ha Hnp) as (p' & Hp' & Hpa). exists p'. split; [|done].
        rewrite lookup_insert_ne; [done|]. congruence.
      - intros a Ha. destruct (Hdom a Ha) as (k & Hka & Hnp).
        assert (a ≠ n) as Hne by congruence.
        exists k. rewrite lookup_insert_ne by done. split; [done|].
        intros sk' ->. apply not_elem_of_cons. split; [|by apply Hnp].
        intros ->. apply Hkey in Hka. congruence. }
    assert (AddrWf Parent (sk :: pending) m2) as Hwf2 by (by eapply IH).
    assert (address m2 !! Some sk = Some n) as Hsk.
    { apply Hmono. by rewrite lookup_insert_eq. }
    destruct Hwf2 as [Hdense Honto Hkey Hnil Hroot Hpend Hpar Hdom].
    constructor; simpl; try done.
    + rewrite lookup_insert_ne; [done|]. unfold NullStateAddress. lia.
    + intros sk' Hin. apply Hpend. by right.
    + intros sk' a Ha Hnp. destruct (decide (sk' = sk)) as [->|Hne].
      * assert (a = n) as -> by congruence.
        exists p. by rewrite lookup_insert_eq.
      * destruct (Hpar sk' a Ha) as (p' & Hp' & Hpa);
          [by apply not_elem_of_cons|].
        exists p'. split; [done|]. rewrite lookup_insert_ne; [done|].
        intros <-. apply Hne. apply Hkey in Ha, Hsk. congruence.
    + intros a Ha. destruct (decide (a = n)) as [->|Hne].
      * exists (Some sk). split; [by apply Hkey|]. by intros ? [= <-].
      * rewrite lookup_insert_ne in Ha by done.
        destruct (Hdom a Ha) as (k & Hka & Hnp). exists k. split; [done|].
        intros sk' ->. specialize (Hnp sk' eq_refl).
        by apply not_elem_of_cons in Hnp as [_ ?].
Qed.

Lemma reachesNil_parent d sk :
  reachesNil Parent d (Some sk) = true → ∃ d', reachesNil Parent d' (Parent sk) = true.
Proof. destruct d as [|d]; simpl; [done|]. eauto. Qed.

Lemma addressOf_reach fuel :
  ∀ m k a m', addressOf Parent fuel m k = Ok (a, m') →
  AllReach Parent m → (∃ d, reachesNil Parent d k = true) → AllReach Parent m'.
Proof.
  induction fuel as [|fuel IH]; intros m k a m' Hres Hall Hk; simpl in Hres.
  - destruct (address m !! k) as [a0|] eqn:Hk0; [by simplify_eq|]. by destruct k.
  - destruct (address m !! k) as [a0|] eqn:Hk0; [by simplify_eq|].
    destruct k as [sk|]; [|done].
    apply bind_Ok in Hres as ([p m2] & Hrec & Hres). simpl in Hres. simplify_eq.
    destruct Hk as [d Hd].
    apply IH in Hrec; [done| |by eapply reachesNil_parent].
    intros k' [a' Ha']. simpl in Ha'.
    destruct (decide (k' = Some sk)) as [->|Hne]; [eauto|].
    rewrite lookup_insert_ne in Ha' by done. apply Hall. eauto.
Qed.

Lemma initAddressMap_reach : AllReach Parent (@initAddressMap Key _ _).
Proof.
  intros k [a Ha]. simpl in Ha. apply lookup_singleton_Some in Ha as [<- _].
  by exists 0.
Qed.

(** Any number of successful calls keeps the maps well-formed. *)
Lemma internAll_wf fuel ks :
  ∀ m m', internAll Parent fuel m ks = Ok m' →
  AddrWf Parent [] m → (Z.of_nat (size (address m')) ≤ 2 ^ 32)%Z →
  AddrWf Parent [] m'
  ∧ (∀ k a, address m !! k = Some a → address m' !! k = Some a)
  ∧ size (address m) ≤ size (address m').
Proof.
  induction ks as [|k ks IH]; intros m m' Hres Hwf Hsize; simpl in Hres.
  - by simplify_eq.
  - apply bind_Ok in Hres as ([a m1] & Hk & Hres). simpl in Hres.
    destruct (addressOf_keeps _ _ _ _ _ Hk) as (_ & Hmono1 & Hs1).
    assert (∀ ks' m1 m2, internAll Parent fuel m1 ks' = Ok m2 →
              size (address m1) ≤ size (address m2)) as Hgrow.
    { clear. induction ks' as [|k' ks' IHk]; intros m1 m2 Hr; simpl in Hr;
        [by simplify_eq|].
      apply bind_Ok in Hr as ([a1 m3] & Hk1 & Hr). simpl in Hr.
      destruct (addressOf_keeps _ _ _ _ _ Hk1) as (_ & _ & ?).
      apply IHk in Hr. lia. }
    pose proof (Hgrow _ _ _ Hres) as Hs2.
    destruct (IH m1 m' Hres) as (Hwf' & Hmono2 & _); [|done|].
    { eapply addressOf_wf; [done | done | lia]. }
    split; [done|]. split; [|lia]. eauto.
Qed.

Lemma internAll_reach fuel ks :
  ∀ m m', internAll Parent fuel m ks = Ok m' →
  forallb (reachesNil Parent fuel) ks = true →
  AllReach Parent m → AllReach Parent m'.
Proof.
  induction ks as [|k ks IH]; intros m m' Hres Hks Hall; simpl in *.
  - by simplify_eq.
  - apply bind_Ok in Hres as ([a m1] & Hk & Hres). simpl in Hres.
    apply andb_true_iff in Hks as [Hk1 Hks].
    eapply IH; [done | done |]. eapply addressOf_reach; eauto.
Qed.

(** *** What a well-formed address map says about its parent map *)

Lemma AddrWf_parent_dom m a :
  AddrWf Parent [] m → is_Some (parentOf m !! a) ↔ a < size (address m).
Proof.
  intros Hwf. split.
  - intros Ha. destruct (wf_parent_dom _ _ _ Hwf a Ha) as (k & Hk & _).
    apply (wf_key _ _ _ Hwf) in Hk. by eapply wf_dense.
  - intros Ha. destruct (wf_onto _ _ _ Hwf a Ha) as [k Hk].
    apply (wf_key _ _ _ Hwf) in Hk. destruct k as [sk|].
    + destruct (wf_parent _ _ _ Hwf sk a Hk) as (p & _ & Hp);
        [by intros ?%elem_of_nil | eauto].
    + assert (a = NullStateAddress) as ->.
      { pose proof (wf_nil _ _ _ Hwf). congruence. }
      rewrite (wf_root _ _ _ Hwf). eauto.
Qed.

Lemma AddrWf_parent_value m a p :
  AddrWf Parent [] m → parentOf m !! a = Some p → p < size (address m).
Proof.
  intros Hwf Hp.
  destruct (wf_parent_dom _ _ _ Hwf a) as (k & Hk & _); [eauto|].
  apply (wf_key _ _ _ Hwf) in Hk. destruct k as [sk|].
  - destruct (wf_parent _ _ _ Hwf sk a Hk) as (p' & Hp' & Hpa);
      [by intros ?%elem_of_nil|].
    assert (p' = p) as -> by congruence. by eapply wf_dense.
  - assert (a = NullStateAddress) as ->.
    { pose proof (wf_nil _ _ _ Hwf). congruence. }
    rewrite (wf_root _ _ _ Hwf) in Hp. injection Hp as <-.
    by eapply wf_dense, wf_nil.
Qed.

Lemma dense_map_size {A} (M : gmap nat A) n :
  (∀ a, is_Some (M !! a) ↔ a < n) → size M = n.
Proof.
  intros Hdom. rewrite <-size_dom.
  assert (dom M = set_seq 0 n) as ->; [|apply size_set_seq].
  apply set_eq. intros a. rewrite elem_of_dom, elem_of_set_seq, Hdom. lia.
Qed.

Lemma AddrWf_parent_size m :
  AddrWf Parent [] m → size (parentOf m) = size (address m).
Proof. intros Hwf. apply dense_map_size. intros a. by apply AddrWf_parent_dom. Qed.
End AddressMapFacts.

(** ** Forests *)

Lemma path_NoDup ps a l : path ps a l → NoDup (a :: l).
Proof.
  induction 1 as [a Ha | a p l Ha Hp IH].
  - apply NoDup_singleton.
  - apply NoDup_cons. split; [|done]. eapply path_acyclic. by econstructor.
Qed.

(** A parent chain visits every node at most once. *)
Lemma path_bound ps a l : path ps a l → length l < length ps.
Proof.
  intros Hp.
  assert (a :: l ⊆+ seq 0 (length ps)) as Hsub.
  { apply NoDup_submseteq; [by eapply path_NoDup|].
    intros x Hx. apply elem_of_seq.
    destruct (path_elem_self _ _ _ _ Hp Hx) as (l1 & l2 & _ & Hpx).
    pose proof (path_lt _ _ _ Hpx). lia. }
  apply submseteq_length in Hsub. rewrite length_seq in Hsub. simpl in Hsub. lia.
Qed.

Lemma forestb_intro ps :
  (∀ a, a < length ps → ∃ l, path ps a l) → forestb ps = true.
Proof.
  intros Hall. unfold forestb. apply forallb_forall. intros a Ha%in_seq.
  apply bool_decide_eq_true_2. destruct (Hall a) as [l Hp]; [lia|].
  exists l. apply path_chain; [done|]. pose proof (path_bound _ _ _ Hp). lia.
Qed.

Lemma hierarchy_lookup parents a :
  a < size parents → hierarchy parents !! a = Some (linkOf parents a).
Proof.
  intros Ha. unfold hierarchy, linkOf.
  by rewrite list_lookup_fmap, lookup_seq_lt.
Qed.

Section AddressMapForest.
Context {Key : Type} `{Countable Key}.
Variable Parent : Key → option Key.
Implicit Types (m : @addressMapping Key _ _) (k : option Key).

Lemma AddrWf_path m d :
  AddrWf Parent [] m →
  ∀ a k, key m !! a = Some k → reachesNil Parent d k = true →
  ∃ l, path (hierarchy (parentOf m)) a l.
Proof.
  intros Hwf. induction d as [|d IH]; intros a k Hk Hd.
  - destruct k as [sk|]; [simpl in Hd; done|].
    apply (wf_key _ _ _ Hwf) in Hk.
    assert (a = NullStateAddress) as -> by (pose proof (wf_nil _ _ _ Hwf); congruence).
    exists []. apply path_root. rewrite hierarchy_lookup.
    + unfold linkOf. rewrite (wf_root _ _ _ Hwf). by rewrite decide_True.
    + rewrite (AddrWf_parent_size Parent m Hwf). by eapply wf_dense, wf_nil.
  - destruct k as [sk|].
    + simpl in Hd. pose proof Hk as Hka. apply (wf_key _ _ _ Hwf) in Hka.
      destruct (wf_parent _ _ _ Hwf sk a Hka) as (p & Hp & Hpa);
        [by intros ?%elem_of_nil|].
      assert (hierarchy (parentOf m) !! a
              = Some (if decide (p = NullStateAddress) then None else Some p)) as Hlink.
      { rewrite hierarchy_lookup.
        - unfold linkOf. by rewrite Hpa.
        - rewrite (AddrWf_parent_size Parent m Hwf). by eapply wf_dense. }
      destruct (decide (p = NullStateAddress)) as [->|Hne].
      * exists []. by apply path_root.
      * destruct (IH p (Parent sk)) as [l Hl]; [by apply (wf_key _ _ _ Hwf) | done |].
        exists (p :: l). by apply path_step.
    + apply (IH a None); [done | by destruct d].
Qed.

(** The parent map of a well-formed address map whose keys all reach the
    nil key is what [newLivenessTree] expects. *)
Lemma AddrWf_wfParents m :
  AddrWf Parent [] m → AllReach Parent m → wfParents (parentOf m) = true.
Proof.
  intros Hwf Hall. unfold wfParents. apply andb_true_iff. split.
  - apply forallb_forall. intros [a p] Hin%list_elem_of_In%elem_of_map_to_list.
    apply bool_decide_eq_true_2. simpl.
    rewrite (AddrWf_parent_size Parent m Hwf). split.
    + apply (AddrWf_parent_dom Parent m a Hwf). eauto.
    + by eapply AddrWf_parent_value.
  - apply forestb_intro. intros a Ha.
    rewrite hierarchy_length, (AddrWf_parent_size Parent m Hwf) in Ha.
    destruct (wf_onto _ _ _ Hwf a Ha) as [k Hk].
    destruct (Hall k) as [d Hd].
    { exists a. by apply (wf_key _ _ _ Hwf). }
    by eapply AddrWf_path.
Qed.
End AddressMapForest.

(** ** The liveness tree: construction *)

Lemma linkParent_fold_cases (parents : gmap nat nat) (n : nat) :
  (linkable n parents
   ∧ map_fold linkParent (Ok (replicate n zeroNode)) parents
     = Ok (freshNodes (linkOf parents <$> seq 0 n)))
  ∨ (¬ linkable n parents
     ∧ map_fold linkParent (Ok (replicate n zeroNode)) parents
       = Panic "index out of range").
Proof.
  apply (map_fold_weak_ind
    (λ r m, (linkable n m ∧ r = Ok (freshNodes (linkOf m <$> seq 0 n)))
            ∨ (¬ linkable n m ∧ r = Panic "index out of range"))).
  - left. split; [by intros a p ?%lookup_empty_Some|].
    f_equal. apply list_eq. intros a.
    unfold freshNodes. rewrite !list_lookup_fmap.
    destruct (decide (a < n)) as [Ha|Ha].
    + rewrite lookup_replicate_2, lookup_seq_lt by done. simpl.
      unfold linkOf. by rewrite lookup_empty.
    + rewrite lookup_seq_ge by lia. simpl. apply lookup_replicate_None. lia.
  - intros i x m r Hi [[Hgood ->]|[Hbad ->]].
    2:{ right. split; [|done]. intros Hgood. apply Hbad.
        intros a p Hap. apply Hgood. rewrite lookup_insert_ne; [done|congruence]. }
    assert (∀ a, a ≠ i → linkOf (<[i:=x]> m) a = linkOf m a) as Hother.
    { intros a Ha. unfold linkOf. by rewrite lookup_insert_ne. }
    assert (linkOf (<[i:=x]> m) i = if decide (x = NullStateAddress) then None else Some x)
      as Hself.
    { unfold linkOf. by rewrite lookup_insert_eq. }
    assert (linkOf m i = None) as Hold by (unfold linkOf; by rewrite Hi).
    assert (∀ j, j < n →
      freshNodes (linkOf m <$> seq 0 n) !! j = Some (mkNode false false 0 (linkOf m j)))
      as Hlook.
    { intros j Hj. unfold freshNodes. rewrite !list_lookup_fmap, lookup_seq_lt by done. done. }
    assert (length (freshNodes (linkOf m <$> seq 0 n)) = n) as Hlen.
    { unfold freshNodes. by rewrite !length_fmap, length_seq. }
    unfold linkParent. simpl.
    destruct (decide (x = NullStateAddress)) as [Hx|Hx].
    + left. split.
      * intros a p. destruct (decide (a = i)) as [->|Hne].
        -- rewrite lookup_insert_eq. intros [= <-]. done.
        -- rewrite lookup_insert_ne by done. apply Hgood.
      * f_equal. f_equal. apply list_fmap_ext. intros k a Hka.
        destruct (decide (a = i)) as [->|Hne]; [|by rewrite Hother].
        rewrite Hself, Hold. by rewrite ?decide_True.
    + destruct (decide (i < n ∧ x < n)) as [[Hin Hxn]|Hout].
      * left. split.
        { intros a p. destruct (decide (a = i)) as [->|Hne].
          - rewrite lookup_insert_eq. intros [= <-]. done.
          - rewrite lookup_insert_ne by done. apply Hgood. }
        rewrite (idx_Ok _ _ _ (Hlook i Hin)). simpl.
        rewrite (idx_Ok _ _ _ (Hlook x Hxn)). simpl.
        f_equal. apply list_eq. intros a.
        destruct (decide (a = i)) as [->|Hne].
        -- rewrite list_lookup_insert_eq by (rewrite Hlen; lia).
           unfold freshNodes. rewrite !list_lookup_fmap, lookup_seq_lt by done. simpl.
           rewrite Hself. by rewrite ?decide_False.
        -- rewrite list_lookup_insert_ne by done.
           unfold freshNodes. rewrite !list_lookup_fmap.
           destruct (seq 0 n !! a) as [k|] eqn:Hk; simpl; [|done].
           apply lookup_seq in Hk as [-> _]. simpl. by rewrite Hother.
      * right. split.
        { intros Hgood'. apply Hout. apply (Hgood' i x); [by rewrite lookup_insert_eq|done]. }
        destruct (decide (i < n)) as [Hin|Hin].
        -- rewrite (idx_Ok _ _ _ (Hlook i Hin)). simpl.
           assert (length (freshNodes (linkOf m <$> seq 0 n)) ≤ x) as Hge
             by (rewrite Hlen; lia).
           by rewrite (idx_ge _ _ Hge).
        -- assert (length (freshNodes (linkOf m <$> seq 0 n)) ≤ i) as Hge
             by (rewrite Hlen; lia).
           by rewrite (idx_ge _ _ Hge).
Qed.

(** X1. [newLivenessTree] returns exactly when every entry whose parent is
    not the null address has its address and its parent below
    [len(parents)]; it then returns the unmarked nodes of the hierarchy at
    time 1, and otherwise it panics with an index out of range. *)
Theorem newLivenessTree_returns_iff (parents : gmap nat nat) :
  (linkable (size parents) parents
   ∧ newLivenessTree parents = Ok (mkTree (freshNodes (hierarchy parents)) 1%Z))
  ∨ (¬ linkable (size parents) parents
     ∧ newLivenessTree parents = Panic "index out of range").
Proof.
  unfold newLivenessTree.
  destruct (linkParent_fold_cases parents (size parents)) as [[Hgood ->]|[Hbad ->]].
  - left. done.
  - right. done.
Qed.

(** X2. On a well-formed parent map the new tree has one node per address,
    the clock at 1, and no address is live. *)
Theorem newLivenessTree_all_dead (parents : gmap nat nat) (a : nat) :
  wfParents parents = true →
  a < size parents →
  ∃ t, newLivenessTree parents = Ok t
    ∧ length (nodes t) = size parents
    ∧ time t = 1%Z
    ∧ IsLive t a = Ok false.
Proof.
  intros Hwf Ha. destruct (wfParents_bounds _ Hwf) as [_ Hf].
  rewrite (newLivenessTree_spec _ Hwf). eexists. split; [done|]. simpl.
  split; [|split; [done|]].
  - unfold freshNodes. by rewrite length_fmap, hierarchy_length.
  - apply IsLive_fresh; [done | by rewrite hierarchy_length].
Qed.

Lemma newLivenessTree_all_dead_witness :
  ∃ t, newLivenessTree tree3 = Ok t
    ∧ length (nodes t) = size tree3
    ∧ time t = 1%Z
    ∧ IsLive t 2 = Ok false.
Proof.
  apply (newLivenessTree_all_dead tree3 2); [vm_compute; reflexivity | vm_compute; lia].
Defined.

(** ** The liveness tree: laws of the marks *)

(** A tree reached from a fresh one by marks satisfies the invariant. *)
Lemma reached_Inv parents ops :
  wfParents parents = true →
  forallb (λ op, bool_decide (target op < size parents)) ops = true →
  (1 + Z.of_nat (length ops) ≤ intMax)%Z →
  ∃ t, newLivenessTree parents ≫= (λ t0, applyMarks t0 ops) = Ok t
    ∧ Inv (hierarchy parents) t (viewLabel (hierarchy parents) ops)
    ∧ upclosed (hierarchy parents) (viewLabel (hierarchy parents) ops)
    ∧ time t = (1 + Z.of_nat (length ops))%Z.
Proof.
  intros Hwf Hops Hlen.
  pose proof (wfParents_bounds _ Hwf) as [_ Hf].
  set (ps := hierarchy parents) in *.
  assert (length ps = size parents) as Hps by apply hierarchy_length.
  assert (Forall (λ op, target op < length ps) ops) as Hops'.
  { apply Forall_forall. intros op Hop. rewrite forallb_forall in Hops.
    rewrite Hps. apply list_elem_of_In in Hop. by apply Hops, bool_decide_eq_true_1 in Hop. }
  rewrite (newLivenessTree_spec _ Hwf). fold ps. simpl.
  destruct (applyMarks_Inv ps ops _ _ (Inv_new ps Hf) Hops') as (t & Ht & HI & Htime);
    [simpl; lia|].
  exists t. split; [done|]. split; [done|]. split; [|done].
  destruct (labels_related ps ops Hf Hops' (replicate (length ps) false)
              (replicate (length ps) false)) as (_ & Hup & _);
    [by rewrite length_replicate | by rewrite length_replicate
    | apply below_replicate | apply upclosed_replicate |].
  done.
Qed.

(** X3. After [MarkLive x] on a tree reached by marks, [IsLive] is true on
    the subtree of [x] and on every ancestor of [x], and is what it was at
    every other address. *)
Theorem MarkLive_law parents ops x a :
  wfParents parents = true →
  forallb (λ op, bool_decide (target op < size parents)) ops = true →
  (2 + Z.of_nat (length ops) ≤ intMax)%Z →
  x < size parents → a < size parents →
  ∃ t t' b,
    newLivenessTree parents ≫= (λ t0, applyMarks t0 ops) = Ok t
    ∧ IsLive t a = Ok b
    ∧ MarkLive t x = Ok t'
    ∧ IsLive t' a
      = Ok (if inSubtree (hierarchy parents) x a || inSubtree (hierarchy parents) a x
            then true else b).
Proof.
  intros Hwf Hops Hlen Hx Ha.
  destruct (reached_Inv parents ops Hwf Hops) as (t & Ht & HI & _ & Htime); [lia|].
  pose proof (hierarchy_length parents) as Hps.
  destruct (IsLive_Inv _ t _ a HI) as (b & Hb & HL); [lia|].
  destruct (MarkLive_Inv _ t _ x HI) as (t' & Ht' & HI' & _); [lia | lia |].
  destruct (IsLive_Inv _ t' _ a HI') as (b' & Hb' & HL'); [lia|].
  exists t, t', b. do 3 (split; [done|]). rewrite HL'. f_equal.
  rewrite view_lookup_live, Hb in Hb'. simpl in Hb'. by injection Hb' as <-.
Qed.

Lemma MarkLive_law_witness :
  ∃ t t' b,
    newLivenessTree tree3 ≫= (λ t0, applyMarks t0 [markLive 1; markDead 1]) = Ok t
    ∧ IsLive t 1 = Ok b
    ∧ MarkLive t 2 = Ok t'
    ∧ IsLive t' 1
      = Ok (if inSubtree (hierarchy tree3) 2 1 || inSubtree (hierarchy tree3) 1 2
            then true else b).
Proof.
  apply (MarkLive_law tree3 [markLive 1; markDead 1] 2 1);
    [vm_compute; reflexivity | vm_compute; reflexivity | vm_compute; discriminate
    | vm_compute; lia | vm_compute; lia].
Defined.

(** X4. After [MarkDead x] on a tree reached by marks, [IsLive] is false on
    the subtree of [x] and is what it was at every other address, the
    ancestors of [x] included. *)
Theorem MarkDead_law parents ops x a :
  wfParents parents = true →
  forallb (λ op, bool_decide (target op < size parents)) ops = true →
  (2 + Z.of_nat (length ops) ≤ intMax)%Z →
  x < size parents → a < size parents →
  ∃ t t' b,
    newLivenessTree parents ≫= (λ t0, applyMarks t0 ops) = Ok t
    ∧ IsLive t a = Ok b
    ∧ MarkDead t x = Ok t'
    ∧ IsLive t' a = Ok (if inSubtree (hierarchy parents) x a then false else b).
Proof.
  intros Hwf Hops Hlen Hx Ha.
  destruct (reached_Inv parents ops Hwf Hops) as (t & Ht & HI & _ & Htime); [lia|].
  pose proof (hierarchy_length parents) as Hps.
  destruct (IsLive_Inv _ t _ a HI) as (b & Hb & HL); [lia|].
  destruct (MarkDead_Inv _ t _ x HI) as (t' & Ht' & HI' & _); [lia | lia |].
  destruct (IsLive_Inv _ t' _ a HI') as (b' & Hb' & HL'); [lia|].
  exists t, t', b. do 3 (split; [done|]). rewrite HL'. f_equal.
  rewrite view_lookup_dead, Hb in Hb'. simpl in Hb'. by injection Hb' as <-.
Qed.

Lemma MarkDead_law_witness :
  ∃ t t' b,
    newLivenessTree tree3 ≫= (λ t0, applyMarks t0 [markLive 2]) = Ok t
    ∧ IsLive t 2 = Ok b
    ∧ MarkDead t 1 = Ok t'
    ∧ IsLive t' 2 = Ok (if inSubtree (hierarchy tree3) 1 2 then false else b).
Proof.
  apply (MarkDead_law tree3 [markLive 2] 1 2);
    [vm_compute; reflexivity | vm_compute; reflexivity | vm_compute; discriminate
    | vm_compute; lia | vm_compute; lia].
Defined.

(** X5. On a tree reached by marks liveness is closed upwards: [IsLive]
    returns at an address and at each of its ancestors, and when it reports
    the address as live it reports the ancestor as live. *)
Theorem IsLive_upwards parents ops a p :
  wfParents parents = true →
  forallb (λ op, bool_decide (target op < size parents)) ops = true →
  (1 + Z.of_nat (length ops) ≤ intMax)%Z →
  a < size parents →
  p ∈ ancestors (hierarchy parents) a →
  ∃ t (b bp : bool),
    newLivenessTree parents ≫= (λ t0, applyMarks t0 ops) = Ok t
    ∧ IsLive t a = Ok b
    ∧ IsLive t p = Ok bp
    ∧ (b = true → bp = true).
Proof.
  intros Hwf Hops Hlen Ha Hp.
  destruct (reached_Inv parents ops Hwf Hops Hlen) as (t & Ht & HI & Hup & _).
  pose proof (hierarchy_length parents) as Hps.
  pose proof (wfParents_bounds _ Hwf) as [_ Hf].
  destruct (forestb_path _ a Hf) as (l & Hpath & _ & Hanc); [lia|].
  rewrite Hanc in Hp.
  destruct (IsLive_Inv _ t _ a HI) as (b & Hb & HLa); [lia|].
  destruct (path_elem _ _ _ _ Hpath Hp) as (_ & lp & _ & Hpp).
  destruct (IsLive_Inv _ t _ p HI) as (bp & Hbp & HLp); [by eapply path_lt|].
  exists t, b, bp. do 3 (split; [done|]).
  intros ->. rewrite (Hup a l p Hpath Hp Hb) in Hbp. by injection Hbp as <-.
Qed.

(** After [MarkLive 2] on the chain 2 -> 1 address 2 is live, and so is
    its parent. *)
Lemma IsLive_upwards_witness :
  ((newLivenessTree tree3 ≫= (λ t0, applyMarks t0 [markLive 2]))
   ≫= (λ t, IsLive t 2)) = Ok true
  ∧ ∃ t (b bp : bool),
      newLivenessTree tree3 ≫= (λ t0, applyMarks t0 [markLive 2]) = Ok t
      ∧ IsLive t 2 = Ok b
      ∧ IsLive t 1 = Ok bp
      ∧ (b = true → bp = true).
Proof.
  split; [vm_compute; reflexivity|].
  apply (IsLive_upwards tree3 [markLive 2] 2 1);
    [vm_compute; reflexivity | vm_compute; reflexivity | vm_compute; discriminate
    | vm_compute; lia | vm_compute; by left].
Defined.

(** ** The liveness tree: when the walks return *)

Lemma points_to_path ps p pn l :
  ps !! p = Some pn → points_to ps pn l → path ps p l.
Proof.
  intros Hp Hpt. destruct pn as [q|], l as [|q' l']; simpl in Hpt; try done.
  - destruct Hpt as [<- Hq]. by apply path_step.
  - by apply path_root.
Qed.

Lemma IsLive_loop_diverges ns fuel :
  validLinks (parents_of ns) →
  ∀ po node lv,
    (∀ l, ¬ points_to (parents_of ns) po l) →
    (∀ p, po = Some p → p < length ns) → node < length ns →
    IsLive_loop fuel ns po node lv = OutOfFuel.
Proof.
  intros Hvalid. induction fuel as [|fuel IH]; intros po node lv Hno Hpo Hnode.
  - destruct po as [p|]; [done|]. by destruct (Hno []).
  - destruct po as [p|]; [|by destruct (Hno [])]. simpl IsLive_loop.
    destruct (lookup_lt_is_Some_2 ns p (Hpo p eq_refl)) as [pn Hpn].
    destruct (lookup_lt_is_Some_2 ns node Hnode) as [n Hn].
    rewrite (idx_Ok _ _ _ Hpn), (idx_Ok _ _ _ Hn). simpl.
    pose proof (parents_of_lookup _ _ _ Hpn) as Hpp.
    assert (∀ l, ¬ points_to (parents_of ns) (parent pn) l) as Hno'.
    { intros l Hl. apply (Hno (p :: l)). split; [done|]. by eapply points_to_path. }
    assert (∀ q, parent pn = Some q → q < length ns) as Hq.
    { intros q Hq. rewrite Hq in Hpp. rewrite <-length_parents_of. by eapply Hvalid. }
    destruct (timestamp n <? timestamp pn)%Z; apply IH; try done.
    by eapply lookup_lt_Some.
Qed.

Lemma setAnyLive_diverges ns fuel :
  ∀ i, i < length ns → (∀ l, ¬ path (parents_of ns) i l) →
    validLinks (parents_of ns) → setAnyLive fuel ns i = OutOfFuel.
Proof.
  induction fuel as [|fuel IH]; intros i Hi Hno Hvalid; [done|].
  simpl setAnyLive.
  destruct (lookup_lt_is_Some_2 ns i Hi) as [n Hn].
  rewrite (idx_Ok _ _ _ Hn). simpl.
  pose proof (parents_of_lookup _ _ _ Hn) as Hpp.
  destruct (parent n) as [q|] eqn:Hq.
  - rewrite IH; [done| | |done].
    + rewrite <-length_parents_of. by eapply Hvalid.
    + intros l Hl. apply (Hno (q :: l)). by apply path_step.
  - destruct (Hno []). by apply path_root.
Qed.

Lemma IsLive_path ps t a l :
  parents_of (nodes t) = ps → path ps a l →
  IsLive t a = Ok (viewOf (nodes t) a l).
Proof.
  intros Hps Hp. unfold IsLive.
  destruct (lookup_parents (nodes t) a) as (n & Hn & ->); [rewrite Hps; by eapply path_lt|].
  simpl.
  rewrite (IsLive_loop_spec (nodes t) ps l Hps).
  - f_equal. unfold viewOf. destruct l; unfold anyOf; by rewrite Hn.
  - by eapply path_points_to.
  - rewrite <-length_parents_of, Hps. apply Nat.lt_le_incl. by eapply path_bound.
  - by eapply lookup_lt_Some.
Qed.

Lemma path_dec ps a : (∃ l, path ps a l) ∨ (∀ l, ¬ path ps a l).
Proof.
  destruct (chain (length ps) ps a) as [l|] eqn:Hc.
  - left. exists l. by apply chain_path in Hc as [? _].
  - right. intros l Hp.
    rewrite (path_chain ps a l (length ps) Hp) in Hc; [done|].
    apply Nat.lt_le_incl. by eapply path_bound.
Qed.

(** X6. The three outcomes of [IsLive].  Out of range it panics; in range it
    returns a boolean exactly when the parent links from the address end at
    a root; on a cycle of parent links the walk does not end, whatever the
    number of steps allowed. *)
Theorem IsLive_outcomes (t : livenessTree) (a : StateAddress) :
  validLinks (parents_of (nodes t)) →
  (length (nodes t) ≤ a ∧ IsLive t a = Panic "index out of range")
  ∨ (a < length (nodes t) ∧ (∃ l, path (parents_of (nodes t)) a l)
     ∧ ∃ b, IsLive t a = Ok b)
  ∨ (a < length (nodes t) ∧ (∀ l, ¬ path (parents_of (nodes t)) a l)
     ∧ IsLive t a = OutOfFuel
     ∧ ∀ fuel n, nodes t !! a = Some n →
         IsLive_loop fuel (nodes t) (parent n) a (anyLive n) = OutOfFuel).
Proof.
  intros Hvalid. destruct (decide (a < length (nodes t))) as [Ha|Ha].
  - right. destruct (path_dec (parents_of (nodes t)) a) as [[l Hp]|Hno].
    + left. split; [done|]. split; [by exists l|].
      eexists. by apply (IsLive_path (parents_of (nodes t)) t a l).
    + right. split; [done|]. split; [done|].
      assert (∀ fuel n, nodes t !! a = Some n →
        IsLive_loop fuel (nodes t) (parent n) a (anyLive n) = OutOfFuel) as Hloop.
      { intros fuel n Hn. apply IsLive_loop_diverges; [done| | |done].
        - intros l Hl. apply (Hno l). eapply points_to_path; [|done].
          by apply parents_of_lookup.
        - intros p Hp. rewrite <-length_parents_of. eapply Hvalid.
          rewrite (parents_of_lookup _ _ _ Hn). by rewrite Hp. }
      split; [|done]. unfold IsLive.
      destruct (lookup_lt_is_Some_2 _ _ Ha) as [n Hn].
      rewrite (idx_Ok _ _ _ Hn). simpl. by apply Hloop.
  - left. split; [lia|]. unfold IsLive. rewrite idx_ge; [done|lia].
Qed.

Lemma IsLive_outcomes_witness :
  let t := mkTree (freshNodes [None; Some 1; Some 1]) 1 in
  (length (nodes t) ≤ 2 ∧ IsLive t 2 = Panic "index out of range")
  ∨ (2 < length (nodes t) ∧ (∃ l, path (parents_of (nodes t)) 2 l)
     ∧ ∃ b, IsLive t 2 = Ok b)
  ∨ (2 < length (nodes t) ∧ (∀ l, ¬ path (parents_of (nodes t)) 2 l)
     ∧ IsLive t 2 = OutOfFuel
     ∧ ∀ fuel n, nodes t !! 2 = Some n →
         IsLive_loop fuel (nodes t) (parent n) 2 (anyLive n) = OutOfFuel).
Proof.
  apply (IsLive_outcomes (mkTree (freshNodes [None; Some 1; Some 1]) 1) 2).
  intros a p Hp. destruct a as [|[|[|a]]]; simpl in Hp; try done;
    injection Hp as <-; simpl; lia.
Defined.

(** X7. At an address whose parent links run into a cycle [MarkLive] never
    returns, whatever the number of steps allowed to [setAnyLive] (the
    recursion of the Go code goes on until the stack is exhausted);
    [MarkDead], which walks no links, returns there and keeps the links. *)
Theorem MarkLive_on_cycle (t : livenessTree) (a : StateAddress) :
  validLinks (parents_of (nodes t)) →
  a < length (nodes t) →
  (∀ l, ¬ path (parents_of (nodes t)) a l) →
  MarkLive t a = OutOfFuel
  ∧ (∀ fuel n p, nodes t !! a = Some n → parent n = Some p →
       setAnyLive fuel
         (<[a := mkNode true true (time t) (parent n)]> (nodes t)) p = OutOfFuel)
  ∧ ∃ t', MarkDead t a = Ok t' ∧ parents_of (nodes t') = parents_of (nodes t).
Proof.
  intros Hvalid Ha Hno.
  destruct (lookup_lt_is_Some_2 _ _ Ha) as [n Hn].
  pose proof (parents_of_lookup _ _ _ Hn) as Hpp.
  assert (parents_of (<[a := mkNode true true (time t) (parent n)]> (nodes t))
          = parents_of (nodes t)) as Hsame.
  { by apply parents_of_insert with n. }
  assert (∀ fuel p, parent n = Some p →
     setAnyLive fuel (<[a := mkNode true true (time t) (parent n)]> (nodes t)) p
     = OutOfFuel) as Hloop.
  { intros fuel p Hp. apply setAnyLive_diverges.
    - rewrite length_insert, <-length_parents_of. eapply Hvalid.
      rewrite Hpp. by rewrite Hp.
    - rewrite Hsame. intros l Hl. apply (Hno (p :: l)).
      apply path_step; [|done]. rewrite Hpp. by rewrite Hp.
    - by rewrite Hsame. }
  split; [|split].
  - rewrite (MarkLive_unfold t a n Hn).
    destruct (parent n) as [p|] eqn:Hp.
    + by rewrite Hloop.
    + destruct (Hno []). apply path_root. by rewrite Hpp.
  - intros fuel n' p Hn' Hp. rewrite Hn in Hn'. injection Hn' as <-. by apply Hloop.
  - destruct (MarkDead_total _ t a eq_refl) as (t' & -> & Hps');
      [by rewrite length_parents_of|]. eauto.
Qed.

Lemma MarkLive_on_cycle_witness :
  let t := mkTree (freshNodes [None; Some 1; Some 1]) 1 in
  MarkLive t 2 = OutOfFuel
  ∧ (∀ fuel n p, nodes t !! 2 = Some n → parent n = Some p →
       setAnyLive fuel
         (<[2 := mkNode true true (time t) (parent n)]> (nodes t)) p = OutOfFuel)
  ∧ ∃ t', MarkDead t 2 = Ok t' ∧ parents_of (nodes t') = parents_of (nodes t).
Proof.
  apply (MarkLive_on_cycle (mkTree (freshNodes [None; Some 1; Some 1]) 1) 2).
  - intros a p Hp. destruct a as [|[|[|a]]]; simpl in Hp; try done;
      injection Hp as <-; simpl; lia.
  - simpl. lia.
  - intros l Hp. simpl in Hp.
    assert (∀ l, ¬ path [None; Some 1; Some 1] 1 l) as H1.
    { intros l1 H1. pose proof (path_acyclic _ _ _ H1) as Hnot.
      inversion H1 as [? Hr|? q l' Hq _]; subst; [done|].
      injection Hq as <-. apply Hnot. by left. }
    inversion Hp as [? Hr|? q l' Hq Hl']; subst; [done|].
    injection Hq as <-. by apply (H1 l').
Defined.

(** ** The sweep: what keeps a command, and what drops it *)

(** *** One address of the view labelling *)

Lemma viewMarkAll_keeps_true ps xs : ∀ V y,
  V !! y = Some true → viewMarkAll ps V xs !! y = Some true.
Proof.
  induction xs as [|x xs IH]; intros V y Hy; [done|].
  change (viewMarkAll ps V (x :: xs)) with (viewMarkAll ps (viewMarkLive ps x V) xs).
  apply IH. rewrite view_lookup_live, Hy. simpl. by destruct (_ || _).
Qed.

Lemma viewMarkAll_marks ps xs x y : ∀ V,
  x ∈ xs → y < length V → inSubtree ps x y || inSubtree ps y x = true →
  viewMarkAll ps V xs !! y = Some true.
Proof.
  induction xs as [|x0 xs IH]; intros V Hx Hy Hrel; [by apply elem_of_nil in Hx|].
  destruct (lookup_lt_is_Some_2 V y Hy) as [v Hv].
  change (viewMarkAll ps V (x0 :: xs)) with (viewMarkAll ps (viewMarkLive ps x0 V) xs).
  destruct (decide (x = x0)) as [->|Hne].
  - apply viewMarkAll_keeps_true. rewrite view_lookup_live, Hv. simpl. by rewrite Hrel.
  - apply elem_of_cons in Hx as [?|Hx]; [done|].
    apply IH; [done | by rewrite viewMarkLive_length | done].
Qed.

Lemma viewMarkAll_unrelated ps xs w : ∀ V,
  (∀ x, x ∈ xs → inSubtree ps x w || inSubtree ps w x = false) →
  viewMarkAll ps V xs !! w = V !! w.
Proof.
  induction xs as [|x xs IH]; intros V Hun; [done|].
  change (viewMarkAll ps V (x :: xs)) with (viewMarkAll ps (viewMarkLive ps x V) xs).
  rewrite IH by (intros x' Hx'; apply Hun; by right).
  rewrite view_lookup_live, (Hun x) by by left. by destruct (V !! w).
Qed.

Lemma viewKillWrites_true ps ws : ∀ V, (viewKillWrites ps V true ws).2 = true.
Proof.
  induction ws as [|w ws IH]; intros V; simpl; [done|].
  destruct (default false (V !! w)); apply IH.
Qed.

Lemma viewKillWrites_live_write ps ws w : ∀ V lv,
  w ∈ ws → V !! w = Some true → (viewKillWrites ps V lv ws).2 = true.
Proof.
  induction ws as [|w0 ws IH]; intros V lv Hw Hv; [by apply elem_of_nil in Hw|].
  simpl. destruct (default false (V !! w0)) eqn:Hw0; [apply viewKillWrites_true|].
  apply elem_of_cons in Hw as [->|Hw]; [by rewrite Hv in Hw0|]. by apply IH.
Qed.

Lemma viewKillWrites_untouched ps ws : ∀ V lv,
  (viewKillWrites ps V lv ws).2 = false → (viewKillWrites ps V lv ws).1 = V.
Proof.
  induction ws as [|w ws IH]; intros V lv; simpl; [done|].
  destruct (default false (V !! w)); [by rewrite viewKillWrites_true|]. apply IH.
Qed.

Lemma viewKillWrites_keeps ps ws y : ∀ V lv,
  (∀ w, w ∈ ws → inSubtree ps w y = false) →
  (viewKillWrites ps V lv ws).1 !! y = V !! y.
Proof.
  induction ws as [|w ws IH]; intros V lv Hws; simpl; [done|].
  assert (∀ w', w' ∈ ws → inSubtree ps w' y = false) as Hws'
    by (intros w' Hw'; apply Hws; by right).
  destruct (default false (V !! w)); rewrite IH by done; [|done].
  rewrite view_lookup_dead, (Hws w) by by left. by destruct (V !! y).
Qed.

Lemma viewKillWrites_stays_dead ps ws y : ∀ V lv,
  V !! y = Some false → (viewKillWrites ps V lv ws).1 !! y = Some false.
Proof.
  induction ws as [|w ws IH]; intros V lv Hy; simpl; [done|].
  destruct (default false (V !! w)); apply IH; [|done].
  rewrite view_lookup_dead, Hy. simpl. by destruct (inSubtree ps w y).
Qed.

Lemma viewKillWrites_none_live ps ws : ∀ V lv,
  (∀ w, w ∈ ws → V !! w = Some false) → viewKillWrites ps V lv ws = (V, lv).
Proof.
  induction ws as [|w ws IH]; intros V lv Hws; simpl; [done|].
  rewrite (Hws w) by by left. simpl. apply IH. intros w' Hw'. apply Hws. by right.
Qed.

(** *** One command *)

Lemma viewCommand_keeps_live ps roots b req V y :
  V !! y = Some true →
  Aborted b = true ∨ (∀ w, w ∈ Writes b → inSubtree ps w y = false) →
  (viewCommand ps roots b req V).2 !! y = Some true.
Proof.
  intros Hy Hb. unfold viewCommand. destruct (Aborted b) eqn:Hab; [done|].
  destruct Hb as [?|Hws]; [done|].
  set (V1 := if req then viewMarkAll ps V roots else V).
  assert (V1 !! y = Some true) as Hy1
    by (unfold V1; destruct req; [by apply viewMarkAll_keeps_true | done]).
  pose proof (viewKillWrites_keeps ps (Writes b) y V1 (KeepAlive b || req) Hws) as Hk.
  destruct (viewKillWrites ps V1 _ (Writes b)) as [V2 lv]. simpl in Hk.
  rewrite Hy1 in Hk.
  destruct (viewCheckModifies V2 lv (Modifies b)); simpl; [|done].
  by apply viewMarkAll_keeps_true, viewMarkAll_keeps_true.
Qed.

Lemma viewCommand_writer_live ps roots b req V y :
  V !! y = Some true → Aborted b = false → y ∈ Writes b ++ Modifies b →
  (viewCommand ps roots b req V).1 = true.
Proof.
  intros Hy Hab Hin. unfold viewCommand. rewrite Hab.
  set (V1 := if req then viewMarkAll ps V roots else V).
  assert (V1 !! y = Some true) as Hy1
    by (unfold V1; destruct req; [by apply viewMarkAll_keeps_true | done]).
  pose proof (viewKillWrites_untouched ps (Writes b) V1 (KeepAlive b || req)) as Hun.
  pose proof (viewKillWrites_live_write ps (Writes b) y V1 (KeepAlive b || req)) as Hlw.
  destruct (viewKillWrites ps V1 _ (Writes b)) as [V2 lv]. simpl in Hun, Hlw.
  assert (viewCheckModifies V2 lv (Modifies b) = true) as ->; [|done].
  unfold viewCheckModifies. apply elem_of_app in Hin as [Hw|Hm].
  - by rewrite Hlw.
  - destruct lv; [done|]. rewrite Hun by done. simpl.
    apply existsb_exists. exists y. split; [by apply list_elem_of_In|]. by rewrite Hy1.
Qed.

Lemma viewCommand_reader_marks ps roots b req V x y :
  (viewCommand ps roots b req V).1 = true → Aborted b = false →
  x ∈ Reads b ++ Modifies b → y < length V →
  inSubtree ps x y || inSubtree ps y x = true →
  (viewCommand ps roots b req V).2 !! y = Some true.
Proof.
  unfold viewCommand. intros Hlive Hab Hin Hy Hrel. rewrite Hab in *.
  set (V1 := if req then viewMarkAll ps V roots else V) in *.
  assert (length V1 = length V) as Hl1
    by (unfold V1; destruct req; by rewrite ?viewMarkAll_length).
  pose proof (viewKillWrites_length ps (Writes b) V1 (KeepAlive b || req)) as Hl2.
  destruct (viewKillWrites ps V1 _ (Writes b)) as [V2 lv]. simpl in Hl2.
  destruct (viewCheckModifies V2 lv (Modifies b)); simpl in *; [|done].
  apply elem_of_app in Hin as [Hr|Hm].
  - apply viewMarkAll_marks with x; [done | rewrite viewMarkAll_length; lia | done].
  - apply viewMarkAll_keeps_true. apply viewMarkAll_marks with x; [done | lia | done].
Qed.

Lemma viewCommand_stays_dead ps roots b (req : bool) V w :
  V !! w = Some false →
  Aborted b = true
  ∨ (∀ x, x ∈ (if req then roots else []) ++ Reads b ++ Modifies b →
          inSubtree ps x w || inSubtree ps w x = false) →
  (viewCommand ps roots b req V).2 !! w = Some false.
Proof.
  intros Hw Hb. unfold viewCommand. destruct (Aborted b) eqn:Hab; [done|].
  destruct Hb as [?|Hun]; [done|].
  set (V1 := if req then viewMarkAll ps V roots else V).
  assert (V1 !! w = Some false) as Hw1.
  { unfold V1. destruct req; [|done]. rewrite viewMarkAll_unrelated; [done|].
    intros x Hx. apply Hun, elem_of_app. by left. }
  pose proof (viewKillWrites_stays_dead ps (Writes b) w V1 (KeepAlive b || req) Hw1) as Hk.
  destruct (viewKillWrites ps V1 _ (Writes b)) as [V2 lv]. simpl in Hk.
  destruct (viewCheckModifies V2 lv (Modifies b)); simpl; [|done].
  rewrite !viewMarkAll_unrelated; [done| |].
  - intros x Hx. apply Hun. rewrite !elem_of_app. right. by right.
  - intros x Hx. apply Hun. rewrite !elem_of_app. right. by left.
Qed.

Lemma viewCommand_dead ps roots b V :
  KeepAlive b = false →
  (∀ w, w ∈ Writes b ++ Modifies b → V !! w = Some false) →
  (viewCommand ps roots b false V).1 = false.
Proof.
  intros Hk Hws. unfold viewCommand. destruct (Aborted b); [done|].
  rewrite viewKillWrites_none_live
    by (intros w Hw; apply Hws, elem_of_app; by left).
  assert (existsb (λ m, default false (V !! m)) (Modifies b) = false) as Hex.
  { apply not_true_is_false. intros (m & Hm & Hv)%existsb_exists.
    rewrite (Hws m) in Hv; [done|]. apply elem_of_app. right. by apply list_elem_of_In. }
  rewrite Hk. unfold viewCheckModifies. simpl. by rewrite Hex.
Qed.

(** *** The whole sweep *)

Section Dependencies.
Context {Atom : Type} {Key : Type} `{Countable Key}.
Implicit Types (g : @DependencyGraph Atom Key _ _).
Implicit Types (t : @DeadCodeElimination Atom Key _ _).

Lemma viewSweep_result g rs n isLive V :
  n < length isLive →
  (viewSweep g rs (S n) (isLive, V)).1 !! n
  = Some (viewCommand (hierarchy (GetHierarchyStateMap g)) (rootKeys g)
            (default emptyBehaviour (Behaviours g !! n)) (bool_decide (n ∈ rs)) V).1.
Proof.
  intros Hn. rewrite viewSweep_S. cbv zeta.
  set (c := viewCommand _ _ _ _ _).
  destruct (viewSweep_shape g rs n (<[n := c.1]> isLive) c.2) as (_ & _ & ->); [|lia].
  by rewrite list_lookup_insert_eq.
Qed.

Lemma viewSweep_keeps_live g rs j bj y :
  let ps := hierarchy (GetHierarchyStateMap g) in
  Behaviours g !! j = Some bj → Aborted bj = false →
  y ∈ Writes bj ++ Modifies bj →
  ∀ n isLive V, j < n → n ≤ length isLive → V !! y = Some true →
    (∀ k bk, j < k < n → Behaviours g !! k = Some bk →
       Aborted bk = true ∨ ∀ w, w ∈ Writes bk → inSubtree ps w y = false) →
    (viewSweep g rs n (isLive, V)).1 !! j = Some true.
Proof.
  intros ps Hbj Hab Hy. induction n as [|n IH]; intros isLive V Hj Hn HV Hbetween;
    [lia|].
  destruct (decide (j = n)) as [->|Hne].
  - rewrite viewSweep_result by lia. rewrite Hbj. simpl. f_equal.
    by apply viewCommand_writer_live with y.
  - rewrite viewSweep_S. cbv zeta. apply IH; [lia | rewrite length_insert; lia | |].
    + apply viewCommand_keeps_live; [done|].
      destruct (Behaviours g !! n) as [bk|] eqn:Hbk; simpl.
      * apply (Hbetween n bk); [lia | done].
      * right. by intros w Hw%elem_of_nil.
    + intros k bk Hk. apply Hbetween. lia.
Qed.

Lemma viewSweep_stays_dead g (rs : gset nat) j bj :
  let ps := hierarchy (GetHierarchyStateMap g) in
  Behaviours g !! j = Some bj → KeepAlive bj = false → j ∉ rs →
  ∀ n isLive V, j < n → n ≤ length isLive → n ≤ length (Behaviours g) →
    (∀ w, w ∈ Writes bj ++ Modifies bj → V !! w = Some false) →
    (∀ k bk w x, j < k < n → Behaviours g !! k = Some bk → Aborted bk = false →
       w ∈ Writes bj ++ Modifies bj →
       x ∈ (if bool_decide (k ∈ rs) then rootKeys g else []) ++ Reads bk ++ Modifies bk →
       inSubtree ps x w || inSubtree ps w x = false) →
    (viewSweep g rs n (isLive, V)).1 !! j = Some false.
Proof.
  intros ps Hbj Hkeep Hreq. induction n as [|n IH]; intros isLive V Hj Hn Hbs HV Hlater;
    [lia|].
  destruct (decide (j = n)) as [->|Hne].
  - rewrite viewSweep_result by lia. rewrite Hbj. simpl.
    rewrite bool_decide_eq_false_2 by done. f_equal. by apply viewCommand_dead.
  - rewrite viewSweep_S. cbv zeta.
    apply IH; [lia | rewrite length_insert; lia | lia | |].
    + intros w Hw. apply viewCommand_stays_dead; [by apply HV|].
      destruct (Behaviours g !! n) as [bk|] eqn:Hbk; simpl.
      * destruct (Aborted bk) eqn:Habk; [by left|]. right.
        intros x Hx. apply (Hlater n bk w x); try done. lia.
      * apply lookup_ge_None in Hbk. lia.
    + intros k bk w x Hk. apply Hlater. lia.
Qed.
(** X8. A live command keeps the commands it depends on.  When command
    [i] is live and reads (or modifies) [x], an earlier command [j] that
    writes (or modifies) an address [y] of the subtree of [x] or above [x]
    is live as well, provided no command between them overwrites [y] or
    an address above it. *)
Theorem live_reader_keeps_writer g ids i j bi bj x y :
  let ps := hierarchy (GetHierarchyStateMap g) in
  wfSweep g (max_list ids) = true →
  (1 + Z.of_nat (sweepCost g (max_list ids + 1)) ≤ intMax)%Z →
  j < i → i ≤ max_list ids →
  Behaviours g !! i = Some bi → Aborted bi = false →
  Behaviours g !! j = Some bj → Aborted bj = false →
  x ∈ Reads bi ++ Modifies bi →
  y ∈ Writes bj ++ Modifies bj →
  inSubtree ps x y || inSubtree ps y x = true →
  (∀ k bk, j < k < i → Behaviours g !! k = Some bk →
     Aborted bk = true ∨ ∀ w, w ∈ Writes bk → inSubtree ps w y = false) →
  ∃ isLive, propagateLiveness (requestAll g ids) = Ok isLive
    ∧ (isLive !! i = Some true → isLive !! j = Some true).
Proof.
  intros ps Hwf Hclock Hji Hi Hbi Habi Hbj Habj Hx Hy Hrel Hbetween.
  destruct (wfSweep_spec _ _ Hwf) as (Hpar & Hf & Hb & Ha & Hbs & Hroots).
  fold ps in Hf, Hbs, Hroots.
  rewrite (propagateLiveness_view (requestAll g ids));
    rewrite ?requestAll_graph, ?requestAll_last; [|done|done].
  fold ps. eexists. split; [done|].
  set (rs := requests (requestAll g ids)).
  replace (max_list ids + 1) with (S i + (max_list ids - i)) by lia.
  destruct (viewSweep_prefix g rs (S i) (max_list ids - i)
              (replicate (S i + (max_list ids - i)) false)
              (replicate (length ps) false))
    as (isLive0 & V0 & -> & Hl0 & HV0).
  rewrite !length_replicate in Hl0, HV0.
  intros Hlive. rewrite viewSweep_result in Hlive by lia.
  rewrite Hbi in Hlive. change (default emptyBehaviour (Some bi)) with bi in Hlive.
  fold ps in Hlive. injection Hlive as Hlive.
  rewrite viewSweep_S. cbv zeta. fold ps. rewrite Hbi.
  change (default emptyBehaviour (Some bi)) with bi.
  apply (viewSweep_keeps_live g rs j bj y Hbj Habj Hy);
    [done | rewrite length_insert; lia | | done].
  apply viewCommand_reader_marks with x; try done.
  rewrite HV0. destruct (Hbs j) as (bj' & Hbj' & Hrange); [lia|].
  assert (bj' = bj) as -> by congruence.
  destruct (inRange_spec _ _ Hrange) as (_ & HM & HW).
  apply elem_of_app in Hy as [Hy|Hy].
  - by apply (proj1 (Forall_forall _ _) HW).
  - by apply (proj1 (Forall_forall _ _) HM).
Qed.

(** X9. A store that nothing observes is dropped.  A command that is not
    requested and not kept alive is dead when no later command of the
    sweep reads or modifies an address of the subtree of, or above, one
    of the addresses it writes or modifies, the roots counting as read by
    every requested command. *)
Theorem unobserved_write_dead g ids j bj :
  let ps := hierarchy (GetHierarchyStateMap g) in
  wfSweep g (max_list ids) = true →
  (1 + Z.of_nat (sweepCost g (max_list ids + 1)) ≤ intMax)%Z →
  j ≤ max_list ids → j ∉ ids →
  Behaviours g !! j = Some bj → KeepAlive bj = false →
  (∀ k bk w x, j < k ≤ max_list ids → Behaviours g !! k = Some bk →
     Aborted bk = false →
     w ∈ Writes bj ++ Modifies bj →
     x ∈ (if bool_decide (k ∈ ids) then rootKeys g else [])
         ++ Reads bk ++ Modifies bk →
     inSubtree ps x w || inSubtree ps w x = false) →
  ∃ isLive, propagateLiveness (requestAll g ids) = Ok isLive
    ∧ isLive !! j = Some false.
Proof.
  intros ps Hwf Hclock Hj Hreq Hbj Hkeep Hlater.
  destruct (wfSweep_spec _ _ Hwf) as (Hpar & Hf & Hb & Ha & Hbs & Hroots).
  fold ps in Hf, Hbs, Hroots.
  rewrite (propagateLiveness_view (requestAll g ids));
    rewrite ?requestAll_graph, ?requestAll_last; [|done|done].
  fold ps. eexists. split; [done|].
  apply (viewSweep_stays_dead g (requests (requestAll g ids)) j bj Hbj Hkeep).
  - by rewrite requestAll_requests.
  - lia.
  - rewrite length_replicate. lia.
  - lia.
  - intros w Hw. apply lookup_replicate_2.
    destruct (Hbs j) as (bj' & Hbj' & Hrange); [lia|].
    assert (bj' = bj) as -> by congruence.
    destruct (inRange_spec _ _ Hrange) as (_ & HM & HW).
    apply elem_of_app in Hw as [Hw|Hw].
    + by apply (proj1 (Forall_forall _ _) HW).
    + by apply (proj1 (Forall_forall _ _) HM).
  - intros k bk w x Hk Hbk Habk Hw Hx. apply (Hlater k bk w x); try done; [lia|].
    destruct (bool_decide (k ∈ requests (requestAll g ids))) eqn:Hd.
    + apply bool_decide_eq_true_1, requestAll_requests in Hd.
      by rewrite bool_decide_eq_true_2.
    + apply bool_decide_eq_false_1 in Hd. rewrite requestAll_requests in Hd.
      by rewrite bool_decide_eq_false_2.
Qed.

(** X10. A command that is kept alive is live, aborted or not, as soon as
    the sweep reaches it. *)
Theorem keepAlive_commands_live g ids i b :
  wfSweep g (max_list ids) = true →
  i ≤ max_list ids →
  Behaviours g !! i = Some b →
  KeepAlive b = true →
  ∃ isLive, propagateLiveness (requestAll g ids) = Ok isLive
    ∧ isLive !! i = Some true.
Proof.
  intros Hwf Hi Hb Hkeep.
  destruct (propagateLiveness_total (requestAll g ids)) as (isLive & -> & Hlen & Hprop).
  { by rewrite requestAll_graph, requestAll_last. }
  exists isLive. split; [done|].
  destruct (Hprop i b) as [Hab Hlive].
  - by rewrite requestAll_last.
  - by rewrite requestAll_graph.
  - destruct (Aborted b) eqn:Habb.
    + rewrite Hab by done. by rewrite Hkeep.
    + apply Hlive; [done|]. by left.
Qed.
End Dependencies.

Lemma live_reader_keeps_writer_witness :
  ∃ isLive, propagateLiveness (requestAll chainGraph [2]) = Ok isLive
    ∧ (isLive !! 2 = Some true → isLive !! 1 = Some true).
Proof.
  apply (live_reader_keeps_writer chainGraph [2] 2 1
           (behaviour [2] [] [3] false false) (behaviour [1] [] [2] false false) 2 2);
    [vm_compute; reflexivity | vm_compute; discriminate | lia | simpl; lia
    | reflexivity | reflexivity | reflexivity | reflexivity
    | by left | by left | vm_compute; reflexivity | intros k bk Hk; lia].
Defined.

Lemma unobserved_write_dead_witness :
  ∃ isLive, propagateLiveness (requestAll deadStoreGraph [1]) = Ok isLive
    ∧ isLive !! 0 = Some false.
Proof.
  apply (unobserved_write_dead deadStoreGraph [1] 0 (behaviour [] [] [1] false false));
    [vm_compute; reflexivity | vm_compute; discriminate | simpl; lia
    | by intros [=]%list_elem_of_singleton | reflexivity | reflexivity |].
  intros k bk w x Hk Hbk _ Hw Hx. simpl in Hk.
  assert (k = 1) as -> by lia.
  apply list_elem_of_singleton in Hw as ->.
  rewrite bool_decide_eq_true_2 in Hx by by left.
  injection Hbk as <-. apply list_elem_of_singleton in Hx as ->.
  vm_compute. reflexivity.
Defined.

Lemma keepAlive_commands_live_witness :
  ∃ isLive, propagateLiveness (requestAll keptGraph [1]) = Ok isLive
    ∧ isLive !! 0 = Some true.
Proof.
  apply (keepAlive_commands_live keptGraph [1] 0 (behaviour [] [] [1] true false));
    [vm_compute; reflexivity | simpl; lia | reflexivity | reflexivity].
Defined.

(** ** The transform as a whole: [Request] and [Flush] *)

Lemma idx_app_l {A} (l l' : list A) (i : nat) :
  i < length l → idx (l ++ l') i = idx l i.
Proof. intros Hi. unfold idx. by rewrite lookup_app_l. Qed.

Lemma idx_Ok_lt {A} (l : list A) (i : nat) (x : A) : idx l i = Ok x → i < length l.
Proof. intros Hx%idx_Ok_inv. by eapply lookup_lt_Some. Qed.

Lemma max_list_mono (ids ids' : list nat) :
  (∀ q, q ∈ ids → q ∈ ids') → max_list ids ≤ max_list ids'.
Proof.
  induction ids as [|q ids IH]; intros Hsub; simpl; [lia|].
  assert (q ≤ max_list ids') by (apply max_list_ge, Hsub; by left).
  assert (max_list ids ≤ max_list ids') by (apply IH; intros; apply Hsub; by right).
  lia.
Qed.

Section Transform.
Context {Atom : Type} {Key : Type} `{Countable Key}.
Implicit Types (g : @DependencyGraph Atom Key _ _).
Implicit Types (t : @DeadCodeElimination Atom Key _ _).

Lemma DeadCodeElimination_eq t t' :
  dependencyGraph t = dependencyGraph t' → requests t = requests t' →
  lastRequest t = lastRequest t' → t = t'.
Proof. destruct t, t'. simpl. by intros -> -> ->. Qed.

(** X11. The transform depends on the set of requested ids only; the order
    of the calls of [Request] and repeated calls make no difference. *)
Theorem Request_order_irrelevant g (ids ids' : list nat) :
  (∀ q, q ∈ ids ↔ q ∈ ids') →
  requestAll g ids = requestAll g ids'.
Proof.
  intros Hsame. apply DeadCodeElimination_eq.
  - by rewrite !requestAll_graph.
  - apply set_eq. intros q. by rewrite !requestAll_requests.
  - rewrite !requestAll_last. apply Nat.le_antisymm; apply max_list_mono;
      intros q; apply Hsame.
Qed.

(** *** What a returning sweep implies *)

Lemma sweepCommand_length t i isLive state isLive' state' :
  sweepCommand t i (isLive, state) = Ok (isLive', state') →
  length isLive' = length isLive.
Proof.
  unfold sweepCommand. intros Heq.
  apply bind_Ok in Heq as (b & _ & Heq).
  destruct (Aborted b).
  { injection Heq as <- _. by rewrite length_insert. }
  apply bind_Ok in Heq as ([isLive1 state1] & H1 & Heq).
  assert (length isLive1 = length isLive) as Hl1.
  { destruct (decide (i ∈ requests t)).
    - apply bind_Ok in H1 as (s & _ & H1). injection H1 as <- _.
      by rewrite !length_insert.
    - injection H1 as <- _. by rewrite length_insert. }
  apply bind_Ok in Heq as (lv & _ & Heq).
  apply bind_Ok in Heq as ([state2 lv2] & _ & Heq).
  apply bind_Ok in Heq as (lv3 & _ & Heq).
  destruct lv3.
  - apply bind_Ok in Heq as (s1 & _ & Heq). apply bind_Ok in Heq as (s2 & _ & Heq).
    injection Heq as <- _. by rewrite length_insert.
  - injection Heq as <- _. by rewrite length_insert.
Qed.

Lemma sweepLoop_length t n : ∀ isLive state isLive' state',
  sweepLoop t n (isLive, state) = Ok (isLive', state') →
  length isLive' = length isLive.
Proof.
  induction n as [|n IH]; intros isLive state isLive' state' Heq.
  - by injection Heq as <- _.
  - rewrite sweepLoop_S in Heq. apply bind_Ok in Heq as ([isLive1 state1] & H1 & Heq).
    apply IH in Heq. apply sweepCommand_length in H1. congruence.
Qed.

Lemma reportStatistics_Ok g n : reportStatistics g n = Ok tt → n ≤ length (Atoms g).
Proof.
  destruct n as [|n]; [lia|]. simpl. intros Heq.
  apply bind_Ok in Heq as (_ & _ & Heq). apply bind_Ok in Heq as (a & Ha & _).
  apply idx_Ok_lt in Ha. lia.
Qed.

Lemma propagateLiveness_Ok t isLive :
  propagateLiveness t = Ok isLive →
  length isLive = lastRequest t + 1
  ∧ lastRequest t < length (Behaviours (dependencyGraph t))
  ∧ lastRequest t < length (Atoms (dependencyGraph t)).
Proof.
  intros Heq.
  assert (lastRequest t < length (Behaviours (dependencyGraph t))) as Hb.
  { destruct (decide (lastRequest t < length (Behaviours (dependencyGraph t))));
      [done|].
    destruct (propagateLiveness_stale t) as [msg Hmsg]; [lia|]. congruence. }
  unfold propagateLiveness in Heq.
  apply bind_Ok in Heq as (state & _ & Heq).
  apply bind_Ok in Heq as ([isLive1 state1] & Hloop & Heq).
  apply bind_Ok in Heq as ([] & Hstat & Heq). injection Heq as <-.
  apply sweepLoop_length in Hloop. rewrite length_replicate in Hloop.
  apply reportStatistics_Ok in Hstat. lia.
Qed.

(** *** What [Flush] forwards *)

Lemma emit_spec g isLive : ∀ i (out : Writer),
  i + length isLive ≤ length (Atoms g) →
  ∃ new, emit g i isLive out = (Ok tt, out ++ new)
    ∧ StronglySorted lt new.*1
    ∧ Forall (λ k, i ≤ k) new.*1
    ∧ ∀ k a, (k, a) ∈ new ↔
        ∃ d, k = i + d ∧ isLive !! d = Some true ∧ Atoms g !! k = Some a.
Proof.
  induction isLive as [|lv rest IH]; intros i out Hlen; simpl in Hlen.
  - exists []. rewrite app_nil_r. split; [done|]. split; [constructor|].
    split; [constructor|]. intros k a. split; [by intros ?%elem_of_nil|].
    by intros (d & _ & ? & _).
  - simpl emit. destruct lv.
    + destruct (lookup_lt_is_Some_2 (Atoms g) i) as [a Ha]; [lia|].
      rewrite (idx_Ok _ _ _ Ha).
      destruct (IH (S i) (out ++ [(i, a)])) as (new & -> & Hsort & Hge & Hmem); [lia|].
      exists ((i, a) :: new). rewrite <-app_assoc. split; [done|].
      split; [|split].
      * simpl. constructor; [done|]. eapply Forall_impl; [done|]. simpl. lia.
      * simpl. constructor; [done|]. eapply Forall_impl; [done|]. simpl. lia.
      * intros k a'. rewrite elem_of_cons, Hmem. split.
        -- intros [[= -> ->]|(d & -> & Hd & Hk)].
           ++ exists 0. by rewrite Nat.add_0_r.
           ++ exists (S d). split; [lia|]. done.
        -- intros (d & -> & Hd & Hk). destruct d as [|d].
           ++ left. rewrite Nat.add_0_r in *. congruence.
           ++ right. exists d. split; [lia|]. split; [done|].
              by replace (S i + d) with (i + S d) by lia.
    + destruct (IH (S i) out) as (new & -> & Hsort & Hge & Hmem); [lia|].
      exists new. split; [done|]. split; [done|]. split.
      * eapply Forall_impl; [done|]. simpl. lia.
      * intros k a'. rewrite Hmem. split.
        -- intros (d & -> & Hd & Hk). exists (S d). split; [lia|]. done.
        -- intros (d & -> & Hd & Hk). destruct d as [|d]; [done|].
           exists d. split; [lia|]. split; [done|].
           by replace (S i + d) with (i + S d) by lia.
Qed.

(** X12. [Flush] forwards all or nothing.  When the sweep returns, its
    result has [lastRequest + 1] entries, each of which has an atom, and
    the writer receives, after what it held, exactly the live commands,
    each once with its own atom, in ascending order of their ids.  When
    the sweep does not return, the writer receives nothing. *)
Theorem Flush_outcome t (out : Writer) :
  (∃ isLive new,
      propagateLiveness t = Ok isLive
      ∧ length isLive = lastRequest t + 1
      ∧ lastRequest t < length (Atoms (dependencyGraph t))
      ∧ Flush t out = (Ok tt, out ++ new)
      ∧ StronglySorted lt new.*1
      ∧ ∀ i a, (i, a) ∈ new ↔
          isLive !! i = Some true ∧ Atoms (dependencyGraph t) !! i = Some a)
  ∨ (∃ r, (∀ isLive, propagateLiveness t ≠ Ok isLive)
      ∧ r ≠ Ok tt ∧ Flush t out = (r, out)).
Proof.
  unfold Flush. destruct (propagateLiveness t) as [isLive|msg|] eqn:Hp.
  - left. destruct (propagateLiveness_Ok t isLive Hp) as (Hlen & _ & Ha).
    destruct (emit_spec (dependencyGraph t) isLive 0 out) as (new & -> & Hs & _ & Hmem);
      [lia|].
    exists isLive, new. do 5 (split; [done|]).
    intros i a. rewrite Hmem. split.
    + by intros (d & -> & ? & ?).
    + intros [? ?]. by exists i.
  - right. exists (Panic msg). done.
  - right. exists OutOfFuel. done.
Qed.

(** *** Commands after the last request *)

Lemma sweepCommand_later t atoms' bs' i st :
  i < length (Behaviours (dependencyGraph t)) →
  sweepCommand (withLaterCommands t atoms' bs') i st = sweepCommand t i st.
Proof.
  intros Hi. unfold sweepCommand, withLaterCommands. destruct st as [isLive state].
  simpl. by rewrite idx_app_l.
Qed.

Lemma sweepLoop_later t atoms' bs' n : ∀ st,
  n ≤ length (Behaviours (dependencyGraph t)) →
  sweepLoop (withLaterCommands t atoms' bs') n st = sweepLoop t n st.
Proof.
  induction n as [|n IH]; intros st Hn; [done|].
  rewrite !sweepLoop_S, sweepCommand_later by lia.
  destruct (sweepCommand t n st) as [st'| |]; simpl; [|done|done].
  apply IH. lia.
Qed.

Lemma reportStatistics_later t atoms' bs' n :
  n ≤ length (Atoms (dependencyGraph t)) →
  reportStatistics (dependencyGraph (withLaterCommands t atoms' bs')) n
  = reportStatistics (dependencyGraph t) n.
Proof.
  induction n as [|n IH]; intros Hn; [done|].
  simpl. rewrite idx_app_l by lia.
  simpl in IH. by rewrite IH by lia.
Qed.

Lemma emit_later t atoms' bs' isLive : ∀ i (out : Writer),
  i + length isLive ≤ length (Atoms (dependencyGraph t)) →
  emit (dependencyGraph (withLaterCommands t atoms' bs')) i isLive out
  = emit (dependencyGraph t) i isLive out.
Proof.
  induction isLive as [|lv rest IH]; intros i out Hlen; [done|].
  simpl in Hlen. simpl. rewrite idx_app_l by lia.
  destruct lv.
  - destruct (idx (Atoms (dependencyGraph t)) i); [|done|done].
    simpl in IH. apply IH. lia.
  - simpl in IH. apply IH. lia.
Qed.

(** X13. The sweep and [Flush] never look at a command after the last
    requested one.  When the capture goes on with further atoms and
    behaviours, the liveness array and the output are the same. *)
Theorem later_commands_ignored t (atoms' : list Atom) (bs' : list AtomBehaviour)
    (out : Writer) :
  lastRequest t < length (Behaviours (dependencyGraph t)) →
  lastRequest t < length (Atoms (dependencyGraph t)) →
  propagateLiveness (withLaterCommands t atoms' bs') = propagateLiveness t
  ∧ Flush (withLaterCommands t atoms' bs') out = Flush t out.
Proof.
  intros Hb Ha.
  assert (propagateLiveness (withLaterCommands t atoms' bs') = propagateLiveness t)
    as Hsame.
  { unfold propagateLiveness.
    change (GetHierarchyStateMap (dependencyGraph (withLaterCommands t atoms' bs')))
      with (GetHierarchyStateMap (dependencyGraph t)).
    change (lastRequest (withLaterCommands t atoms' bs')) with (lastRequest t).
    destruct (newLivenessTree _) as [state| |]; simpl; [|done|done].
    rewrite sweepLoop_later by lia.
    destruct (sweepLoop t (lastRequest t + 1) _) as [[isLive state']| |] eqn:Hloop;
      simpl; [|done|done].
    apply sweepLoop_length in Hloop. rewrite length_replicate in Hloop.
    pose proof (reportStatistics_later t atoms' bs' (length isLive)) as Hst.
    simpl in Hst. rewrite Hst by lia. done. }
  split; [done|]. unfold Flush. rewrite Hsame.
  destruct (propagateLiveness t) as [isLive| |] eqn:Hp; [|done|done].
  apply propagateLiveness_Ok in Hp as (Hlen & _ & _).
  apply emit_later. lia.
Qed.
End Transform.

Lemma Request_order_irrelevant_witness :
  requestAll chainGraph [1; 2] = requestAll chainGraph [2; 1; 2].
Proof.
  apply (Request_order_irrelevant chainGraph [1; 2] [2; 1; 2]).
  intros q. rewrite !elem_of_cons, !elem_of_nil. tauto.
Defined.

Lemma later_commands_ignored_witness :
  propagateLiveness (withLaterCommands (requestAll chainGraph [1]) [7]
                       [behaviour [1] [] [] true false])
  = propagateLiveness (requestAll chainGraph [1])
  ∧ Flush (withLaterCommands (requestAll chainGraph [1]) [7]
             [behaviour [1] [] [] true false]) []
    = Flush (requestAll chainGraph [1]) [].
Proof.
  apply (later_commands_ignored (requestAll chainGraph [1]) [7]
           [behaviour [1] [] [] true false] []);
    vm_compute; lia.
Defined.

(** ** The address map of the graph *)

Section AddressMapLaws.
Context {Key : Type} `{Countable Key}.
Variable Parent : Key → option Key.
Implicit Types (m : @addressMapping Key _ _) (k : option Key).

Lemma internAll_size fuel ks :
  ∀ m m', internAll Parent fuel m ks = Ok m' →
  size (address m') ≤ size (address m) + fuel * length ks.
Proof.
  induction ks as [|k ks IH]; intros m m' Hres; simpl in Hres.
  - simplify_eq. lia.
  - apply bind_Ok in Hres as ([a m1] & Hk & Hres). simpl in Hres.
    apply addressOf_size in Hk. apply IH in Hres. simpl. lia.
Qed.

Lemma internAll_app fuel ks ks' :
  ∀ m, internAll Parent fuel m (ks ++ ks')
       = internAll Parent fuel m ks ≫= λ m1, internAll Parent fuel m1 ks'.
Proof.
  induction ks as [|k ks IH]; intros m; simpl; [done|].
  destruct (addressOf Parent fuel m k) as [[a m1]| |]; simpl; [apply IH|done|done].
Qed.

(** Interning keys whose parent chains end at the nil key, from the map
    [Resolve] starts with. *)
Lemma internAll_init fuel ks :
  forallb (reachesNil Parent fuel) ks = true →
  (Z.of_nat (1 + fuel * length ks) ≤ 2 ^ 32)%Z →
  ∃ m, internAll Parent fuel initAddressMap ks = Ok m
    ∧ AddrWf Parent [] m ∧ AllReach Parent m
    ∧ (∀ k, k ∈ ks → is_Some (address m !! k)).
Proof.
  intros Hreach Hsize.
  destruct (internAll_spec Parent fuel ks initAddressMap Hreach (initAddressMap_inv))
    as (m & Hm & _ & _ & Hin).
  { simpl. rewrite map_size_singleton. lia. }
  exists m. split; [done|].
  pose proof (internAll_size _ _ _ _ Hm) as Hs. simpl in Hs.
  rewrite map_size_singleton in Hs.
  destruct (internAll_wf Parent fuel ks _ _ Hm (initAddressMap_wf Parent)) as (Hwf & _);
    [lia|].
  split; [done|]. split; [|done].
  eapply internAll_reach; [done | done | apply initAddressMap_reach].
Qed.

(** X14. Keys and addresses correspond one to one, and the addresses in use
    are exactly [0 .. n-1] for the [n] keys interned. *)
Theorem address_map_bijection fuel (ks : list (option Key)) :
  forallb (reachesNil Parent fuel) ks = true →
  (Z.of_nat (1 + fuel * length ks) ≤ 2 ^ 32)%Z →
  ∃ m, internAll Parent fuel initAddressMap ks = Ok m
    ∧ size (key m) = size (address m)
    ∧ (∀ k a, key m !! a = Some k ↔ address m !! k = Some a)
    ∧ (∀ a, is_Some (key m !! a) ↔ a < size (address m)).
Proof.
  intros Hreach Hsize.
  destruct (internAll_init fuel ks Hreach Hsize) as (m & Hm & Hwf & _ & _).
  exists m. split; [done|].
  assert (∀ a, is_Some (key m !! a) ↔ a < size (address m)) as Hdom.
  { intros a. split.
    - intros [k Hk]. apply (wf_key _ _ _ Hwf) in Hk. apply (wf_dense _ _ _ Hwf k a Hk).
    - apply (wf_onto _ _ _ Hwf). }
  split; [by apply dense_map_size|]. split; [apply (wf_key _ _ _ Hwf) | done].
Qed.

(** X15. The hierarchy map mirrors [Parent].  The parent of an interned key
    is interned, the hierarchy map sends the address of a key to the
    address of its parent, and it has an entry for every address in use
    and for no other. *)
Theorem hierarchy_mirrors_parents fuel (ks : list (option Key)) :
  forallb (reachesNil Parent fuel) ks = true →
  (Z.of_nat (1 + fuel * length ks) ≤ 2 ^ 32)%Z →
  ∃ m, internAll Parent fuel initAddressMap ks = Ok m
    ∧ (∀ sk a, address m !! Some sk = Some a →
         ∃ p, address m !! Parent sk = Some p ∧ parentOf m !! a = Some p)
    ∧ (∀ a, is_Some (parentOf m !! a) ↔ a < size (address m))
    ∧ size (parentOf m) = size (address m).
Proof.
  intros Hreach Hsize.
  destruct (internAll_init fuel ks Hreach Hsize) as (m & Hm & Hwf & _ & _).
  exists m. split; [done|]. split; [|split].
  - intros sk a Ha. apply (wf_parent _ _ _ Hwf sk a Ha). by intros ?%elem_of_nil.
  - intros a. apply (AddrWf_parent_dom Parent m a Hwf).
  - apply (AddrWf_parent_size Parent m Hwf).
Qed.

(** X16. Interning further keys changes nothing that was there: every key
    keeps its address and every address its parent. *)
Theorem addresses_are_stable fuel (ks ks' : list (option Key)) :
  forallb (reachesNil Parent fuel) (ks ++ ks') = true →
  (Z.of_nat (1 + fuel * length (ks ++ ks')) ≤ 2 ^ 32)%Z →
  ∃ m m', internAll Parent fuel initAddressMap ks = Ok m
    ∧ internAll Parent fuel initAddressMap (ks ++ ks') = Ok m'
    ∧ (∀ k a, address m !! k = Some a →
         address m' !! k = Some a ∧ key m' !! a = Some k)
    ∧ (∀ a p, parentOf m !! a = Some p → parentOf m' !! a = Some p).
Proof.
  intros Hreach Hsize.
  destruct (internAll_init fuel (ks ++ ks') Hreach Hsize) as (m' & Hm' & Hwf' & _ & _).
  rewrite internAll_app in Hm'. apply bind_Ok in Hm' as (m & Hm & Hrest).
  pose proof (internAll_size _ _ _ _ Hm) as Hs. simpl in Hs.
  rewrite map_size_singleton in Hs. rewrite length_app in Hsize.
  destruct (internAll_wf Parent fuel ks _ _ Hm (initAddressMap_wf Parent)) as (Hwf & _);
    [nia|].
  destruct (internAll_wf Parent fuel ks' _ _ Hrest Hwf) as (_ & Hmono & _).
  { pose proof (internAll_size _ _ _ _ Hrest). nia. }
  exists m, m'. split; [done|]. split; [by rewrite internAll_app, Hm|].
  split.
  - intros k a Ha. split; [by apply Hmono|]. by apply (wf_key _ _ _ Hwf'), Hmono.
  - intros a p Hp.
    assert (a < size (address m)) as Ha by (apply (AddrWf_parent_dom Parent m a Hwf); eauto).
    destruct (wf_onto _ _ _ Hwf a Ha) as [k Hk].
    apply (wf_key _ _ _ Hwf) in Hk. destruct k as [sk|].
    + destruct (wf_parent _ _ _ Hwf sk a Hk) as (p0 & Hp0 & Hpa);
        [by intros ?%elem_of_nil|].
      assert (p0 = p) as -> by congruence.
      destruct (wf_parent _ _ _ Hwf' sk a (Hmono _ _ Hk)) as (p1 & Hp1 & Hpa');
        [by intros ?%elem_of_nil|].
      rewrite (Hmono _ _ Hp0) in Hp1. congruence.
    + assert (a = NullStateAddress) as ->
        by (pose proof (wf_nil _ _ _ Hwf); congruence).
      rewrite (wf_root _ _ _ Hwf) in Hp. rewrite (wf_root _ _ _ Hwf'). done.
Qed.

(** X17. The hierarchy map of the graph is what the liveness tree expects.
    [newLivenessTree] returns on it a tree with one node for each interned
    key, on which every address of a key is dead and can be marked. *)
Theorem address_map_feeds_liveness_tree fuel (ks : list (option Key)) :
  forallb (reachesNil Parent fuel) ks = true →
  (Z.of_nat (1 + fuel * length ks) ≤ 2 ^ 32)%Z →
  ∃ m t, internAll Parent fuel initAddressMap ks = Ok m
    ∧ newLivenessTree (parentOf m) = Ok t
    ∧ length (nodes t) = size (address m)
    ∧ ∀ k a, address m !! k = Some a →
        IsLive t a = Ok false
        ∧ (∃ t', MarkLive t a = Ok t') ∧ (∃ t', MarkDead t a = Ok t').
Proof.
  intros Hreach Hsize.
  destruct (internAll_init fuel ks Hreach Hsize) as (m & Hm & Hwf & Hall & _).
  pose proof (AddrWf_wfParents Parent m Hwf Hall) as Hpar.
  pose proof (wfParents_bounds _ Hpar) as [_ Hf].
  pose proof (hierarchy_length (parentOf m)) as Hlen.
  rewrite (AddrWf_parent_size Parent m Hwf) in Hlen.
  exists m, (mkTree (freshNodes (hierarchy (parentOf m))) 1%Z).
  split; [done|]. split; [by apply newLivenessTree_spec|]. split.
  { simpl. unfold freshNodes. by rewrite length_fmap. }
  intros k a Ha. pose proof (wf_dense _ _ _ Hwf k a Ha) as Hlt.
  split; [apply IsLive_fresh; [done | lia]|]. split.
  - destruct (MarkLive_total (hierarchy (parentOf m))
                (mkTree (freshNodes (hierarchy (parentOf m))) 1%Z) a)
      as (t' & -> & _); [apply parents_of_freshNodes | done | lia | eauto].
  - destruct (MarkDead_total (hierarchy (parentOf m))
                (mkTree (freshNodes (hierarchy (parentOf m))) 1%Z) a)
      as (t' & -> & _); [apply parents_of_freshNodes | lia | eauto].
Qed.

(** X18. A key that is its own parent does not stop [addressOf], which
    finds the key interned when it asks for the parent; the hierarchy map
    then links the address to itself, and on the tree built from it
    [IsLive] and [MarkLive] never return at that address. *)
Theorem self_parent_key_loops fuel (sk : Key) :
  Parent sk = Some sk →
  ∃ m t, addressOf Parent (S fuel) initAddressMap (Some sk) = Ok (1, m)
    ∧ parentOf m !! 1 = Some 1
    ∧ newLivenessTree (parentOf m) = Ok t
    ∧ IsLive t 1 = OutOfFuel
    ∧ MarkLive t 1 = OutOfFuel.
Proof.
  intros Hself. simpl addressOf.
  rewrite lookup_singleton_ne by done. rewrite Hself, map_size_singleton.
  change (toStateAddress 1) with 1.
  rewrite (addressOf_found Parent fuel _ (Some sk) 1) by apply lookup_insert_eq.
  simpl. eexists _, _. split; [done|]. simpl.
  split; [apply lookup_insert_eq|]. split; [vm_compute; reflexivity|].
  split; vm_compute; reflexivity.
Qed.
End AddressMapLaws.

Lemma address_map_bijection_witness :
  ∃ m, internAll predKey 3 initAddressMap [Some 2; Some 0] = Ok m
    ∧ size (key m) = size (address m)
    ∧ (∀ k a, key m !! a = Some k ↔ address m !! k = Some a)
    ∧ (∀ a, is_Some (key m !! a) ↔ a < size (address m)).
Proof.
  apply (address_map_bijection predKey 3 [Some 2; Some 0]);
    [reflexivity | vm_compute; discriminate].
Defined.

Lemma hierarchy_mirrors_parents_witness :
  ∃ m, internAll predKey 3 initAddressMap [Some 2; Some 0] = Ok m
    ∧ (∀ sk a, address m !! Some sk = Some a →
         ∃ p, address m !! predKey sk = Some p ∧ parentOf m !! a = Some p)
    ∧ (∀ a, is_Some (parentOf m !! a) ↔ a < size (address m))
    ∧ size (parentOf m) = size (address m).
Proof.
  apply (hierarchy_mirrors_parents predKey 3 [Some 2; Some 0]);
    [reflexivity | vm_compute; discriminate].
Defined.

Lemma addresses_are_stable_witness :
  ∃ m m', internAll predKey 4 initAddressMap [Some 1] = Ok m
    ∧ internAll predKey 4 initAddressMap ([Some 1] ++ [Some 3; None]) = Ok m'
    ∧ (∀ k a, address m !! k = Some a →
         address m' !! k = Some a ∧ key m' !! a = Some k)
    ∧ (∀ a p, parentOf m !! a = Some p → parentOf m' !! a = Some p).
Proof.
  apply (addresses_are_stable predKey 4 [Some 1] [Some 3; None]);
    [reflexivity | vm_compute; discriminate].
Defined.

Lemma address_map_feeds_liveness_tree_witness :
  ∃ m t, internAll predKey 3 initAddressMap [Some 2; Some 0] = Ok m
    ∧ newLivenessTree (parentOf m) = Ok t
    ∧ length (nodes t) = size (address m)
    ∧ ∀ k a, address m !! k = Some a →
        IsLive t a = Ok false
        ∧ (∃ t', MarkLive t a = Ok t') ∧ (∃ t', MarkDead t a = Ok t').
Proof.
  apply (address_map_feeds_liveness_tree predKey 3 [Some 2; Some 0]);
    [reflexivity | vm_compute; discriminate].
Defined.

Lemma self_parent_key_loops_witness :
  ∃ m t, addressOf (λ k : nat, Some k) 1 initAddressMap (Some 5) = Ok (1, m)
    ∧ parentOf m !! 1 = Some 1
    ∧ newLivenessTree (parentOf m) = Ok t
    ∧ IsLive t 1 = OutOfFuel
    ∧ MarkLive t 1 = OutOfFuel.
Proof.
  apply (self_parent_key_loops (λ k : nat, Some k) 0 5). reflexivity.
Defined.

(** ** The addresses that [addressOf] returns *)

Section ReturnedAddresses.
Context {Key : Type} `{Countable Key}.
Variable Parent : Key → option Key.
Implicit Types (m : @addressMapping Key _ _) (k : option Key).




End ReturnedAddresses.


(** ** Footprints: [Read], [Modify], [Write] and [SetRoot] *)

Section Footprints.
Context {Atom : Type} {Key : Type} `{Countable Key}.
Variable Parent : Key → option Key.
Implicit Types (g : @DependencyGraph Atom Key _ _).

(** X19. The address that [Read], [Modify], [Write] or [SetRoot] records
    for a key is an address of the hierarchy map.  On a graph whose
    address map was built by interning, each of them interns the key,
    appends its address to its own list (the root set for [SetRoot]) and
    leaves the other lists, the atoms and the behaviours of the graph as
    they are; the address is below the size of the hierarchy map, which
    stays a forest. *)
Theorem footprint_address_in_range fuel (ks : list (option Key)) (sk : Key)
    (b : AtomBehaviour) g :
  internAll Parent fuel initAddressMap ks = Ok (addressMap g) →
  forallb (reachesNil Parent fuel) (ks ++ [Some sk]) = true →
  (Z.of_nat (1 + fuel * length (ks ++ [Some sk])) ≤ 2 ^ 32)%Z →
  ∃ a m,
    internAll Parent fuel initAddressMap (ks ++ [Some sk]) = Ok m
    ∧ address m !! Some sk = Some a
    ∧ a < size (GetHierarchyStateMap (withAddressMap g m))
    ∧ size (GetHierarchyStateMap g) ≤ size (GetHierarchyStateMap (withAddressMap g m))
    ∧ wfParents (GetHierarchyStateMap (withAddressMap g m)) = true
    ∧ Read Parent fuel b g (Some sk)
      = Ok (mkBehaviour (Reads b ++ [a]) (Modifies b) (Writes b) (Roots b)
                        (KeepAlive b) (Aborted b), withAddressMap g m)
    ∧ Modify Parent fuel b g (Some sk)
      = Ok (mkBehaviour (Reads b) (Modifies b ++ [a]) (Writes b) (Roots b)
                        (KeepAlive b) (Aborted b), withAddressMap g m)
    ∧ Write Parent fuel b g (Some sk)
      = Ok (mkBehaviour (Reads b) (Modifies b) (Writes b ++ [a]) (Roots b)
                        (KeepAlive b) (Aborted b), withAddressMap g m)
    ∧ SetRoot Parent fuel g (Some sk)
      = Ok (mkGraph (Atoms g) (Behaviours g) (<[a := true]> (GraphRoots g)) m).
Proof.
  intros Hg Hreach Hsize.
  destruct (internAll_init Parent fuel _ Hreach Hsize) as (m & Hm & Hwf & Hall & Hin).
  pose proof Hm as Hm'. rewrite internAll_app, Hg in Hm'. simpl in Hm'.
  apply bind_Ok in Hm' as ([a m1] & Hk & Hm'). simpl in Hm'. injection Hm' as ->.
  destruct (addressOf_keeps Parent _ _ _ _ _ Hk) as (Ha & _ & Hgrow).
  pose proof (internAll_size _ _ _ _ _ Hg) as Hs. simpl in Hs.
  rewrite map_size_singleton in Hs. rewrite length_app in Hsize. simpl in Hsize.
  destruct (internAll_wf Parent fuel ks _ _ Hg (initAddressMap_wf Parent)) as (Hwf0 & _);
    [nia|].
  exists a, m. split; [done|]. split; [done|].
  unfold GetHierarchyStateMap. simpl.
  rewrite (AddrWf_parent_size Parent m Hwf), (AddrWf_parent_size Parent _ Hwf0).
  split; [apply (wf_dense _ _ _ Hwf _ _ Ha)|]. split; [done|].
  split; [by apply (AddrWf_wfParents Parent)|].
  unfold Read, Modify, Write, SetRoot, GetStateAddressOf. rewrite Hk. done.
Qed.
End Footprints.

Lemma footprint_address_in_range_witness :
  ∃ a m,
    internAll predKey 3 initAddressMap ([Some 0] ++ [Some 2]) = Ok m
    ∧ address m !! Some 2 = Some a
    ∧ a < size (GetHierarchyStateMap (withAddressMap internedGraph m))
    ∧ size (GetHierarchyStateMap internedGraph)
      ≤ size (GetHierarchyStateMap (withAddressMap internedGraph m))
    ∧ wfParents (GetHierarchyStateMap (withAddressMap internedGraph m)) = true
    ∧ Read predKey 3 emptyBehaviour internedGraph (Some 2)
      = Ok (mkBehaviour (Reads emptyBehaviour ++ [a]) (Modifies emptyBehaviour)
              (Writes emptyBehaviour) (Roots emptyBehaviour)
              (KeepAlive emptyBehaviour) (Aborted emptyBehaviour),
            withAddressMap internedGraph m)
    ∧ Modify predKey 3 emptyBehaviour internedGraph (Some 2)
      = Ok (mkBehaviour (Reads emptyBehaviour) (Modifies emptyBehaviour ++ [a])
              (Writes emptyBehaviour) (Roots emptyBehaviour)
              (KeepAlive emptyBehaviour) (Aborted emptyBehaviour),
            withAddressMap internedGraph m)
    ∧ Write predKey 3 emptyBehaviour internedGraph (Some 2)
      = Ok (mkBehaviour (Reads emptyBehaviour) (Modifies emptyBehaviour)
              (Writes emptyBehaviour ++ [a]) (Roots emptyBehaviour)
              (KeepAlive emptyBehaviour) (Aborted emptyBehaviour),
            withAddressMap internedGraph m)
    ∧ SetRoot predKey 3 internedGraph (Some 2)
      = Ok (mkGraph (Atoms internedGraph) (Behaviours internedGraph)
              (<[a := true]> (GraphRoots internedGraph)) m).
Proof.
  apply (footprint_address_in_range predKey 3 [Some 0] 2 emptyBehaviour internedGraph);
    [vm_compute; reflexivity | reflexivity | vm_compute; discriminate].
Defined.

(** ** [Resolve] on APIs without behaviour provider *)

Section ResolveLaws.
Context {Atom : Type} {Key : Type} `{Countable Key}.
Context {State Api : Type} `{EqDecision Api}.
Variable API : Atom → Api.
Variable Mutate : Atom → State → State * option error.
Variable GetProvider : Api → option (@BehaviourProvider Atom Key _ _ State).
Implicit Types (g : @DependencyGraph Atom Key _ _).

Lemma resolveLoop_no_provider atoms :
  ∀ i g s,
    (∀ a, a ∈ atoms → GetProvider (API a) = None) →
    Behaviours g = replicate i (setKeepAlive emptyBehaviour)
                   ++ replicate (length atoms) emptyBehaviour →
    resolveLoop API Mutate GetProvider atoms i g s []
    = if mutateAll Mutate atoms s
      then Ok (Some (IsGraph
                 (mkGraph (Atoms g)
                    (replicate (i + length atoms) (setKeepAlive emptyBehaviour))
                    (GraphRoots g) (addressMap g))), None)
      else Ok (Some (IsBehaviour (mkBehaviour [] [] [] [] false true)), None).
Proof.
  induction atoms as [|a atoms IH]; intros i g s Hnone Hbs.
  - simpl in *. rewrite Nat.add_0_r. rewrite app_nil_r in Hbs. rewrite <-Hbs.
    by destruct g.
  - assert (Behaviours g !! i = Some emptyBehaviour) as Hi.
    { rewrite Hbs, lookup_app_r by (rewrite length_replicate; lia).
      rewrite length_replicate, Nat.sub_diag. done. }
    simpl resolveLoop. rewrite (Hnone a) by by left.
    rewrite (idx_Ok _ _ _ Hi). simpl. unfold setBehaviour.
    rewrite (idx_Ok _ _ _ Hi). simpl.
    simpl mutateAll.
    destruct (Mutate a s) as [s' [err|]] eqn:Hmut; [done|].
    rewrite IH.
    + simpl. by replace (i + S (length atoms)) with (S (i + length atoms)) by lia.
    + intros a' Ha'. apply Hnone. by right.
    + simpl Behaviours. rewrite Hbs.
      rewrite insert_app_r_alt by (rewrite length_replicate; lia).
      rewrite length_replicate, Nat.sub_diag.
      rewrite (replicate_S_end i), <-app_assoc. done.
Qed.

(** X20. [Resolve] on a capture none of whose APIs offers a behaviour
    provider.  When every atom mutates without error, the graph holds the
    atoms of the capture, one behaviour per atom with only [KeepAlive]
    set, no root and the initial address map.  As soon as one atom fails
    to mutate, what [Resolve] returns is no graph but a behaviour value,
    and [GetDependencyGraph] panics on it. *)
Theorem Resolve_without_providers (c : @capture Atom State) :
  (∀ a, a ∈ captureAtoms c → GetProvider (API a) = None) →
  let g := mkGraph (captureAtoms c)
             (replicate (length (captureAtoms c)) (mkBehaviour [] [] [] [] true false))
             ∅ initAddressMap in
  Resolve API Mutate GetProvider (inl c)
  = (if mutateAll Mutate (captureAtoms c) (NewState c)
     then Ok (Some (IsGraph g), None)
     else Ok (Some (IsBehaviour (mkBehaviour [] [] [] [] false true)), None))
  ∧ GetDependencyGraph API Mutate GetProvider (inl c)
    = (if mutateAll Mutate (captureAtoms c) (NewState c)
       then Ok (Some g, None)
       else Panic "interface conversion").
Proof.
  intros Hnone g.
  assert (Resolve API Mutate GetProvider (inl c)
          = if mutateAll Mutate (captureAtoms c) (NewState c)
            then Ok (Some (IsGraph g), None)
            else Ok (Some (IsBehaviour (mkBehaviour [] [] [] [] false true)), None))
    as Hres.
  { unfold Resolve. by rewrite resolveLoop_no_provider. }
  split; [done|]. unfold GetDependencyGraph. rewrite Hres.
  by destruct (mutateAll _ _ _).
Qed.

(** *** Such a capture passes the transform unchanged *)

Lemma emit_all g (n : nat) : ∀ i (out : Writer),
  i + n ≤ length (Atoms g) →
  emit g i (replicate n true) out
  = (Ok tt, out ++ zip (seq i n) (take n (drop i (Atoms g)))).
Proof.
  induction n as [|n IH]; intros i out Hlen; simpl.
  - by rewrite app_nil_r.
  - destruct (lookup_lt_is_Some_2 (Atoms g) i) as [a Ha]; [lia|].
    rewrite (idx_Ok _ _ _ Ha), IH by lia.
    rewrite (drop_S _ _ _ Ha). simpl. by rewrite <-app_assoc.
Qed.

(** X21. Dead-code elimination keeps every command of a capture whose APIs
    offer no behaviour provider.  [Flush] forwards the commands
    [0 .. lastRequest], all of them, in order, whatever was requested. *)
Theorem unprovided_capture_is_kept (c : @capture Atom State) (ids : list nat)
    (out : Writer) :
  (∀ a, a ∈ captureAtoms c → GetProvider (API a) = None) →
  mutateAll Mutate (captureAtoms c) (NewState c) = true →
  max_list ids < length (captureAtoms c) →
  ∃ g, GetDependencyGraph API Mutate GetProvider (inl c) = Ok (Some g, None)
    ∧ Flush (requestAll g ids) out
      = (Ok tt, out ++ zip (seq 0 (S (max_list ids)))
                           (take (S (max_list ids)) (captureAtoms c))).
Proof.
  intros Hnone Hmut Hlast.
  set (kb := mkBehaviour [] [] [] [] true false).
  set (g := mkGraph (captureAtoms c) (replicate (length (captureAtoms c)) kb)
              ∅ (@initAddressMap Key _ _)).
  exists g. split.
  { unfold GetDependencyGraph, Resolve.
    rewrite resolveLoop_no_provider; [|done|done]. by rewrite Hmut. }
  assert (wfSweep g (max_list ids) = true) as Hwf.
  { unfold wfSweep. rewrite !andb_true_iff. split; [split; [split; [split|]|]|].
    - vm_compute. reflexivity.
    - apply bool_decide_eq_true_2. simpl. by rewrite length_replicate.
    - by apply bool_decide_eq_true_2.
    - apply forallb_forall. intros b Hb%list_elem_of_In.
      apply elem_of_take in Hb as (j & Hb & _). simpl in Hb.
      apply lookup_replicate in Hb as [-> _]. done.
    - done. }
  destruct (propagateLiveness_total (requestAll g ids)) as (isLive & Hp & Hlen & Hprop).
  { by rewrite requestAll_graph, requestAll_last. }
  rewrite requestAll_last in Hlen.
  assert (isLive = replicate (S (max_list ids)) true) as ->.
  { apply list_eq. intros j. destruct (decide (j ≤ max_list ids)) as [Hj|Hj].
    - rewrite lookup_replicate_2 by lia.
      destruct (Hprop j kb) as [_ Hlive].
      + by rewrite requestAll_last.
      + rewrite requestAll_graph. simpl. apply lookup_replicate_2. lia.
      + apply Hlive; [done | by left].
    - rewrite !lookup_ge_None_2; [done | rewrite length_replicate; lia | lia]. }
  unfold Flush. rewrite Hp, requestAll_graph.
  rewrite emit_all by (simpl; lia). by rewrite drop_0.
Qed.
End ResolveLaws.

Lemma Resolve_without_providers_witness :
  let c := mkCapture [0; 1; 2] 0 in
  let g := mkGraph (captureAtoms c)
             (replicate (length (captureAtoms c)) (mkBehaviour [] [] [] [] true false))
             ∅ (@initAddressMap nat _ _) in
  Resolve (λ _, 0) failingMutate noProvider (inl c)
  = (if mutateAll failingMutate (captureAtoms c) (NewState c)
     then Ok (Some (IsGraph g), None)
     else Ok (Some (IsBehaviour (mkBehaviour [] [] [] [] false true)), None))
  ∧ GetDependencyGraph (λ _, 0) failingMutate noProvider (inl c)
    = (if mutateAll failingMutate (captureAtoms c) (NewState c)
       then Ok (Some g, None)
       else Panic "interface conversion").
Proof.
  apply (Resolve_without_providers (Key := nat) (λ _, 0) failingMutate noProvider
           (mkCapture [0; 1; 2] 0)).
  reflexivity.
Defined.

Lemma unprovided_capture_is_kept_witness :
  ∃ g, GetDependencyGraph (Key := nat) (λ _ : nat, 0) (λ (_ : nat) (s : nat), (s, None))
         noProvider (inl (mkCapture [7; 8; 9] 0)) = Ok (Some g, None)
    ∧ Flush (requestAll g [1]) []
      = (Ok tt, [] ++ zip (seq 0 (S (max_list [1])))
                          (take (S (max_list [1])) (captureAtoms (mkCapture [7; 8; 9] 0)))).
Proof.
  apply (unprovided_capture_is_kept (Key := nat) (λ _ : nat, 0)
           (λ (_ : nat) (s : nat), (s, None)) noProvider (mkCapture [7; 8; 9] 0) [1] []);
    [reflexivity | reflexivity | simpl; lia].
Defined.

(** ** The sweep: roots *)

Lemma viewCommand_root_marks ps roots b V r y :
  Aborted b = false → r ∈ roots → y < length V →
  inSubtree ps r y || inSubtree ps y r = true →
  (∀ w, w ∈ Writes b → inSubtree ps w y = false) →
  (viewCommand ps roots b true V).2 !! y = Some true.
Proof.
  intros Hab Hr Hy Hrel Hws. unfold viewCommand. rewrite Hab.
  assert (viewMarkAll ps V roots !! y = Some true) as Hy1
    by by apply viewMarkAll_marks with r.
  pose proof (viewKillWrites_keeps ps (Writes b) y (viewMarkAll ps V roots)
                (KeepAlive b || true) Hws) as Hk.
  destruct (viewKillWrites ps _ _ (Writes b)) as [V2 lv]. simpl in Hk.
  rewrite Hy1 in Hk.
  destruct (viewCheckModifies V2 lv (Modifies b)); simpl; [|done].
  by apply viewMarkAll_keeps_true, viewMarkAll_keeps_true.
Qed.

Section Roots.
Context {Atom : Type} {Key : Type} `{Countable Key}.
Implicit Types (g : @DependencyGraph Atom Key _ _).

(** X22. A request keeps what the roots depend on.  When command [i] is
    requested and did not abort, an earlier command [j] that writes (or
    modifies) an address [y] of the subtree of a root or above a root is
    live, provided neither command [i] nor a command between them
    overwrites [y] or an address above it. *)
Theorem request_keeps_root_writers g ids i j bi bj r y :
  let ps := hierarchy (GetHierarchyStateMap g) in
  wfSweep g (max_list ids) = true →
  (1 + Z.of_nat (sweepCost g (max_list ids + 1)) ≤ intMax)%Z →
  j < i → i ∈ ids →
  Behaviours g !! i = Some bi → Aborted bi = false →
  Behaviours g !! j = Some bj → Aborted bj = false →
  r ∈ rootKeys g →
  y ∈ Writes bj ++ Modifies bj →
  inSubtree ps r y || inSubtree ps y r = true →
  (∀ k bk, j < k ≤ i → Behaviours g !! k = Some bk →
     Aborted bk = true ∨ ∀ w, w ∈ Writes bk → inSubtree ps w y = false) →
  ∃ isLive, propagateLiveness (requestAll g ids) = Ok isLive
    ∧ isLive !! j = Some true.
Proof.
  intros ps Hwf Hclock Hji Hi Hbi Habi Hbj Habj Hr Hy Hrel Hbetween.
  pose proof (max_list_ge ids i Hi) as Hle.
  destruct (wfSweep_spec _ _ Hwf) as (Hpar & Hf & Hb & Ha & Hbs & Hroots).
  fold ps in Hf, Hbs, Hroots.
  rewrite (propagateLiveness_view (requestAll g ids));
    rewrite ?requestAll_graph, ?requestAll_last; [|done|done].
  fold ps. eexists. split; [done|].
  set (rs := requests (requestAll g ids)).
  replace (max_list ids + 1) with (S i + (max_list ids - i)) by lia.
  destruct (viewSweep_prefix g rs (S i) (max_list ids - i)
              (replicate (S i + (max_list ids - i)) false)
              (replicate (length ps) false))
    as (isLive0 & V0 & -> & Hl0 & HV0).
  rewrite !length_replicate in Hl0, HV0.
  rewrite viewSweep_S. cbv zeta. fold ps. rewrite Hbi.
  change (default emptyBehaviour (Some bi)) with bi.
  apply (viewSweep_keeps_live g rs j bj y Hbj Habj Hy);
    [done | rewrite length_insert; lia | |].
  - rewrite bool_decide_eq_true_2 by (by apply requestAll_requests).
    apply viewCommand_root_marks with r; try done.
    + rewrite HV0. destruct (Hbs j) as (bj' & Hbj' & Hrange); [lia|].
      assert (bj' = bj) as -> by congruence.
      destruct (inRange_spec _ _ Hrange) as (_ & HM & HW).
      apply elem_of_app in Hy as [Hy|Hy].
      * by apply (proj1 (Forall_forall _ _) HW).
      * by apply (proj1 (Forall_forall _ _) HM).
    + destruct (Hbetween i bi) as [?|Hws]; [lia | done | congruence | done].
  - intros k bk Hk. apply Hbetween. lia.
Qed.
End Roots.

Lemma request_keeps_root_writers_witness :
  ∃ isLive, propagateLiveness (requestAll rootGraph [1]) = Ok isLive
    ∧ isLive !! 0 = Some true.
Proof.
  apply (request_keeps_root_writers rootGraph [1] 1 0
           (behaviour [] [] [1] false false) (behaviour [] [] [2] false false) 2 2);
    [vm_compute; reflexivity | vm_compute; discriminate | lia | by left
    | reflexivity | reflexivity | reflexivity | reflexivity
    | vm_compute; by left | by left | vm_compute; reflexivity |].
  intros k bk Hk Hbk. assert (k = 1) as -> by lia. injection Hbk as <-.
  right. intros w ->%list_elem_of_singleton. vm_compute. reflexivity.
Defined.

(** ** [Resolve]: errors and behaviour providers *)

Section ResolveProviders.
Context {Atom : Type} {Key : Type} `{Countable Key}.
Context {State Api : Type} `{EqDecision Api}.
Variable API : Atom → Api.
Variable Mutate : Atom → State → State * option error.
Variable GetProvider : Api → option (@BehaviourProvider Atom Key _ _ State).
Implicit Types (g : @DependencyGraph Atom Key _ _).

Lemma setBehaviour_Ok g i b :
  i < length (Behaviours g) →
  setBehaviour g i b
  = Ok (mkGraph (Atoms g) (<[i := b]> (Behaviours g)) (GraphRoots g) (addressMap g)).
Proof.
  intros Hi. unfold setBehaviour.
  destruct (lookup_lt_is_Some_2 _ _ Hi) as [b0 Hb0]. by rewrite (idx_Ok _ _ _ Hb0).
Qed.

(** The loop of [Resolve] returns, and never with an error, when the
    providers leave the commands of the graph alone. *)
Lemma resolveLoop_returns atoms :
  (∀ api bp, GetProvider api = Some bp → keepsCommands bp) →
  ∀ i g s providers,
    (∀ api bp, lookupProvider providers api = Some bp → GetProvider api = Some bp) →
    i + length atoms ≤ length (Behaviours g) →
    ∃ r, resolveLoop API Mutate GetProvider atoms i g s providers = Ok (Some r, None)
      ∧ (r = IsBehaviour (mkBehaviour [] [] [] [] false true)
         ∨ ∃ g', r = IsGraph g' ∧ Atoms g' = Atoms g
               ∧ length (Behaviours g') = length (Behaviours g)).
Proof.
  intros Hkeep. induction atoms as [|a atoms IH]; intros i g s providers Hcache Hlen.
  - exists (IsGraph g). split; [done|]. right. by exists g.
  - simpl in Hlen.
    assert (∀ bp providers',
      GetProvider (API a) = Some bp →
      (∀ api bp', lookupProvider providers' api = Some bp' → GetProvider api = Some bp') →
      ∃ r, (let '(b, s', g0) := GetBehaviourForAtom bp s i g a in
            g'' ← setBehaviour g0 i b;
            resolveLoop API Mutate GetProvider atoms (S i) g'' s' providers')
           = Ok (Some r, None)
        ∧ (r = IsBehaviour (mkBehaviour [] [] [] [] false true)
           ∨ ∃ g', r = IsGraph g' ∧ Atoms g' = Atoms g
                 ∧ length (Behaviours g') = length (Behaviours g))) as Hvia.
    { intros bp providers' Hbp Hcache'.
      destruct (Hkeep _ _ Hbp s i g a) as [Hat Hbl].
      destruct (GetBehaviourForAtom bp s i g a) as [[b s'] g0]. simpl in Hat, Hbl.
      rewrite setBehaviour_Ok by lia. simpl.
      destruct (IH (S i)
                  (mkGraph (Atoms g0) (<[i := b]> (Behaviours g0)) (GraphRoots g0)
                           (addressMap g0)) s' providers' Hcache')
        as (r & Hres & Hr); [simpl; rewrite length_insert; lia|].
      exists r. split; [done|].
      destruct Hr as [->|(g' & -> & Hat' & Hbl')]; [by left|]. right.
      exists g'. simpl in Hat', Hbl'. rewrite length_insert in Hbl'.
      split; [done|]. split; congruence. }
    simpl resolveLoop.
    destruct (lookupProvider providers (API a)) as [bp|] eqn:Hlook.
    { apply Hvia; [by apply Hcache | done]. }
    destruct (GetProvider (API a)) as [bp|] eqn:Hbp.
    { apply Hvia; [done|]. intros api bp'. simpl.
      destruct (decide (API a = api)) as [<-|Hne]; [|by apply Hcache].
      by intros [= <-]. }
    destruct (lookup_lt_is_Some_2 (Behaviours g) i) as [b Hb]; [lia|].
    rewrite (idx_Ok _ _ _ Hb). simpl. rewrite setBehaviour_Ok by lia. simpl.
    destruct (Mutate a s) as [s' [e|]].
    + eexists. split; [done|]. by left.
    + destruct (IH (S i)
                  (mkGraph (Atoms g) (<[i := setKeepAlive b]> (Behaviours g))
                           (GraphRoots g) (addressMap g)) s' providers Hcache)
        as (r & Hres & Hr); [simpl; rewrite length_insert; lia|].
      exists r. split; [done|].
      destruct Hr as [->|(g' & -> & Hat' & Hbl')]; [by left|]. right.
      exists g'. simpl in Hat', Hbl'. rewrite length_insert in Hbl'. done.
Qed.

(** X23. The only error that [Resolve] and [GetDependencyGraph] report is
    the one of the capture.  With a capture at hand, and providers that
    leave the atoms and the number of behaviours of the graph alone,
    [Resolve] returns, whatever [Mutate] returns, a value and a nil
    error: the graph, with the atoms of the capture and one behaviour per
    atom, or the behaviour value of the return after a failed [Mutate],
    whose error is not passed on.  Without a capture [Resolve] returns
    nil and the error of the capture, which [GetDependencyGraph] wraps. *)
Theorem Resolve_reports_only_capture_errors (c : @capture Atom State + error) :
  (∀ api bp, GetProvider api = Some bp → keepsCommands bp) →
  match c with
  | inl c' =>
    ∃ r, Resolve API Mutate GetProvider (inl c') = Ok (Some r, None)
      ∧ (r = IsBehaviour (mkBehaviour [] [] [] [] false true)
         ∨ ∃ g, r = IsGraph g ∧ Atoms g = captureAtoms c'
              ∧ length (Behaviours g) = length (captureAtoms c'))
  | inr e =>
    Resolve API Mutate GetProvider (inr e) = Ok (None, Some e)
    ∧ GetDependencyGraph API Mutate GetProvider (inr e)
      = Ok (None, Some (OtherError ("Could not calculate dependency graph: "
                                    +:+ errorString e)))
  end.
Proof.
  intros Hkeep. destruct c as [c|e]; [|done].
  unfold Resolve.
  destruct (resolveLoop_returns (captureAtoms c) Hkeep 0
              (mkGraph (captureAtoms c)
                 (replicate (length (captureAtoms c)) emptyBehaviour) ∅ initAddressMap)
              (NewState c) [])
    as (r & Hres & Hr).
  - by intros api bp [=].
  - simpl. by rewrite length_replicate.
  - exists r. split; [done|].
    destruct Hr as [->|(g & -> & Hat & Hbl)]; [by left|]. right.
    exists g. simpl in Hat, Hbl. rewrite length_replicate in Hbl. done.
Qed.

Lemma resolveLoop_providers atoms :
  (∀ api bp, GetProvider api = Some bp → keepsCommands bp) →
  ∀ i g s providers,
    (∀ a, a ∈ atoms → is_Some (GetProvider (API a))) →
    (∀ api bp, lookupProvider providers api = Some bp → GetProvider api = Some bp) →
    i + length atoms ≤ length (Behaviours g) →
    ∃ g', resolveLoop API Mutate GetProvider atoms i g s providers
          = Ok (Some (IsGraph g'), None)
      ∧ Atoms g' = Atoms g
      ∧ length (Behaviours g') = length (Behaviours g).
Proof.
  intros Hkeep. induction atoms as [|a atoms IH]; intros i g s providers Hall Hcache Hlen.
  - exists g. done.
  - simpl in Hlen.
    assert (∀ bp providers',
      GetProvider (API a) = Some bp →
      (∀ api bp', lookupProvider providers' api = Some bp' → GetProvider api = Some bp') →
      ∃ g', (let '(b, s', g0) := GetBehaviourForAtom bp s i g a in
             g'' ← setBehaviour g0 i b;
             resolveLoop API Mutate GetProvider atoms (S i) g'' s' providers')
            = Ok (Some (IsGraph g'), None)
        ∧ Atoms g' = Atoms g
        ∧ length (Behaviours g') = length (Behaviours g)) as Hvia.
    { intros bp providers' Hbp Hcache'.
      destruct (Hkeep _ _ Hbp s i g a) as [Hat Hbl].
      destruct (GetBehaviourForAtom bp s i g a) as [[b s'] g0]. simpl in Hat, Hbl.
      rewrite setBehaviour_Ok by lia. simpl.
      destruct (IH (S i)
                  (mkGraph (Atoms g0) (<[i := b]> (Behaviours g0)) (GraphRoots g0)
                           (addressMap g0)) s' providers')
        as (g' & Hres & Hat' & Hbl').
      - intros a' Ha'. apply Hall. by right.
      - done.
      - simpl. rewrite length_insert. lia.
      - exists g'. simpl in Hat', Hbl'. rewrite length_insert in Hbl'.
        split; [done|]. split; congruence. }
    simpl resolveLoop.
    destruct (lookupProvider providers (API a)) as [bp|] eqn:Hlook.
    + apply Hvia; [by apply Hcache | done].
    + destruct (Hall a) as [bp Hbp]; [by left|]. rewrite Hbp.
      apply Hvia; [done|]. intros api bp'. simpl.
      destruct (decide (API a = api)) as [<-|Hne]; [|by apply Hcache].
      by intros [= <-].
Qed.

(** X24. [Resolve] on a capture all of whose APIs offer a behaviour
    provider that leaves the atoms and the number of behaviours of the
    graph alone.  [Resolve] returns a graph, never a behaviour value,
    with the atoms of the capture and one behaviour per atom, and
    [GetDependencyGraph] returns that graph without a panic. *)
Theorem Resolve_with_providers (c : @capture Atom State) :
  (∀ a, a ∈ captureAtoms c → is_Some (GetProvider (API a))) →
  (∀ api bp, GetProvider api = Some bp → keepsCommands bp) →
  ∃ g, Resolve API Mutate GetProvider (inl c) = Ok (Some (IsGraph g), None)
    ∧ GetDependencyGraph API Mutate GetProvider (inl c) = Ok (Some g, None)
    ∧ Atoms g = captureAtoms c
    ∧ length (Behaviours g) = length (captureAtoms c).
Proof.
  intros Hall Hkeep. unfold GetDependencyGraph, Resolve.
  destruct (resolveLoop_providers (captureAtoms c) Hkeep 0
              (mkGraph (captureAtoms c)
                 (replicate (length (captureAtoms c)) emptyBehaviour) ∅ initAddressMap)
              (NewState c) [] Hall)
    as (g & Hres & Hat & Hbl).
  - by intros api bp [=].
  - simpl. by rewrite length_replicate.
  - exists g. rewrite Hres. simpl in Hat, Hbl. rewrite length_replicate in Hbl.
    done.
Qed.
End ResolveProviders.

Lemma writeProvider_keepsCommands : keepsCommands writeProvider.
Proof.
  intros s i g a. unfold writeProvider. cbn [GetBehaviourForAtom]. unfold Write.
  destruct (addressOf predKey 8 (addressMap g) (Some a)) as [[a' m]| |]; simpl; done.
Qed.

(** Atom 2 goes through the provider, atom 0 mutates, atom 1 fails to
    mutate. *)
Lemma Resolve_reports_only_capture_errors_witness :
  ∃ r, Resolve (λ a : nat, a) failingMutate mixedProvider (inl (mkCapture [2; 0; 1] 0))
       = Ok (Some r, None)
    ∧ (r = IsBehaviour (mkBehaviour [] [] [] [] false true)
       ∨ ∃ g, r = IsGraph g ∧ Atoms g = captureAtoms (mkCapture [2; 0; 1] 0)
            ∧ length (Behaviours g) = length (captureAtoms (mkCapture [2; 0; 1] 0))).
Proof.
  apply (Resolve_reports_only_capture_errors (λ a : nat, a) failingMutate mixedProvider
           (inl (mkCapture [2; 0; 1] 0))).
  intros api bp. unfold mixedProvider. destruct (decide (api = 2)); [|done].
  intros [= <-]. apply writeProvider_keepsCommands.
Defined.

Lemma Resolve_with_providers_witness :
  ∃ g, Resolve (λ _ : nat, 0) failingMutate (λ _ : nat, Some writeProvider)
         (inl (mkCapture [2; 0] 0)) = Ok (Some (IsGraph g), None)
    ∧ GetDependencyGraph (λ _ : nat, 0) failingMutate (λ _ : nat, Some writeProvider)
        (inl (mkCapture [2; 0] 0)) = Ok (Some g, None)
    ∧ Atoms g = captureAtoms (mkCapture [2; 0] 0)
    ∧ length (Behaviours g) = length (captureAtoms (mkCapture [2; 0] 0)).
Proof.
  apply (Resolve_with_providers (λ _ : nat, 0) failingMutate (λ _ : nat, Some writeProvider)
           (mkCapture [2; 0] 0)).
  - intros a _. eauto.
  - intros api bp [= <-]. apply writeProvider_keepsCommands.
Defined.

(** ** The sweep: the order in which the roots are ranged over *)

Section RootOrderProofs.
Context {Atom : Type} {Key : Type} `{Countable Key}.
Implicit Types (g : @DependencyGraph Atom Key _ _).
Implicit Types (t : @DeadCodeElimination Atom Key _ _).

Lemma sweepCommandIn_rootKeys t i st :
  sweepCommandIn (λ _, rootKeys (dependencyGraph t)) t i st = sweepCommand t i st.
Proof. done. Qed.

Lemma sweepCommandIn_Inv order ps t i b isLive state V :
  Inv ps state V →
  Behaviours (dependencyGraph t) !! i = Some b →
  inRange (length ps) b = true →
  Forall (λ r, r < length ps) (rootKeys (dependencyGraph t)) →
  order i ≡ₚ rootKeys (dependencyGraph t) →
  i < length isLive →
  (time state
   + Z.of_nat (commandCost (length (rootKeys (dependencyGraph t))) b) ≤ intMax)%Z →
  let c := viewCommand ps (rootKeys (dependencyGraph t)) b
             (bool_decide (i ∈ requests t)) V in
  ∃ state',
    sweepCommandIn order t i (isLive, state) = Ok (<[i := c.1]> isLive, state')
    ∧ Inv ps state' c.2
    ∧ (time state'
       ≤ time state
         + Z.of_nat (commandCost (length (rootKeys (dependencyGraph t))) b))%Z.
Proof.
  intros HI Hb Hrange Hroots Hperm Hi Hclock.
  destruct (inRange_spec _ _ Hrange) as (HR & HM & HW).
  rewrite <-(viewCommand_Permutation ps (order i) _ b _ V Hperm).
  rewrite <-Hperm in Hroots. rewrite <-(Permutation_length Hperm) in *.
  unfold commandCost in *. cbv zeta.
  unfold sweepCommandIn, viewCommand. rewrite (idx_Ok _ _ _ Hb). simpl.
  destruct (Aborted b) eqn:Hab.
  { exists state. split; [done|]. split; [done|]. lia. }
  set (roots := order i) in *.
  set (req := bool_decide (i ∈ requests t)).
  set (V1 := if req then viewMarkAll ps V roots else V).
  assert (∃ state1,
    (if decide (i ∈ requests t)
     then markAllLive state roots ≫=
            (λ state', Ok (<[i:=true]> (<[i:=KeepAlive b]> isLive), state'))
     else Ok (<[i:=KeepAlive b]> isLive, state))
    = Ok (<[i:=KeepAlive b || req]> isLive, state1)
    ∧ Inv ps state1 V1
    ∧ (time state1 ≤ time state + Z.of_nat (length roots))%Z)
    as (state1 & -> & HI1 & Ht1).
  { unfold V1, req. case_decide as Hreq.
    - rewrite bool_decide_eq_true_2 by done.
      destruct (markAllLive_Inv ps roots Hroots state V HI) as (state1 & -> & HI1 & Ht1);
        [lia|].
      simpl. rewrite list_insert_insert_eq, orb_true_r. exists state1.
      split; [done|]. split; [done|]. lia.
    - rewrite bool_decide_eq_false_2 by done. rewrite orb_false_r.
      exists state. split; [done|]. split; [done|]. lia. }
  simpl. rewrite (idx_Ok _ _ (KeepAlive b || req)) by (by apply list_lookup_insert_eq).
  simpl.
  destruct (killWrites_Inv ps _ HW state1 V1 (KeepAlive b || req) HI1)
    as (state2 & -> & HI2 & Ht2); [lia|].
  destruct (viewKillWrites ps V1 (KeepAlive b || req) (Writes b)) as [V2 lv].
  simpl in *.
  rewrite (checkModifies_Inv ps _ HM state2 V2 lv HI2). simpl.
  rewrite list_insert_insert_eq.
  destruct (viewCheckModifies V2 lv (Modifies b)).
  - destruct (markAllLive_Inv ps _ HM state2 V2 HI2) as (state3 & -> & HI3 & Ht3); [lia|].
    simpl.
    destruct (markAllLive_Inv ps _ HR state3 _ HI3) as (state4 & -> & HI4 & Ht4); [lia|].
    simpl. exists state4. split; [done|]. split; [done|]. lia.
  - exists state2. split; [done|]. split; [done|]. lia.
Qed.

Lemma sweepLoopIn_S order t n st :
  sweepLoopIn order t (S n) st = sweepCommandIn order t n st ≫= sweepLoopIn order t n.
Proof. done. Qed.

Lemma sweepLoopIn_Inv order t n :
  let g := dependencyGraph t in
  let ps := hierarchy (GetHierarchyStateMap g) in
  Forall (λ r, r < length ps) (rootKeys g) →
  (∀ i, order i ≡ₚ rootKeys g) →
  (∀ i, i < n → ∃ b, Behaviours g !! i = Some b ∧ inRange (length ps) b = true) →
  ∀ isLive state V,
    Inv ps state V → n ≤ length isLive →
    (time state + Z.of_nat (sweepCost g n) ≤ intMax)%Z →
    ∃ state',
      sweepLoopIn order t n (isLive, state)
      = Ok ((viewSweep g (requests t) n (isLive, V)).1, state')
      ∧ Inv ps state' (viewSweep g (requests t) n (isLive, V)).2.
Proof.
  intros g ps Hroots Hperm.
  induction n as [|n IH]; intros Hbs isLive state V HI Hn Hclock.
  - exists state. done.
  - destruct (Hbs n) as (b & Hb & Hrange); [lia|].
    rewrite (sweepCost_S g n b Hb) in Hclock.
    rewrite sweepLoopIn_S, viewSweep_S. cbv zeta. fold g ps. rewrite Hb.
    change (default emptyBehaviour (Some b)) with b.
    destruct (sweepCommandIn_Inv order ps t n b isLive state V HI Hb Hrange Hroots
                (Hperm n))
      as (state1 & -> & HI1 & Ht1); [lia | fold g; lia |].
    change (Ok ?st ≫= sweepLoopIn order t n) with (sweepLoopIn order t n st).
    apply IH; [intros i Hi; apply Hbs; lia | done | rewrite length_insert; lia |].
    fold g in Ht1. lia.
Qed.

(** X25. The order in which [range] yields the roots does not matter.
    Whatever order each loop over the root map takes, and be it another
    one for every requested command, the liveness array is the one
    obtained with the order that [rootKeys] fixes. *)
Theorem root_order_irrelevant (order : nat → list StateAddress) t :
  wfSweep (dependencyGraph t) (lastRequest t) = true →
  (1 + Z.of_nat (sweepCost (dependencyGraph t) (lastRequest t + 1)) ≤ intMax)%Z →
  (∀ i, order i ≡ₚ rootKeys (dependencyGraph t)) →
  propagateLivenessIn order t = propagateLiveness t
  ∧ ∃ isLive, propagateLiveness t = Ok isLive.
Proof.
  intros Hwf Hclock Hperm.
  rewrite (propagateLiveness_view t Hwf Hclock). split; [|eauto].
  destruct (wfSweep_spec _ _ Hwf) as (Hpar & Hf & Hb & Ha & Hbs & Hroots).
  set (g := dependencyGraph t) in *.
  set (ps := hierarchy (GetHierarchyStateMap g)) in *.
  unfold propagateLivenessIn. fold g. rewrite (newLivenessTree_spec _ Hpar). fold ps.
  simpl.
  destruct (sweepLoopIn_Inv order t (lastRequest t + 1) Hroots Hperm) with
    (isLive := replicate (lastRequest t + 1) false)
    (state := mkTree (freshNodes ps) 1%Z)
    (V := replicate (length ps) false) as (state' & Hloop & _).
  - intros i Hi. apply Hbs. lia.
  - by apply Inv_new.
  - by rewrite length_replicate.
  - simpl. fold g. lia.
  - fold g ps in Hloop. rewrite Hloop. simpl.
    destruct (viewSweep_shape g (requests t) (lastRequest t + 1)
                (replicate (lastRequest t + 1) false) (replicate (length ps) false))
      as (Hlen & _).
    rewrite length_replicate in Hlen. rewrite Hlen.
    rewrite reportStatistics_total by (fold g; lia). done.
Qed.
End RootOrderProofs.

Lemma root_order_irrelevant_witness :
  propagateLivenessIn alternating (requestAll twoRootGraph [2])
  = propagateLiveness (requestAll twoRootGraph [2])
  ∧ ∃ isLive, propagateLiveness (requestAll twoRootGraph [2]) = Ok isLive.
Proof.
  apply (root_order_irrelevant alternating (requestAll twoRootGraph [2]));
    [vm_compute; reflexivity | vm_compute; discriminate |].
  intros i. change (rootKeys (dependencyGraph (requestAll twoRootGraph [2])))
    with [2; 1].
  unfold alternating. destruct (Nat.even i); [done | apply perm_swap].
Defined.

(** ** The sweep: a dead command leaves no trace *)

Lemma viewKillWrites_lv ps ws : ∀ V lv,
  (viewKillWrites ps V lv ws).2 = false → lv = false.
Proof.
  intros V lv Hres. destruct lv; [|done]. by rewrite viewKillWrites_true in Hres.
Qed.

Lemma viewCommand_dead_id ps roots b req V :
  (viewCommand ps roots b req V).1 = false → (viewCommand ps roots b req V).2 = V.
Proof.
  unfold viewCommand. destruct (Aborted b); [done|].
  set (V1 := if req then viewMarkAll ps V roots else V).
  pose proof (viewKillWrites_untouched ps (Writes b) V1 (KeepAlive b || req)) as Hun.
  pose proof (viewKillWrites_lv ps (Writes b) V1 (KeepAlive b || req)) as Hlv.
  destruct (viewKillWrites ps V1 _ (Writes b)) as [V2 lv]. simpl in Hun, Hlv.
  destruct (viewCheckModifies V2 lv (Modifies b)) eqn:Hc; simpl; [done|].
  intros _. unfold viewCheckModifies in Hc. apply orb_false_iff in Hc as [-> _].
  rewrite Hun by done. unfold V1.
  destruct req; [|done]. rewrite orb_true_r in Hlv. by discriminate Hlv.
Qed.

Section DeadCommands.
Context {Atom : Type} {Key : Type} `{Countable Key}.
Implicit Types (g : @DependencyGraph Atom Key _ _).

Lemma viewSweep_agree g g' rs n :
  GetHierarchyStateMap g' = GetHierarchyStateMap g → rootKeys g' = rootKeys g →
  (∀ i, i < n → Behaviours g' !! i = Behaviours g !! i) →
  ∀ st, viewSweep g' rs n st = viewSweep g rs n st.
Proof.
  intros Hh Hr. induction n as [|n IH]; intros Hbs [isLive V]; [done|].
  rewrite !viewSweep_S. cbv zeta. rewrite Hh, Hr, Hbs by lia.
  apply IH. intros i Hi. apply Hbs. lia.
Qed.

Lemma viewSweep_drop g rs j n :
  ∀ isLive V, n ≤ length isLive →
    (j < n → (viewSweep g rs n (isLive, V)).1 !! j = Some false) →
    viewSweep (dropCommand g j) rs n (isLive, V) = viewSweep g rs n (isLive, V).
Proof.
  induction n as [|n IH]; intros isLive V Hn Hdead; [done|].
  destruct (decide (j = n)) as [->|Hne].
  - rewrite viewSweep_result in Hdead by lia.
    assert (n < S n) as Hlt by lia. apply Hdead in Hlt. injection Hlt as Hfalse.
    rewrite !viewSweep_S. cbv zeta.
    change (GetHierarchyStateMap (dropCommand g n)) with (GetHierarchyStateMap g).
    change (rootKeys (dropCommand g n)) with (rootKeys g).
    rewrite (viewCommand_dead_id _ _ _ _ _ Hfalse), Hfalse.
    assert (viewCommand (hierarchy (GetHierarchyStateMap g)) (rootKeys g)
              (default emptyBehaviour (Behaviours (dropCommand g n) !! n))
              (bool_decide (n ∈ rs)) V = (false, V)) as ->.
    { simpl. destruct (Behaviours g !! n) as [b|] eqn:Hb.
      - rewrite list_lookup_insert_eq by by eapply lookup_lt_Some. done.
      - rewrite list_insert_ge by by apply lookup_ge_None. rewrite Hb in *.
        simpl in *. unfold viewCommand in *. simpl in *.
        destruct (bool_decide (n ∈ rs)); [done|]. done. }
    simpl. apply viewSweep_agree; [done | done |].
    intros i Hi. simpl. apply list_lookup_insert_ne. lia.
  - rewrite !viewSweep_S. cbv zeta.
    change (GetHierarchyStateMap (dropCommand g j)) with (GetHierarchyStateMap g).
    change (rootKeys (dropCommand g j)) with (rootKeys g).
    assert (Behaviours (dropCommand g j) !! n = Behaviours g !! n) as ->
      by (simpl; by apply list_lookup_insert_ne).
    apply IH; [rewrite length_insert; lia|].
    intros Hj. rewrite viewSweep_S in Hdead. apply Hdead. lia.
Qed.

Lemma wfSweep_drop g last j :
  wfSweep g last = true → wfSweep (dropCommand g j) last = true.
Proof.
  unfold wfSweep.
  change (GetHierarchyStateMap (dropCommand g j)) with (GetHierarchyStateMap g).
  change (rootKeys (dropCommand g j)) with (rootKeys g).
  change (Atoms (dropCommand g j)) with (Atoms g).
  rewrite !andb_true_iff. intros ((((Hp & Hb) & Ha) & Hr) & Hroots).
  repeat split; try done.
  - simpl. by rewrite length_insert.
  - apply forallb_forall. intros b Hin%list_elem_of_In.
    apply elem_of_take in Hin as (i & Hi & Hlt). simpl in Hi.
    destruct (decide (i = j)) as [->|Hne].
    + apply list_lookup_insert_Some in Hi as [(_ & <- & _)|[? _]]; done.
    + rewrite list_lookup_insert_ne in Hi by done.
      rewrite forallb_forall in Hr. apply Hr, list_elem_of_In.
      apply elem_of_take. eauto.
Qed.

Lemma sum_take_insert_le (f : AtomBehaviour → nat) (x : AtomBehaviour)
    (l : list AtomBehaviour) :
  (∀ y, f x ≤ f y) →
  ∀ j n, sum_list (f <$> take n (<[j := x]> l)) ≤ sum_list (f <$> take n l).
Proof.
  intros Hmin. induction l as [|b bs IH]; intros j n; [done|].
  destruct n as [|n]; [done|]. destruct j as [|j]; simpl.
  - apply Nat.add_le_mono_r, Hmin.
  - apply Nat.add_le_mono_l, IH.
Qed.

Lemma sweepCost_drop g j n : sweepCost (dropCommand g j) n ≤ sweepCost g n.
Proof.
  unfold sweepCost. change (rootKeys (dropCommand g j)) with (rootKeys g).
  apply sum_take_insert_le. intros y. unfold commandCost. simpl. lia.
Qed.

(** X26. A dead command leaves no trace.  In a well-formed sweep, a
    command that comes out dead has changed nothing the sweep looks at:
    with its behaviour replaced by that of a command that aborted, the
    sweep returns the same liveness array. *)
Theorem dead_command_leaves_no_trace g ids j :
  wfSweep g (max_list ids) = true →
  (1 + Z.of_nat (sweepCost g (max_list ids + 1)) ≤ intMax)%Z →
  j ≤ max_list ids →
  ∃ isLive, propagateLiveness (requestAll g ids) = Ok isLive
    ∧ (isLive !! j = Some false →
       propagateLiveness (requestAll (dropCommand g j) ids) = Ok isLive).
Proof.
  intros Hwf Hclock Hj.
  rewrite (propagateLiveness_view (requestAll g ids));
    rewrite ?requestAll_graph, ?requestAll_last; [|done|done].
  eexists. split; [done|]. intros Hdead.
  rewrite (propagateLiveness_view (requestAll (dropCommand g j) ids));
    rewrite ?requestAll_graph, ?requestAll_last.
  - change (GetHierarchyStateMap (dropCommand g j)) with (GetHierarchyStateMap g).
    f_equal. f_equal.
    assert (requests (requestAll (dropCommand g j) ids) = requests (requestAll g ids))
      as -> by (apply set_eq; intros q; by rewrite !requestAll_requests).
    apply viewSweep_drop; [rewrite length_replicate; lia | done].
  - by apply wfSweep_drop.
  - pose proof (sweepCost_drop g j (max_list ids + 1)). lia.
Qed.
End DeadCommands.

Lemma dead_command_leaves_no_trace_witness :
  ∃ isLive, propagateLiveness (requestAll deadStoreGraph [1]) = Ok isLive
    ∧ (isLive !! 0 = Some false →
       propagateLiveness (requestAll (dropCommand deadStoreGraph 0) [1]) = Ok isLive).
Proof.
  apply (dead_command_leaves_no_trace deadStoreGraph [1] 0);
    [vm_compute; reflexivity | vm_compute; discriminate | simpl; lia].
Defined.
